(** * Platform Event Intelligence: authorization and audit core

    A shallow embedding of the TypeScript sources of the event query
    service and the properties of its authorization contract.

    Source files embedded here:
    - [src/types/index.ts]      (second document of src/src/mcp/auth.ts):
      [McpCallerContext], [isAuthorizedForService],
      [getAuthorizedServiceFilter];
    - [src/services/audit.ts]   (first document of src/src/services/audit.ts):
      [auditLog] and its four wrappers;
    - [src/mcp/auth.ts]: [extractMetadata], [hashToken],
      [resolveCallerContext];
    - [src/services/events.ts], of which the tree holds two copies:
      the earlier one (second document of src/src/services/audit.ts,
      lines 125-355), embedded as module [EventsV1], and the revised one
      (src/unnamed/part_004), embedded as module [Events];
    - [src/services/impact-summary.ts]: [generateImpactSummary];
    - [src/mcp/auth.ts], further: [createApiToken],
      [generateSecureToken];
    - [src/mcp/server.ts]: the four tool handlers, as module [Server];
    - [src/utils/index.ts]: [truncate], [retry].

    The revised copy of the events service is the one that calls the
    audit service, escapes the query and filters both search modes; the
    earlier copy has none of the three. What a caller can obtain is
    examined on both copies; what is written to the audit trail, on the
    revised copy, the only one that writes to it.

    Collaborators outside the sources (the PostgreSQL store and its
    case folding, the clock and [new Date], the SHA-256 digest, the
    embedding service, the summarizer) are fields of a [Runtime] record
    or of the [World] the code runs in. Strings are sequences of 8-bit
    characters. *)

From Stdlib Require Import String Ascii List ZArith QArith Bool Lia DecimalString.
From Stdlib Require Import Sorted Permutation.
Import ListNotations.
Local Close Scope Q_scope.
Local Open Scope list_scope.
Local Open Scope string_scope.

Set Implicit Arguments.
Set Warnings "-register-all".

(* ================================================================== *)
(** * JavaScript values *)

(** The values that reach the code with type [unknown] or
    [Record<string, unknown>]: call metadata and audit metadata. An object
    is an association list in insertion order. *)
Inductive Json : Type :=
| JUndefined
| JNull
| JBool (b : bool)
| JNum (n : Z)
| JStr (s : string)
| JArr (items : list Json)
| JObj (fields : list (string * Json)).

(** [!v] is false exactly on the truthy values. *)
Definition truthy (v : Json) : bool :=
  match v with
  | JUndefined | JNull => false
  | JBool b => b
  | JNum n => negb (n =? 0)%Z
  | JStr s => negb (s =? "")
  | JArr _ | JObj _ => true
  end.

(** [typeof v === 'object'] *)
Definition typeof_object (v : Json) : bool :=
  match v with
  | JNull | JArr _ | JObj _ => true
  | _ => false
  end.

Fixpoint assoc (k : string) (fs : list (string * Json)) : option Json :=
  match fs with
  | [] => None
  | (k', v) :: fs' => if k' =? k then Some v else assoc k fs'
  end.

(** [k in v] for a value already known to be an object. *)
Definition has_key (k : string) (v : Json) : bool :=
  match v with
  | JObj fs => match assoc k fs with Some _ => true | None => false end
  | _ => false
  end.

(** [v.k], and [v?.k] when [v] may be null or undefined. *)
Definition get_field (k : string) (v : Json) : Json :=
  match v with
  | JObj fs => match assoc k fs with Some x => x | None => JUndefined end
  | _ => JUndefined
  end.

(** [a || b] *)
Definition js_or (a b : Json) : Json := if truthy a then a else b.

(** An optional string as the value of an object property. *)
Definition opt_str (o : option string) : Json :=
  match o with Some s => JStr s | None => JUndefined end.

(** Truthiness of an optional string property: [if (input.serviceId)]. *)
Definition truthy_opt (o : option string) : bool :=
  match o with Some s => negb (s =? "") | None => false end.

(* ================================================================== *)
(** * src/types/index.ts: caller context and entitlement evaluator *)

(** ['token' | 'user'] *)
Inductive CallerType : Type := CallerToken | CallerUser.

Record McpCallerContext : Type := {
  callerId : string;
  authorizedServices : list string;
  callerName : option string;
  callerType : CallerType
}.

(** [Array.prototype.includes] on an array of strings. *)
Definition includes (xs : list string) (x : string) : bool :=
  existsb (fun y => y =? x) xs.

Definition isAuthorizedForService (context : McpCallerContext)
                                  (serviceId : string) : bool :=
  if includes (authorizedServices context) "*" then true
  else includes (authorizedServices context) serviceId.

(** The return type [string[] | '*']. *)
Inductive ServiceFilter : Type :=
| FilterAll
| FilterList (services : list string).

Definition getAuthorizedServiceFilter (context : McpCallerContext)
  : ServiceFilter :=
  if includes (authorizedServices context) "*" then FilterAll
  else FilterList (authorizedServices context).

(** What a query path that enforces the filter lets through: no
    restriction for ['*'], membership for a list. This is the test the
    read paths write as
    [authorizedFilter !== '*' && !authorizedFilter.includes(id)] and as
    [inArray(events.serviceId, authorizedFilter)]. *)
Definition filter_admits (f : ServiceFilter) (serviceId : string) : bool :=
  match f with
  | FilterAll => true
  | FilterList l => includes l serviceId
  end.

(* ================================================================== *)
(** * The store, the process and the collaborators *)

(** A pgvector value. *)
Definition Vector : Type := list Q.

(** A row of table [events] (src/db/schema.ts), with the columns the
    queries read. Timestamps are milliseconds since the epoch. *)
Record EventRow : Type := {
  ev_id : string;
  ev_serviceId : string;
  ev_eventType : string;
  ev_severity : string;
  ev_title : string;
  ev_description : option string;
  ev_embedding : option Vector;
  ev_occurredAt : Z
}.

(** A row of table [api_tokens] (src/db/schema.ts). *)
Record ApiToken : Type := {
  tk_id : string;
  tk_tokenHash : string;
  tk_name : string;
  tk_authorizedServices : list string;
  tk_createdBy : string;
  tk_expiresAt : option Z;
  tk_lastUsedAt : option Z;
  tk_createdAt : Z
}.

(** [SearchResult] of src/services/events.ts. *)
Record SearchResult : Type := {
  sr_id : string;
  sr_serviceId : string;
  sr_eventType : string;
  sr_severity : string;
  sr_title : string;
  sr_description : option string;
  sr_occurredAt : Z;
  sr_score : option Q
}.

(** A JavaScript [Date]: its time value, in milliseconds since the
    epoch, or the Invalid Date that [new Date(s)] makes of a string it
    cannot read. The timestamps of stored rows and the readings of the
    clock are always valid and are kept as plain numbers. *)
Inductive Date : Type :=
| ValidDate (time : Z)
| InvalidDate.

(** What the sources call but do not define. *)
Record Runtime : Type := {
  (** [createHash('sha256').update(s).digest('hex')] *)
  sha256_hex : string -> string;
  (** [Date.prototype.toISOString], on milliseconds since the epoch *)
  toISOString : Z -> string;
  (** [new Date(s)] *)
  parse_date : string -> Date;
  (** the character the store's [ILIKE] compares in place of a given
      one: its lower case under the collation of the database, which
      decides which characters are letters *)
  fold_case : ascii -> ascii;
  (** [generateEmbedding] of src/services/embeddings.ts, whose value
      comes from the embedding API or from floating-point arithmetic
      on the text; [None] when the call throws *)
  generateEmbedding : string -> option Vector;
  (** pgvector's cosine distance operator [<=>] *)
  cosine_distance : Vector -> Vector -> Q;
  (** whether the store puts the first of two rows before the second
      when its [ORDER BY] clause does not tell them apart; the store
      promises nothing about it *)
  tie_order : EventRow -> EventRow -> bool;
  (** [generateSummaryWithLLM] of src/services/impact-summary.ts: the
      model's answer, or the mock summary when the call fails *)
  generateSummaryWithLLM : string -> list SearchResult -> string
}.

(* ================================================================== *)
(** * src/services/audit.ts *)

Inductive Level : Type := INFO | WARNING | ERROR.

Record AuditLogEntry : Type := {
  al_timestamp : string;
  al_level : Level;
  al_action : string;
  al_callerId : string;
  al_callerName : option string;
  al_success : bool;
  al_resourceType : option string;
  al_resourceId : option string;
  al_serviceId : option string;
  al_message : option string;
  al_metadata : option Json
}.

(** One condition of a [where] clause over [events], as built with
    drizzle's [inArray], [eq], [gte], [lte], [or]/[ilike] and the raw
    [embedding IS NOT NULL]. [inArray] over an empty list selects no
    row. *)
Inductive Condition : Type :=
| InArrayServiceId (services : list string)
| EqId (id : string)
| EqServiceId (serviceId : string)
| EqEventType (eventType : string)
| EqSeverity (severity : string)
| GteOccurredAt (d : Date)
| LteOccurredAt (d : Date)
| IlikeTitleOrDescription (pattern : string)
| EmbeddingIsNotNull.

Inductive Order : Type :=
| Unordered
| ByOccurredAtDesc
| ByDistanceTo (q : Vector).

(** A statement sent to the store. *)
Inductive Statement : Type :=
| SelectEvents (conditions : list Condition) (order : Order) (limit : nat)
| SelectApiToken (tokenHash : string)
| UpdateLastUsedAt (id : string) (at_ : Z).

(** The state one tool call runs in: the two tables, the process
    environment, the clock (one reading serves the whole call), the
    audit lines written to stderr (oldest first) and the statements
    issued to the store (oldest first). The store answers every
    statement it is sent; the failures of a call are those the code
    raises, those of the driver when it is given an Invalid Date, that
    of the store on a pattern it rejects, and those of the embedding
    service. *)
Record World : Type := {
  events_table : list EventRow;
  api_tokens_table : list ApiToken;
  PEI_AUTH_TOKEN : option string;
  now : Z;
  stderr : list AuditLogEntry;
  issued : list Statement
}.

(** ** Computations: state plus exceptions *)

Inductive Outcome (A : Type) : Type :=
| Returned (a : A)
| Thrown (message : string).
Arguments Returned {A} a.
Arguments Thrown {A} message.

Definition M (A : Type) : Type := World -> Outcome A * World.

Definition ret {A} (a : A) : M A := fun w => (Returned a, w).

Definition throw {A} (message : string) : M A := fun w => (Thrown message, w).

Definition bind {A B} (m : M A) (k : A -> M B) : M B :=
  fun w => match m w with
           | (Returned a, w') => k a w'
           | (Thrown e, w') => (Thrown e, w')
           end.

Declare Scope m_scope.
Delimit Scope m_scope with m.
Notation "x <- m ;; k" := (bind m (fun x => k))
  (at level 61, m at next level, right associativity) : m_scope.
Notation "m ;;; k" := (bind m (fun _ => k))
  (at level 61, right associativity) : m_scope.
Local Open Scope m_scope.

(** The world after one more audit line. *)
Definition append_stderr (e : AuditLogEntry) (w : World) : World :=
  {| events_table := events_table w;
     api_tokens_table := api_tokens_table w;
     PEI_AUTH_TOKEN := PEI_AUTH_TOKEN w;
     now := now w;
     stderr := stderr w ++ [e];
     issued := issued w |}.

(** [console.error(JSON.stringify({type: 'AUDIT', ...entry}))] *)
Definition write_stderr (e : AuditLogEntry) : M unit :=
  fun w => (Returned tt, append_stderr e w).

(** [{ timestamp: new Date().toISOString(), ...entry }]: the fields of
    [Omit<AuditLogEntry, 'timestamp'>] are those of the entry, and the
    timestamp comes from the clock. *)
Definition stamp (rt : Runtime) (clock : Z) (entry : AuditLogEntry)
  : AuditLogEntry :=
  {| al_timestamp := toISOString rt clock;
     al_level := al_level entry;
     al_action := al_action entry;
     al_callerId := al_callerId entry;
     al_callerName := al_callerName entry;
     al_success := al_success entry;
     al_resourceType := al_resourceType entry;
     al_resourceId := al_resourceId entry;
     al_serviceId := al_serviceId entry;
     al_message := al_message entry;
     al_metadata := al_metadata entry |}.

Definition auditLog (rt : Runtime) (entry : AuditLogEntry) : M unit :=
  fun w =>
    let logEntry := stamp rt (now w) entry in
    write_stderr logEntry w.

(** [`${n}`] for a non-negative integer. *)
Definition decimal (n : nat) : string :=
  DecimalString.NilZero.string_of_uint (Nat.to_uint n).

Inductive AccessAction : Type :=
| search | get_details | get_timeline | get_impact_summary.

Definition action_name (a : AccessAction) : string :=
  match a with
  | search => "search"
  | get_details => "get_details"
  | get_timeline => "get_timeline"
  | get_impact_summary => "get_impact_summary"
  end.

(** An entry before [auditLog] stamps it. *)
Definition unstamped (level : Level) (action callerId : string)
    (callerName : option string) (success : bool)
    (resourceType serviceId message : option string)
    (metadata : option Json) : AuditLogEntry :=
  {| al_timestamp := "";
     al_level := level;
     al_action := action;
     al_callerId := callerId;
     al_callerName := callerName;
     al_success := success;
     al_resourceType := resourceType;
     al_resourceId := None;
     al_serviceId := serviceId;
     al_message := message;
     al_metadata := metadata |}.

(** "Log successful event access" *)
Definition auditEventAccess (rt : Runtime) (callerId : string)
    (callerName : option string) (action : AccessAction)
    (resultCount : nat) (serviceId : option string)
    (metadata : option Json) : M unit :=
  auditLog rt
    (unstamped INFO ("event_access_" ++ action_name action)
       callerId callerName true (Some "event") serviceId
       (Some ("Accessed " ++ decimal resultCount ++ " event(s)"))
       metadata).

Inductive AuthFailureReason : Type :=
| missing_token | invalid_token | expired_token.

Definition reason_name (r : AuthFailureReason) : string :=
  match r with
  | missing_token => "missing_token"
  | invalid_token => "invalid_token"
  | expired_token => "expired_token"
  end.

(** "Log authentication failure" *)
Definition auditAuthFailure (rt : Runtime) (callerId : string)
    (reason : AuthFailureReason) (metadata : option Json) : M unit :=
  auditLog rt
    (unstamped WARNING "authentication_failure" callerId None false
       None None
       (Some ("Authentication failed: " ++ reason_name reason))
       metadata).

(** "Log authorization denial" *)
Definition auditAuthorizationDenied (rt : Runtime) (callerId : string)
    (callerName : option string) (serviceId : string) (_action : string)
    (metadata : option Json) : M unit :=
  auditLog rt
    (unstamped WARNING "authorization_denied" callerId callerName false
       (Some "service") (Some serviceId)
       (Some ("Access denied to service: " ++ serviceId))
       metadata).

(** "Log successful authentication" *)
Definition auditAuthSuccess (rt : Runtime) (callerId : string)
    (callerName : option string) (metadata : option Json) : M unit :=
  auditLog rt
    (unstamped INFO "authentication_success" callerId callerName true
       None None (Some "Authentication successful") metadata).

(* ================================================================== *)
(** * Text matching *)

(** ** [escapeLikePattern] (revised src/services/events.ts)

    [String.prototype.replace] with a global one-character pattern: every
    occurrence of [c] becomes [by_]. None of the three replacement
    strings holds a [$], so each stands for itself. *)
Fixpoint replace_all (c : ascii) (by_ : string) (s : string) : string :=
  match s with
  | EmptyString => EmptyString
  | String x s' =>
      if Ascii.eqb x c then by_ ++ replace_all c by_ s'
      else String x (replace_all c by_ s')
  end.

Definition escapeLikePattern (pattern : string) : string :=
  replace_all "_" "\_"
    (replace_all "%" "\%"
       (replace_all "\" "\\" pattern)).

(** What the three replacements make of one character, for the proofs
    below. *)
Definition escaped (c : ascii) : string :=
  if Ascii.eqb c "\" then "\\"
  else if Ascii.eqb c "%" then "\%"
  else if Ascii.eqb c "_" then "\_"
  else String c EmptyString.

(** ** PostgreSQL [ILIKE]

    The pattern language of [LIKE] with the default escape character:
    [%] stands for any run of characters, [_] for any one character, a
    backslash makes the next character stand for itself, and a pattern
    that ends in a lone backslash is rejected ("LIKE pattern must not end
    with escape character"). [ILIKE] compares a character of the
    pattern that stands for itself with a character of the text after
    folding both with the case folding of the store, [fold] below. The
    pattern reaches the store as a bound parameter, so no character of
    it is read as SQL. *)
Inductive LikeToken : Type :=
| AnyRun
| AnyOne
| Exactly (c : ascii).

Fixpoint like_tokens (p : string) : option (list LikeToken) :=
  match p with
  | EmptyString => Some []
  | String c p' =>
      if Ascii.eqb c "\" then
        match p' with
        | EmptyString => None
        | String d p'' => option_map (cons (Exactly d)) (like_tokens p'')
        end
      else if Ascii.eqb c "%" then option_map (cons AnyRun) (like_tokens p')
      else if Ascii.eqb c "_" then option_map (cons AnyOne) (like_tokens p')
      else option_map (cons (Exactly c)) (like_tokens p')
  end.

(** The case folding of a store whose only letters are those of ASCII. *)
Definition lower (c : ascii) : ascii :=
  let n := nat_of_ascii c in
  if (65 <=? n)%nat && (n <=? 90)%nat then ascii_of_nat (n + 32) else c.

Fixpoint map_string (f : ascii -> ascii) (s : string) : string :=
  match s with
  | EmptyString => EmptyString
  | String c s' => String (f c) (map_string f s')
  end.

Fixpoint like_match (fold : ascii -> ascii) (ts : list LikeToken)
    (s : string) : bool :=
  match ts with
  | [] => match s with EmptyString => true | _ => false end
  | Exactly c :: ts' =>
      match s with
      | EmptyString => false
      | String x s' =>
          Ascii.eqb (fold c) (fold x) && like_match fold ts' s'
      end
  | AnyOne :: ts' =>
      match s with
      | EmptyString => false
      | String _ s' => like_match fold ts' s'
      end
  | AnyRun :: ts' =>
      (fix skip (s : string) : bool :=
         like_match fold ts' s
         || match s with
            | EmptyString => false
            | String _ s' => skip s'
            end) s
  end.

(** [text ILIKE pattern]; [None] when the pattern is rejected. *)
Definition ilike (fold : ascii -> ascii) (text pattern : string)
  : option bool :=
  option_map (fun ts => like_match fold ts text) (like_tokens pattern).

(** ** Substrings

    [s] starts with [q], the characters compared after [f]. *)
Fixpoint prefix_by (f : ascii -> ascii) (q s : string) : bool :=
  match q with
  | EmptyString => true
  | String c q' =>
      match s with
      | EmptyString => false
      | String x s' => Ascii.eqb (f c) (f x) && prefix_by f q' s'
      end
  end.

(** [p] holds of [s] or of what is left of [s] after some characters. *)
Fixpoint anywhere (p : string -> bool) (s : string) : bool :=
  p s
  || match s with
     | EmptyString => false
     | String _ s' => anywhere p s'
     end.

(** [s] holds [q] as a run of consecutive characters, each compared
    after [fold]: without regard to case, as the store sees case. *)
Definition contains_ci (fold : ascii -> ascii) (q s : string) : bool :=
  anywhere (prefix_by fold q) s.

(** [s] holds [q] as a run of consecutive characters, character for
    character. *)
Definition contains (q s : string) : bool :=
  anywhere (prefix_by (fun c => c) q) s.

(** A row whose title or description holds the query, without regard to
    case; a NULL description holds nothing. *)
Definition keyword_hit (fold : ascii -> ascii) (q : string)
    (title : string) (description : option string) : bool :=
  contains_ci fold q title
  || match description with
     | Some d => contains_ci fold q d
     | None => false
     end.

(** The same, character for character. *)
Definition keyword_hit_exact (q : string) (title : string)
    (description : option string) : bool :=
  contains q title
  || match description with
     | Some d => contains q d
     | None => false
     end.

(* ================================================================== *)
(** * The [events] table as the queries see it *)

Definition is_true (o : option bool) : bool :=
  match o with Some true => true | _ => false end.

(** Whether the store accepts a condition: it refuses a pattern that
    ends in a lone backslash. *)
Definition condition_ok (c : Condition) : bool :=
  match c with
  | IlikeTitleOrDescription p =>
      match like_tokens p with Some _ => true | None => false end
  | _ => true
  end.

(** The message of the [RangeError] that [toISOString] throws on an
    Invalid Date; the wording is the engine's. *)
Definition invalid_time_value : string := "Invalid time value".

(** Whether the driver can write the parameter of a condition: it
    sends a [Date] as its [toISOString()], which throws on an Invalid
    Date. *)
Definition parameter_ok (c : Condition) : bool :=
  match c with
  | GteOccurredAt InvalidDate | LteOccurredAt InvalidDate => false
  | _ => true
  end.

(** Whether a row passes a condition. A comparison with a NULL
    description is NULL, and [x OR NULL] selects the row only when [x]
    holds. No statement with an Invalid Date reaches the store. *)
Definition holds (rt : Runtime) (c : Condition) (r : EventRow) : bool :=
  match c with
  | InArrayServiceId l => includes l (ev_serviceId r)
  | EqId i => ev_id r =? i
  | EqServiceId s => ev_serviceId r =? s
  | EqEventType t => ev_eventType r =? t
  | EqSeverity s => ev_severity r =? s
  | GteOccurredAt (ValidDate d) => (d <=? ev_occurredAt r)%Z
  | LteOccurredAt (ValidDate d) => (ev_occurredAt r <=? d)%Z
  | GteOccurredAt InvalidDate | LteOccurredAt InvalidDate => false
  | IlikeTitleOrDescription p =>
      is_true (ilike (fold_case rt) (ev_title r) p)
      || match ev_description r with
         | Some d => is_true (ilike (fold_case rt) d p)
         | None => false
         end
  | EmbeddingIsNotNull =>
      match ev_embedding r with Some _ => true | None => false end
  end.

(** [and(...conditions)] *)
Definition holds_all (rt : Runtime) (cs : list Condition) (r : EventRow)
  : bool :=
  forallb (fun c => holds rt c r) cs.

(** Insertion sort; [ahead y x] says that [y] sorts strictly before [x].
    Elements of which neither is ahead of the other keep their
    order. *)
Fixpoint insert_by {A} (ahead : A -> A -> bool) (x : A) (l : list A)
  : list A :=
  match l with
  | [] => [x]
  | y :: l' => if ahead y x then y :: insert_by ahead x l' else x :: l
  end.

Fixpoint sort_by {A} (ahead : A -> A -> bool) (l : list A) : list A :=
  match l with
  | [] => []
  | x :: l' => insert_by ahead x (sort_by ahead l')
  end.

(** [embedding <=> q], NULL for a row without embedding. *)
Definition distance_to (rt : Runtime) (q : Vector) (r : EventRow)
  : option Q :=
  option_map (fun e => cosine_distance rt e q) (ev_embedding r).

(** Ascending order with NULLs last. *)
Definition nearer (rt : Runtime) (q : Vector) (y x : EventRow) : bool :=
  match distance_to rt q y, distance_to rt q x with
  | Some a, Some b => negb (Qle_bool b a)
  | Some _, None => true
  | None, _ => false
  end.

(** [ORDER BY occurred_at DESC]: the more recent row first, and rows of
    one instant as the store pleases. *)
Definition more_recent (rt : Runtime) (y x : EventRow) : bool :=
  (ev_occurredAt x <? ev_occurredAt y)%Z
  || ((ev_occurredAt x =? ev_occurredAt y)%Z && tie_order rt y x).

(** [ORDER BY embedding <=> q]: the nearer row first, and rows at one
    distance as the store pleases. *)
Definition closer (rt : Runtime) (q : Vector) (y x : EventRow) : bool :=
  nearer rt q y x || (negb (nearer rt q x y) && tie_order rt y x).

(** A query without [ORDER BY] is only used to fetch the row of a
    primary key; the rows come in the order of the table. *)
Definition order_rows (rt : Runtime) (o : Order) (rows : list EventRow)
  : list EventRow :=
  match o with
  | Unordered => rows
  | ByOccurredAtDesc => sort_by (more_recent rt) rows
  | ByDistanceTo q => sort_by (closer rt q) rows
  end.

Definition run_select (rt : Runtime) (cs : list Condition) (o : Order)
    (limit : nat) (rows : list EventRow) : list EventRow :=
  firstn limit (order_rows rt o (filter (holds_all rt cs) rows)).

Definition record_statement (s : Statement) (w : World) : World :=
  {| events_table := events_table w;
     api_tokens_table := api_tokens_table w;
     PEI_AUTH_TOKEN := PEI_AUTH_TOKEN w;
     now := now w;
     stderr := stderr w;
     issued := issued w ++ [s] |}.

(** [await db.select(...).from(events).where(...).orderBy(...).limit(n)].
    The driver writes the parameters first: on an Invalid Date it throws
    and no statement is sent. *)
Definition select_events (rt : Runtime) (cs : list Condition) (o : Order)
    (limit : nat) : M (list EventRow) :=
  fun w =>
    if negb (forallb parameter_ok cs)
    then (Thrown invalid_time_value, w)
    else
      let w' := record_statement (SelectEvents cs o limit) w in
      if forallb condition_ok cs
      then (Returned (run_select rt cs o limit (events_table w)), w')
      else (Thrown "LIKE pattern must not end with escape character", w').

(** The seven columns every query selects. *)
Definition to_result (r : EventRow) : SearchResult :=
  {| sr_id := ev_id r;
     sr_serviceId := ev_serviceId r;
     sr_eventType := ev_eventType r;
     sr_severity := ev_severity r;
     sr_title := ev_title r;
     sr_description := ev_description r;
     sr_occurredAt := ev_occurredAt r;
     sr_score := None |}.

(** The same with [score: 1 - (embedding <=> q)], which the caller keeps
    when it is a number. *)
Definition to_scored_result (rt : Runtime) (q : Vector) (r : EventRow)
  : SearchResult :=
  {| sr_id := ev_id r;
     sr_serviceId := ev_serviceId r;
     sr_eventType := ev_eventType r;
     sr_severity := ev_severity r;
     sr_title := ev_title r;
     sr_description := ev_description r;
     sr_occurredAt := ev_occurredAt r;
     sr_score := option_map (fun d => 1 - d)%Q (distance_to rt q r) |}.

(** [SearchEventsInput] of src/types/index.ts, after [zod] has parsed
    it. *)
Record SearchEventsInput : Type := {
  in_query : string;
  in_serviceId : option string;
  in_eventType : option string;
  in_severity : option string;
  in_startDate : option string;
  in_endDate : option string;
  in_limit : nat;
  in_useSemanticSearch : bool
}.

(** [conditions.push(c)] *)
Definition push (c : Condition) (conditions : list Condition)
  : list Condition :=
  (conditions ++ [c])%list.

(** [if (input.f) conditions.push(c(input.f))] *)
Definition push_if (o : option string) (c : string -> Condition)
    (conditions : list Condition) : list Condition :=
  match o with
  | Some s => if negb (s =? "") then push (c s) conditions else conditions
  | None => conditions
  end.

(** The block "Apply optional filters", the same in both search
    functions of both copies. *)
Definition push_optional_filters (rt : Runtime) (input : SearchEventsInput)
    (conditions : list Condition) : list Condition :=
  let conditions := push_if (in_serviceId input) EqServiceId conditions in
  let conditions := push_if (in_eventType input) EqEventType conditions in
  let conditions := push_if (in_severity input) EqSeverity conditions in
  let conditions :=
    push_if (in_startDate input)
      (fun s => GteOccurredAt (parse_date rt s)) conditions in
  let conditions :=
    push_if (in_endDate input)
      (fun s => LteOccurredAt (parse_date rt s)) conditions in
  conditions.

(** The block "Authorization filter". *)
Definition push_authorization_filter (context : McpCallerContext)
    (conditions : list Condition) : list Condition :=
  match getAuthorizedServiceFilter context with
  | FilterAll => conditions
  | FilterList authorizedFilter =>
      push (InArrayServiceId authorizedFilter) conditions
  end.

(** [Date | undefined] arguments of [getServiceTimeline]; a [Date] is
    truthy, valid or not. *)
Definition push_date (d : option Date) (c : Date -> Condition)
    (conditions : list Condition) : list Condition :=
  match d with
  | Some t => push (c t) conditions
  | None => conditions
  end.

(** The conditions of a keyword search other than the text match. *)
Definition other_conditions (rt : Runtime) (input : SearchEventsInput)
    (context : McpCallerContext) : list Condition :=
  push_optional_filters rt input (push_authorization_filter context []).

(** Whether [new Date] can read the date filter [o] of a search, when
    one is given ([if (input.startDate)]). *)
Definition readable_date (rt : Runtime) (o : option string) : bool :=
  match o with
  | Some s =>
      if negb (s =? "")
      then match parse_date rt s with
           | ValidDate _ => true
           | InvalidDate => false
           end
      else true
  | None => true
  end.

Definition readable_dates (rt : Runtime) (input : SearchEventsInput)
  : bool :=
  readable_date rt (in_startDate input)
  && readable_date rt (in_endDate input).

(** A [Date | undefined] argument that is not an Invalid Date. *)
Definition valid_argument (d : option Date) : bool :=
  match d with
  | Some InvalidDate => false
  | _ => true
  end.

(** What [d?.toISOString()] gives for a [Date | undefined] argument
    that is not an Invalid Date. *)
Definition argument_iso (rt : Runtime) (d : option Date) : option string :=
  match d with
  | Some (ValidDate t) => Some (toISOString rt t)
  | _ => None
  end.

(** The row [getEventById] reads: the first one with the given id. *)
Definition stored_event (w : World) (eventId : string) : option EventRow :=
  hd_error (filter (fun r => ev_id r =? eventId) (events_table w)).

(** [authorizedFilter !== '*' && !authorizedFilter.includes(serviceId)] *)
Definition denies (authorizedFilter : ServiceFilter) (serviceId : string)
  : bool :=
  match authorizedFilter with
  | FilterAll => false
  | FilterList l => negb (includes l serviceId)
  end.

(** [d?.toISOString()]; [toISOString] throws on an Invalid Date. *)
Definition optional_toISOString (rt : Runtime) (d : option Date)
  : M (option string) :=
  match d with
  | None => ret None
  | Some (ValidDate t) => ret (Some (toISOString rt t))
  | Some InvalidDate => throw invalid_time_value
  end.

(** [await generateEmbedding(text)] *)
Definition embed (rt : Runtime) (text : string) : M Vector :=
  match generateEmbedding rt text with
  | Some v => ret v
  | None => throw "Failed to generate embedding"
  end.

(* ================================================================== *)
(** * src/services/events.ts, earlier copy
      (src/src/services/audit.ts, lines 125-355) *)

Module EventsV1.
Section Service.
Variable rt : Runtime.

Definition keywordSearch (input : SearchEventsInput)
    (context : McpCallerContext) : M (list SearchResult) :=
  let conditions := [] in
  let conditions := push_authorization_filter context conditions in
  let conditions := push_optional_filters rt input conditions in
  let conditions :=
    push (IlikeTitleOrDescription ("%" ++ in_query input ++ "%"))
      conditions in
  results <- select_events rt conditions ByOccurredAtDesc (in_limit input) ;;
  ret (map to_result results).

Definition semanticSearch (input : SearchEventsInput)
    (_context : McpCallerContext) : M (list SearchResult) :=
  queryEmbedding <- embed rt (in_query input) ;;
  let conditions := [] in
  let conditions := push_optional_filters rt input conditions in
  let conditions := push EmbeddingIsNotNull conditions in
  results <- select_events rt conditions (ByDistanceTo queryEmbedding)
               (in_limit input) ;;
  ret (map (to_scored_result rt queryEmbedding) results).

Definition searchEvents (input : SearchEventsInput)
    (context : McpCallerContext) : M (list SearchResult) :=
  if in_useSemanticSearch input then semanticSearch input context
  else keywordSearch input context.

Definition getEventById (eventId : string) (context : McpCallerContext)
  : M (option SearchResult) :=
  result <- select_events rt [EqId eventId] Unordered 1 ;;
  match result with
  | [] => ret None
  | event :: _ =>
      let authorizedFilter := getAuthorizedServiceFilter context in
      if denies authorizedFilter (ev_serviceId event) then ret None
      else ret (Some (to_result event))
  end.

Definition getServiceTimeline (serviceId : string)
    (startDate endDate : option Date) (limit : nat)
    (context : McpCallerContext) : M (list SearchResult) :=
  let authorizedFilter := getAuthorizedServiceFilter context in
  if denies authorizedFilter serviceId then ret []
  else
    let conditions := [EqServiceId serviceId] in
    let conditions := push_date startDate GteOccurredAt conditions in
    let conditions := push_date endDate LteOccurredAt conditions in
    results <- select_events rt conditions ByOccurredAtDesc limit ;;
    ret (map to_result results).

End Service.
End EventsV1.

(* ================================================================== *)
(** * src/services/events.ts, revised copy (src/unnamed/part_004) *)

Module Events.
Section Service.
Variable rt : Runtime.

Definition keywordSearch (input : SearchEventsInput)
    (context : McpCallerContext) : M (list SearchResult) :=
  let conditions := [] in
  let conditions := push_authorization_filter context conditions in
  let conditions := push_optional_filters rt input conditions in
  let escapedQuery := escapeLikePattern (in_query input) in
  let conditions :=
    push (IlikeTitleOrDescription ("%" ++ escapedQuery ++ "%"))
      conditions in
  results <- select_events rt conditions ByOccurredAtDesc (in_limit input) ;;
  ret (map to_result results).

Definition semanticSearch (input : SearchEventsInput)
    (context : McpCallerContext) : M (list SearchResult) :=
  queryEmbedding <- embed rt (in_query input) ;;
  let conditions := [] in
  let conditions := push_authorization_filter context conditions in
  let conditions := push_optional_filters rt input conditions in
  let conditions := push EmbeddingIsNotNull conditions in
  results <- select_events rt conditions (ByDistanceTo queryEmbedding)
               (in_limit input) ;;
  ret (map (to_scored_result rt queryEmbedding) results).

Definition search_metadata (input : SearchEventsInput) : Json :=
  JObj [ ("query", JStr (in_query input));
         ("searchType",
          JStr (if in_useSemanticSearch input then "semantic"
                else "keyword"));
         ("filters",
          JObj [ ("eventType", opt_str (in_eventType input));
                 ("severity", opt_str (in_severity input));
                 ("startDate", opt_str (in_startDate input));
                 ("endDate", opt_str (in_endDate input)) ]) ].

Definition searchEvents (input : SearchEventsInput)
    (context : McpCallerContext) : M (list SearchResult) :=
  results <- (if in_useSemanticSearch input
              then semanticSearch input context
              else keywordSearch input context) ;;
  auditEventAccess rt (callerId context) (callerName context) search
    (length results) (in_serviceId input)
    (Some (search_metadata input)) ;;;
  ret results.

Definition getEventById (eventId : string) (context : McpCallerContext)
  : M (option SearchResult) :=
  result <- select_events rt [EqId eventId] Unordered 1 ;;
  match result with
  | [] =>
      (* Audit the failed access attempt *)
      auditEventAccess rt (callerId context) (callerName context)
        get_details 0 None
        (Some (JObj [ ("eventId", JStr eventId);
                      ("reason", JStr "not_found") ])) ;;;
      ret None
  | event :: _ =>
      let authorizedFilter := getAuthorizedServiceFilter context in
      if denies authorizedFilter (ev_serviceId event) then
        auditEventAccess rt (callerId context) (callerName context)
          get_details 0 (Some (ev_serviceId event))
          (Some (JObj [ ("eventId", JStr eventId);
                        ("reason", JStr "unauthorized") ])) ;;;
        ret None
      else
        (* Audit successful access *)
        auditEventAccess rt (callerId context) (callerName context)
          get_details 1 (Some (ev_serviceId event))
          (Some (JObj [ ("eventId", JStr eventId);
                        ("eventType", JStr (ev_eventType event));
                        ("severity", JStr (ev_severity event)) ])) ;;;
        ret (Some (to_result event))
  end.

Definition getServiceTimeline (serviceId : string)
    (startDate endDate : option Date) (limit : nat)
    (context : McpCallerContext) : M (list SearchResult) :=
  let authorizedFilter := getAuthorizedServiceFilter context in
  if denies authorizedFilter serviceId then
    (* Audit the denied access *)
    auditEventAccess rt (callerId context) (callerName context)
      get_timeline 0 (Some serviceId)
      (Some (JObj [ ("reason", JStr "unauthorized") ])) ;;;
    ret []
  else
    let conditions := [EqServiceId serviceId] in
    let conditions := push_date startDate GteOccurredAt conditions in
    let conditions := push_date endDate LteOccurredAt conditions in
    results <- select_events rt conditions ByOccurredAtDesc limit ;;
    (* Audit successful timeline access *)
    startISO <- optional_toISOString rt startDate ;;
    endISO <- optional_toISOString rt endDate ;;
    auditEventAccess rt (callerId context) (callerName context)
      get_timeline (length results) (Some serviceId)
      (Some (JObj [ ("startDate", opt_str startISO);
                    ("endDate", opt_str endISO);
                    ("limit", JNum (Z.of_nat limit)) ])) ;;;
    ret (map to_result results).

End Service.
End Events.

(* ================================================================== *)
(** * src/services/impact-summary.ts *)

(** [GetImpactSummaryInput]: the declaration (a schema of
    src/types/index.ts) is not in the tree; the record has the four
    fields that [generateImpactSummary] reads. *)
Record GetImpactSummaryInput : Type := {
  gi_serviceId : string;
  gi_startDate : option string;
  gi_endDate : option string;
  gi_maxEvents : nat
}.

Definition SEVERITY_PRIORITY (severity : string) : option Z :=
  if severity =? "critical" then Some 4%Z
  else if severity =? "error" then Some 3%Z
  else if severity =? "warning" then Some 2%Z
  else if severity =? "info" then Some 1%Z
  else None.

(** The comparator passed to [sort]. A severity outside the table makes
    the difference [NaN], which [sort] reads as 0. *)
Definition compare_priority (a b : SearchResult) : Z :=
  match SEVERITY_PRIORITY (sr_severity b),
        SEVERITY_PRIORITY (sr_severity a) with
  | Some pb, Some pa =>
      let severityDiff := (pb - pa)%Z in
      if negb (severityDiff =? 0)%Z then severityDiff
      else (sr_occurredAt b - sr_occurredAt a)%Z
  | _, _ => 0%Z
  end.

Definition double_quote : string := String (ascii_of_nat 34) EmptyString.

(** [input.d ? new Date(input.d) : undefined] *)
Definition date_argument (rt : Runtime) (d : option string)
  : option Date :=
  match d with
  | Some s => if negb (s =? "") then Some (parse_date rt s) else None
  | None => None
  end.

Section ImpactSummary.
Variable rt : Runtime.
(** [import { getServiceTimeline } from './events.js'] *)
Variable getServiceTimeline :
  string -> option Date -> option Date -> nat -> McpCallerContext ->
  M (list SearchResult).

Definition generateImpactSummary (input : GetImpactSummaryInput)
    (context : McpCallerContext) : M string :=
  events <- getServiceTimeline (gi_serviceId input)
              (date_argument rt (gi_startDate input))
              (date_argument rt (gi_endDate input))
              (gi_maxEvents input) context ;;
  match events with
  | [] =>
      auditEventAccess rt (callerId context) (callerName context)
        get_impact_summary 0 (Some (gi_serviceId input))
        (Some (JObj [ ("reason", JStr "no_events") ])) ;;;
      ret ("No significant events found for service " ++ double_quote
           ++ gi_serviceId input ++ double_quote
           ++ " in the specified time range.")
  | _ :: _ =>
      let prioritizedEvents :=
        sort_by (fun y x => (compare_priority y x <? 0)%Z) events in
      let summary :=
        generateSummaryWithLLM rt (gi_serviceId input) prioritizedEvents in
      auditEventAccess rt (callerId context) (callerName context)
        get_impact_summary (length events) (Some (gi_serviceId input))
        (Some (JObj [ ("startDate", opt_str (gi_startDate input));
                      ("endDate", opt_str (gi_endDate input));
                      ("eventCount", JNum (Z.of_nat (length events))) ])) ;;;
      ret summary
  end.

End ImpactSummary.

(* ================================================================== *)
(** * src/mcp/auth.ts *)

(** The result type is [Record<string, string> | null]; the cast does
    not inspect the value, so it is returned as it came. *)
Definition extractMetadata (extra : Json) : Json :=
  if negb (truthy extra) || negb (typeof_object extra) then JNull
  else if has_key "metadata" extra
          && typeof_object (get_field "metadata" extra)
  then get_field "metadata" extra
  else JNull.

Definition hashToken (rt : Runtime) (token : string) : string :=
  sha256_hex rt token.

(** [process.env.PEI_AUTH_TOKEN] *)
Definition read_PEI_AUTH_TOKEN : M Json :=
  fun w => (Returned (opt_str (PEI_AUTH_TOKEN w)), w).

(** [new Date()] *)
Definition read_clock : M Z := fun w => (Returned (now w), w).

(** [await db.select().from(apiTokens)
       .where(eq(apiTokens.tokenHash, tokenHash)).limit(1)] *)
Definition select_api_token (tokenHash : string) : M (list ApiToken) :=
  fun w =>
    (Returned
       (firstn 1
          (filter (fun t => tk_tokenHash t =? tokenHash)
             (api_tokens_table w))),
     record_statement (SelectApiToken tokenHash) w).

Definition touch (at_ : Z) (t : ApiToken) : ApiToken :=
  {| tk_id := tk_id t;
     tk_tokenHash := tk_tokenHash t;
     tk_name := tk_name t;
     tk_authorizedServices := tk_authorizedServices t;
     tk_createdBy := tk_createdBy t;
     tk_expiresAt := tk_expiresAt t;
     tk_lastUsedAt := Some at_;
     tk_createdAt := tk_createdAt t |}.

(** [db.update(apiTokens).set({ lastUsedAt: new Date() })
       .where(eq(apiTokens.id, id))], not awaited. *)
Definition update_lastUsedAt (id : string) : M unit :=
  fun w =>
    (Returned tt,
     {| events_table := events_table w;
        api_tokens_table :=
          map (fun t => if tk_id t =? id then touch (now w) t else t)
            (api_tokens_table w);
        PEI_AUTH_TOKEN := PEI_AUTH_TOKEN w;
        now := now w;
        stderr := stderr w;
        issued := (issued w ++ [UpdateLastUsedAt id (now w)])%list |}).

Definition zero_access (id : string) : McpCallerContext :=
  {| callerId := id;
     authorizedServices := [];
     callerName := None;
     callerType := CallerToken |}.

Section Auth.
Variable rt : Runtime.

Definition resolveCallerContext (extra : Json) : M McpCallerContext :=
  let metadata := extractMetadata extra in
  env <- read_PEI_AUTH_TOKEN ;;
  let authToken := js_or (get_field "authToken" metadata) env in
  if negb (truthy authToken) then
    auditAuthFailure rt "anonymous" missing_token None ;;;
    ret (zero_access "anonymous")
  else
    match authToken with
    | JStr authToken =>
        let tokenHash := hashToken rt authToken in
        token <- select_api_token tokenHash ;;
        match token with
        | [] =>
            auditAuthFailure rt "unknown" invalid_token
              (Some (JObj [ ("tokenHash", JStr tokenHash) ])) ;;;
            ret (zero_access "invalid")
        | tokenRecord :: _ =>
            today <- read_clock ;;
            if match tk_expiresAt tokenRecord with
               | Some expiresAt => (expiresAt <? today)%Z
               | None => false
               end
            then
              auditAuthFailure rt (tk_id tokenRecord) expired_token
                (Some (JObj [ ("name", JStr (tk_name tokenRecord));
                              ("expiresAt",
                               opt_str (option_map (toISOString rt)
                                          (tk_expiresAt tokenRecord))) ])) ;;;
              ret (zero_access (tk_id tokenRecord))
            else
              update_lastUsedAt (tk_id tokenRecord) ;;;
              auditAuthSuccess rt (tk_id tokenRecord)
                (Some (tk_name tokenRecord))
                (Some (JObj [ ("authorizedServices",
                               JArr (map JStr
                                       (tk_authorizedServices
                                          tokenRecord))) ])) ;;;
              ret {| callerId := tk_id tokenRecord;
                     authorizedServices :=
                       tk_authorizedServices tokenRecord;
                     callerName := Some (tk_name tokenRecord);
                     callerType := CallerToken |}
        end
    | _ =>
        (* [createHash('sha256').update(x)] refuses a value that is
           neither a string nor a buffer *)
        throw "TypeError: the data argument must be of type string"
    end.

End Auth.

(* ================================================================== *)
(** * Sample data *)

Module Sample.

(** A runtime to run the definitions on: a digest that tags its input, a
    clock that prints one instant, a [new Date] that reads one string
    and no other, a store whose letters are those of ASCII, where
    every pair of vectors is at distance 0 and which keeps rows that
    its [ORDER BY] does not tell apart in the order of the table, and
    an embedding service that answers the same unit vector. *)
Definition rt : Runtime :=
  {| sha256_hex := fun s => "sha256:" ++ s;
     toISOString := fun _ => "2026-01-21T00:02:10.127Z";
     parse_date := fun s => if s =? "1970-01-01T00:00:01.500Z"
                            then ValidDate 1500 else InvalidDate;
     fold_case := lower;
     tie_order := fun _ _ => false;
     generateEmbedding := fun _ => Some [1%Q; 0%Q];
     cosine_distance := fun _ _ => 0%Q;
     generateSummaryWithLLM := fun _ _ => "summary" |}.

Definition event_a : EventRow :=
  {| ev_id := "e-a";
     ev_serviceId := "svc-a";
     ev_eventType := "incident";
     ev_severity := "critical";
     ev_title := "DB outage";
     ev_description := Some "Primary database unavailable";
     ev_embedding := Some [1%Q; 0%Q];
     ev_occurredAt := 2000 |}.

Definition event_b : EventRow :=
  {| ev_id := "e-b";
     ev_serviceId := "svc-b";
     ev_eventType := "incident";
     ev_severity := "critical";
     ev_title := "DB failover";
     ev_description := None;
     ev_embedding := Some [0%Q; 1%Q];
     ev_occurredAt := 1000 |}.

Definition expired_record : ApiToken :=
  {| tk_id := "tok-old";
     tk_tokenHash := "sha256:old-secret";
     tk_name := "Expired Token";
     tk_authorizedServices := ["svc-a"];
     tk_createdBy := "test-suite";
     tk_expiresAt := Some 4000%Z;
     tk_lastUsedAt := None;
     tk_createdAt := 0 |}.

Definition world : World :=
  {| events_table := [event_a; event_b];
     api_tokens_table := [expired_record];
     PEI_AUTH_TOKEN := None;
     now := 5000;
     stderr := [];
     issued := [] |}.

Definition call_with_token (t : string) : Json :=
  JObj [ ("metadata", JObj [ ("authToken", JStr t) ]) ].

Definition context_a : McpCallerContext :=
  {| callerId := "tok-a";
     authorizedServices := ["svc-a"];
     callerName := None;
     callerType := CallerToken |}.

Definition context_none : McpCallerContext := zero_access "anonymous".

Definition context_admin : McpCallerContext :=
  {| callerId := "admin";
     authorizedServices := ["*"];
     callerName := None;
     callerType := CallerToken |}.

Definition search_for (q : string) (semantic : bool) : SearchEventsInput :=
  {| in_query := q;
     in_serviceId := None;
     in_eventType := None;
     in_severity := None;
     in_startDate := None;
     in_endDate := None;
     in_limit := 10;
     in_useSemanticSearch := semantic |}.

Definition summary_of (serviceId : string) : GetImpactSummaryInput :=
  {| gi_serviceId := serviceId;
     gi_startDate := None;
     gi_endDate := None;
     gi_maxEvents := 20 |}.

End Sample.

(* ================================================================== *)
(** * src/mcp/auth.ts: issuing credentials *)

(** The digits of [Number.prototype.toString(16)]. *)
Definition hex_digit (n : N) : ascii :=
  match n with
  | 0%N => "0" | 1%N => "1" | 2%N => "2" | 3%N => "3"
  | 4%N => "4" | 5%N => "5" | 6%N => "6" | 7%N => "7"
  | 8%N => "8" | 9%N => "9" | 10%N => "a" | 11%N => "b"
  | 12%N => "c" | 13%N => "d" | 14%N => "e" | _ => "f"
  end.

(** [b.toString(16)] for an element of a [Uint8Array]: one digit below
    16, two digits from 16 on. *)
Definition toString16 (b : Byte.byte) : string :=
  let n := Byte.to_N b in
  if (n <? 16)%N then String (hex_digit n) EmptyString
  else String (hex_digit (n / 16)) (String (hex_digit (n mod 16)) EmptyString).

Fixpoint repeat_char (c : ascii) (n : nat) : string :=
  match n with
  | O => EmptyString
  | S n' => String c (repeat_char c n')
  end.

(** [s.padStart(targetLength, c)] for a one-character filler. *)
Definition padStart (targetLength : nat) (c : ascii) (s : string) : string :=
  repeat_char c (targetLength - String.length s) ++ s.

(** [generateSecureToken], on the 32 bytes that
    [crypto.getRandomValues] has written into the array. *)
Definition generateSecureToken (bytes : list Byte.byte) : string :=
  String.concat "" (map (fun b => padStart 2 "0" (toString16 b)) bytes).

(** [expiresInDays ? new Date(Date.now() + expiresInDays * 24 * 60 * 60
    * 1000) : undefined], for a whole number of days. *)
Definition expiry_of (today : Z) (expiresInDays : option Z) : option Z :=
  match expiresInDays with
  | Some d =>
      if (d =? 0)%Z then None
      else Some (today + d * 24 * 60 * 60 * 1000)%Z
  | None => None
  end.

(** [await db.insert(apiTokens).values(...).returning({ id })]. The
    store draws the id ([defaultRandom]) and the creation time
    ([defaultNow]); it refuses a row whose id is taken (primary key) or
    whose [token_hash] is (the column is [unique]). The insertion is not
    listed in [issued], which records the statements of the resolver and
    of the read operations. *)
Definition insert_api_token (row : ApiToken) : M string :=
  fun w =>
    if existsb (fun t => (tk_id t =? tk_id row)
                         || (tk_tokenHash t =? tk_tokenHash row))
         (api_tokens_table w)
    then (Thrown "duplicate key value violates unique constraint", w)
    else (Returned (tk_id row),
          {| events_table := events_table w;
             api_tokens_table := (api_tokens_table w ++ [row])%list;
             PEI_AUTH_TOKEN := PEI_AUTH_TOKEN w;
             now := now w;
             stderr := stderr w;
             issued := issued w |}).

(** [createApiToken]; [random] is what [crypto.getRandomValues] wrote
    and [id] the identifier the store draws for the new row. The result
    is the pair [{ token, id }]. *)
Definition createApiToken (rt : Runtime) (random : list Byte.byte)
    (id : string) (name : string) (authorizedServices : list string)
    (createdBy : string) (expiresInDays : option Z) : M (string * string) :=
  let token := generateSecureToken random in
  let tokenHash := hashToken rt token in
  today <- read_clock ;;
  inserted <- insert_api_token
                {| tk_id := id;
                   tk_tokenHash := tokenHash;
                   tk_name := name;
                   tk_authorizedServices := authorizedServices;
                   tk_createdBy := createdBy;
                   tk_expiresAt := expiry_of today expiresInDays;
                   tk_lastUsedAt := None;
                   tk_createdAt := today |} ;;
  ret (token, inserted).

(** The value of a hexadecimal digit, to read a token back. *)
Definition hex_value (c : ascii) : N :=
  let n := N_of_ascii c in
  if (n <? 58)%N then (n - 48)%N else (n - 87)%N.

(** The byte two hexadecimal digits stand for. *)
Definition byte_of_hex (hi lo : ascii) : option Byte.byte :=
  Byte.of_N (16 * hex_value hi + hex_value lo).

(** [extra] of a call that carries [authToken] in its metadata. *)
Definition call_presenting (authToken : string) : Json :=
  JObj [ ("metadata", JObj [ ("authToken", JStr authToken) ]) ].

(** The world with another [PEI_AUTH_TOKEN]. *)
Definition with_PEI_AUTH_TOKEN (e : option string) (w : World) : World :=
  {| events_table := events_table w;
     api_tokens_table := api_tokens_table w;
     PEI_AUTH_TOKEN := e;
     now := now w;
     stderr := stderr w;
     issued := issued w |}.

(** What of a stored credential decides who it authenticates and what it
    grants: everything but [lastUsedAt]. *)
Definition grant_of (t : ApiToken)
  : string * string * string * list string * string * option Z * Z :=
  (tk_id t, tk_tokenHash t, tk_name t, tk_authorizedServices t,
   tk_createdBy t, tk_expiresAt t, tk_createdAt t).

(** A character of [0123456789abcdef]. *)
Definition is_lower_hex (c : ascii) : bool :=
  let n := N_of_ascii c in
  ((48 <=? n) && (n <=? 57) || (97 <=? n) && (n <=? 102))%N.

Fixpoint all_chars (p : ascii -> bool) (s : string) : bool :=
  match s with
  | EmptyString => true
  | String c s' => p c && all_chars p s'
  end.

(** [expiresAt && expiresAt < new Date()] *)
Definition expired_at (today : Z) (t : ApiToken) : bool :=
  match tk_expiresAt t with
  | Some expiresAt => (expiresAt <? today)%Z
  | None => false
  end.

(** The credential a call presents: [metadata?.authToken ||
    process.env.PEI_AUTH_TOKEN]. *)
Definition presented (extra : Json) (w : World) : Json :=
  js_or (get_field "authToken" (extractMetadata extra))
        (opt_str (PEI_AUTH_TOKEN w)).

(** The stored records a credential matches. *)
Definition matching (rt : Runtime) (s : string) (w : World)
  : list ApiToken :=
  filter (fun t => tk_tokenHash t =? hashToken rt s) (api_tokens_table w).

(* ================================================================== *)
(** * What an operation leaves alone *)

Definition is_select (s : Statement) : bool :=
  match s with
  | SelectEvents _ _ _ => true
  | _ => false
  end.

(** [w'] comes from [w] by reading events and writing audit lines: the
    tables, the environment and the clock are the same, the audit trail
    has only grown and every statement issued since is a [select] on
    [events]. *)
Definition reads_only (w w' : World) : Prop :=
  events_table w' = events_table w
  /\ api_tokens_table w' = api_tokens_table w
  /\ PEI_AUTH_TOKEN w' = PEI_AUTH_TOKEN w
  /\ now w' = now w
  /\ (exists lines, stderr w' = (stderr w ++ lines)%list)
  /\ (exists statements,
        issued w' = (issued w ++ statements)%list
        /\ forallb is_select statements = true).

(** The order of the timeline and of keyword search: most recent
    first. *)
Definition not_older (a b : SearchResult) : Prop :=
  (sr_occurredAt b <= sr_occurredAt a)%Z.

(** The order of semantic search: both records carry a score and the
    first one's is not the lower. *)
Definition not_less_similar (a b : SearchResult) : Prop :=
  match sr_score a, sr_score b with
  | Some sa, Some sb => (sb <= sa)%Q
  | _, _ => False
  end.

(** The rank [compare_priority] sorts by, for a severity of the
    table. *)
Definition priority_rank (r : SearchResult) : Z :=
  match SEVERITY_PRIORITY (sr_severity r) with
  | Some p => p
  | None => 0%Z
  end.

(** [a] may stand before [b] in the prioritized list: a higher
    priority, or the same and not older. *)
Definition not_less_urgent (a b : SearchResult) : Prop :=
  (priority_rank b < priority_rank a)%Z
  \/ (priority_rank b = priority_rank a
      /\ (sr_occurredAt b <= sr_occurredAt a)%Z).

(* ================================================================== *)
(** * src/mcp/server.ts: the tool handlers

    Each handler takes the input its schema has parsed and the [extra]
    of the call, and answers with [JSON.stringify] of an object; the
    definitions give that object. The events service they import is the
    revised copy. *)

Module Server.
Section Tools.
Variable rt : Runtime.
(** [Number.prototype.toFixed(3)] *)
Variable toFixed3 : Q -> string.

(** [event.description] of a row, [null] when the column is. *)
Definition nullable (o : option string) : Json :=
  match o with Some s => JStr s | None => JNull end.

(** [{ ...(r.score !== undefined ? { relevanceScore: ... } : {}) }] *)
Definition relevance (score : option Q) : list (string * Json) :=
  match score with
  | Some s => [ ("relevanceScore", JStr (toFixed3 s)) ]
  | None => []
  end.

Definition search_events (input : SearchEventsInput) (extra : Json)
  : M Json :=
  context <- resolveCallerContext rt extra ;;
  results <- Events.searchEvents rt input context ;;
  ret (JObj
         [ ("query", JStr (in_query input));
           ("resultCount", JNum (Z.of_nat (length results)));
           ("searchType",
            JStr (if in_useSemanticSearch input then "semantic"
                  else "keyword"));
           ("results",
            JArr (map (fun r =>
                         JObj ([ ("id", JStr (sr_id r));
                                 ("service", JStr (sr_serviceId r));
                                 ("type", JStr (sr_eventType r));
                                 ("severity", JStr (sr_severity r));
                                 ("title", JStr (sr_title r));
                                 ("description",
                                  opt_str (option_map (substring 0 200)
                                             (sr_description r)));
                                 ("occurredAt",
                                  JStr (toISOString rt (sr_occurredAt r))) ]
                               ++ relevance (sr_score r))%list)
                    results)) ]).

Definition get_event_details (eventId : string) (extra : Json) : M Json :=
  context <- resolveCallerContext rt extra ;;
  event <- Events.getEventById rt eventId context ;;
  match event with
  | None => ret (JObj [ ("error", JStr "Event not found") ])
  | Some event =>
      ret (JObj [ ("id", JStr (sr_id event));
                  ("service", JStr (sr_serviceId event));
                  ("type", JStr (sr_eventType event));
                  ("severity", JStr (sr_severity event));
                  ("title", JStr (sr_title event));
                  ("description", nullable (sr_description event));
                  ("occurredAt",
                   JStr (toISOString rt (sr_occurredAt event))) ])
  end.

(** [GetServiceTimelineInput], parsed. *)
Record GetServiceTimelineInput : Type := {
  gt_serviceId : string;
  gt_startDate : option string;
  gt_endDate : option string;
  gt_limit : nat
}.

Definition get_service_timeline (input : GetServiceTimelineInput)
    (extra : Json) : M Json :=
  context <- resolveCallerContext rt extra ;;
  results <- Events.getServiceTimeline rt (gt_serviceId input)
               (date_argument rt (gt_startDate input))
               (date_argument rt (gt_endDate input))
               (gt_limit input) context ;;
  ret (JObj
         [ ("service", JStr (gt_serviceId input));
           ("eventCount", JNum (Z.of_nat (length results)));
           ("timeline",
            JArr (map (fun r =>
                         JObj [ ("id", JStr (sr_id r));
                                ("type", JStr (sr_eventType r));
                                ("severity", JStr (sr_severity r));
                                ("title", JStr (sr_title r));
                                ("occurredAt",
                                 JStr (toISOString rt (sr_occurredAt r))) ])
                    results)) ]).

(** [input.d || fallback] *)
Definition or_default (d : option string) (fallback : string) : string :=
  match d with
  | Some s => if negb (s =? "") then s else fallback
  | None => fallback
  end.

(** The [try]/[catch] of the handler turns what [generateImpactSummary]
    throws into an answer. *)
Definition get_impact_summary (input : GetImpactSummaryInput)
    (extra : Json) : M Json :=
  context <- resolveCallerContext rt extra ;;
  fun w =>
    match generateImpactSummary rt (Events.getServiceTimeline rt)
            input context w with
    | (Returned summary, w') =>
        (Returned
           (JObj [ ("service", JStr (gi_serviceId input));
                   ("timeRange",
                    JObj [ ("start",
                            JStr (or_default (gi_startDate input)
                                    "beginning"));
                           ("end",
                            JStr (or_default (gi_endDate input) "now")) ]);
                   ("summary", JStr summary) ]), w')
    | (Thrown message, w') =>
        (Returned
           (JObj [ ("error", JStr "Failed to generate impact summary");
                   ("message", JStr message) ]), w')
    end.

End Tools.
End Server.

(* ================================================================== *)
(** * src/utils/index.ts *)

(** [truncate]; [str] is [None] for [null] and [undefined]. A negative
    end makes [substring] start and end at 0. *)
Definition truncate (str : option string) (maxLength : Z) : string :=
  match str with
  | None => EmptyString
  | Some str =>
      if str =? "" then EmptyString
      else if (Z.of_nat (String.length str) <=? maxLength)%Z then str
      else substring 0 (Z.to_nat (maxLength - 3)) str ++ "..."
  end.

(** How a promise settles; [Rejected None] is a rejection with
    [undefined]. *)
Inductive Settled (T : Type) : Type :=
| Resolved (value : T)
| Rejected (error : option string).
Arguments Resolved {T} value.
Arguments Rejected {T} error.

(** The loop of [retry] from attempt [attempt] on, with [remaining]
    attempts left; [fn i] is what the call number [i] of the function
    does. The result is how the promise settles and the delays slept
    through, in order. *)
Fixpoint retry_loop {T} (fn : nat -> Outcome T) (baseDelayMs : Z)
    (remaining attempt : nat) (lastError : option string)
  : Settled T * list Z :=
  match remaining with
  | O => (Rejected lastError, [])
  | S remaining' =>
      match fn attempt with
      | Returned v => (Resolved v, [])
      | Thrown e =>
          let rest :=
            retry_loop fn baseDelayMs remaining' (S attempt) (Some e) in
          match remaining' with
          | O => rest
          | S _ =>
              (fst rest,
               (baseDelayMs * 2 ^ Z.of_nat attempt)%Z :: snd rest)
          end
      end
  end.

Definition retry {T} (fn : nat -> Outcome T) (maxRetries : nat)
    (baseDelayMs : Z) : Settled T * list Z :=
  retry_loop fn baseDelayMs maxRetries 0 None.

(* ================================================================== *)
(** * More sample data *)

Module Sample2.

Definition valid_record : ApiToken :=
  {| tk_id := "tok-new";
     tk_tokenHash := "sha256:fresh-secret";
     tk_name := "Valid Token";
     tk_authorizedServices := ["svc-a"; "svc-b"];
     tk_createdBy := "test-suite";
     tk_expiresAt := Some 9000%Z;
     tk_lastUsedAt := None;
     tk_createdAt := 0 |}.

Definition world : World :=
  {| events_table := [Sample.event_a; Sample.event_b];
     api_tokens_table := [Sample.expired_record; valid_record];
     PEI_AUTH_TOKEN := Some "fresh-secret";
     now := 5000;
     stderr := [];
     issued := [] |}.

Definition random : list Byte.byte :=
  [Byte.x00; Byte.x0f; Byte.xa5; Byte.xff].

Definition timeline_of (serviceId : string) : Server.GetServiceTimelineInput :=
  {| Server.gt_serviceId := serviceId;
     Server.gt_startDate := None;
     Server.gt_endDate := None;
     Server.gt_limit := 20 |}.


(** Two more events of [svc-a], of lower severity and more recent than
    [Sample.event_a]. *)
Definition event_c : EventRow :=
  {| ev_id := "e-c";
     ev_serviceId := "svc-a";
     ev_eventType := "deployment";
     ev_severity := "info";
     ev_title := "Release 1.4";
     ev_description := None;
     ev_embedding := None;
     ev_occurredAt := 3000 |}.

Definition event_d : EventRow :=
  {| ev_id := "e-d";
     ev_serviceId := "svc-a";
     ev_eventType := "alert";
     ev_severity := "error";
     ev_title := "Error rate high";
     ev_description := None;
     ev_embedding := None;
     ev_occurredAt := 2500 |}.

Definition busy_world : World :=
  {| events_table := [Sample.event_a; Sample.event_b; event_c; event_d];
     api_tokens_table := [valid_record];
     PEI_AUTH_TOKEN := None;
     now := 5000;
     stderr := [];
     issued := [] |}.

(** A function that fails twice and then answers. *)
Definition flaky (i : nat) : Outcome nat :=
  match i with
  | 0 => Thrown "first"
  | 1 => Thrown "second"
  | _ => Returned 7
  end.

End Sample2.

(* ================================================================== *)
(** * Properties *)

(** ** Entitlement evaluator *)

Lemma includes_In (xs : list string) (x : string) :
  includes xs x = true <-> In x xs.
Proof.
  unfold includes. rewrite existsb_exists. split.
  - intros [y [Hy He]]. apply String.eqb_eq in He. now subst.
  - intros H. exists x. split; [assumption | apply String.eqb_refl].
Qed.

Lemma filter_admits_spec (context : McpCallerContext) (serviceId : string) :
  filter_admits (getAuthorizedServiceFilter context) serviceId
  = isAuthorizedForService context serviceId.
Proof.
  unfold getAuthorizedServiceFilter, isAuthorizedForService.
  destruct (includes (authorizedServices context) "*"); reflexivity.
Qed.

Lemma empty_context_unauthorized (context : McpCallerContext) (t : string) :
  authorizedServices context = [] ->
  isAuthorizedForService context t = false.
Proof.
  intros H. unfold isAuthorizedForService. now rewrite H.
Qed.

Lemma denies_spec (context : McpCallerContext) (serviceId : string) :
  denies (getAuthorizedServiceFilter context) serviceId
  = negb (isAuthorizedForService context serviceId).
Proof.
  unfold getAuthorizedServiceFilter, isAuthorizedForService, denies.
  destruct (includes (authorizedServices context) "*"); reflexivity.
Qed.

Lemma holds_all_push (rt : Runtime) (c : Condition) (cs : list Condition)
    (r : EventRow) :
  holds_all rt (push c cs) r = holds_all rt cs r && holds rt c r.
Proof.
  unfold holds_all, push. rewrite forallb_app. simpl.
  now rewrite andb_true_r.
Qed.

Lemma holds_all_authorization (rt : Runtime) (context : McpCallerContext)
    (cs : list Condition) (r : EventRow) :
  holds_all rt (push_authorization_filter context cs) r
  = holds_all rt cs r && isAuthorizedForService context (ev_serviceId r).
Proof.
  unfold push_authorization_filter.
  rewrite <- filter_admits_spec.
  destruct (getAuthorizedServiceFilter context); simpl.
  - now rewrite andb_true_r.
  - apply holds_all_push.
Qed.

(** C9. The two operations of the entitlement evaluator agree:
    [isAuthorizedForService context t] is true exactly when
    [getAuthorizedServiceFilter context] is ['*'] or is a list that holds
    [t]; hence the test of the single-record and timeline paths denies
    exactly the tenants [isAuthorizedForService] refuses, and the
    condition pushed onto a search admits exactly the rows whose tenant
    [isAuthorizedForService] accepts. Both operations are functions of
    the context alone. *)
Theorem entitlement_evaluator_coherent
    (context : McpCallerContext) (t : string) :
  (isAuthorizedForService context t = true <->
   getAuthorizedServiceFilter context = FilterAll \/
   exists l, getAuthorizedServiceFilter context = FilterList l /\ In t l)
  /\ denies (getAuthorizedServiceFilter context) t
     = negb (isAuthorizedForService context t)
  /\ forall (rt : Runtime) (cs : list Condition) (r : EventRow),
       holds_all rt (push_authorization_filter context cs) r
       = holds_all rt cs r
         && isAuthorizedForService context (ev_serviceId r).
Proof.
  split; [| split].
  - unfold isAuthorizedForService, getAuthorizedServiceFilter.
    destruct (includes (authorizedServices context) "*") eqn:Hstar.
    + split; [intros _; now left | reflexivity].
    + rewrite includes_In. split.
      * intros Hin. right. now exists (authorizedServices context).
      * intros [Habs | [l [Hl Hin]]]; [discriminate |].
        injection Hl as <-. exact Hin.
  - apply denies_spec.
  - intros rt cs r. apply holds_all_authorization.
Qed.

(** ** Credential resolver *)

(** C7. A call whose metadata carries no [authToken], in a process
    without [PEI_AUTH_TOKEN], does not throw: it returns the context
    [{callerId: 'anonymous', authorizedServices: [], callerType:
    'token'}] and writes one audit line, an [authentication_failure]
    with [success: false] whose message names [missing_token]; nothing
    is sent to the store. *)
Theorem resolveCallerContext_missing_token
    (rt : Runtime) (extra : Json) (w : World) :
  get_field "authToken" (extractMetadata extra) = JUndefined ->
  PEI_AUTH_TOKEN w = None ->
  exists w',
    resolveCallerContext rt extra w
    = (Returned {| callerId := "anonymous";
                   authorizedServices := [];
                   callerName := None;
                   callerType := CallerToken |}, w')
    /\ stderr w'
       = (stderr w
          ++ [ {| al_timestamp := toISOString rt (now w);
                  al_level := WARNING;
                  al_action := "authentication_failure";
                  al_callerId := "anonymous";
                  al_callerName := None;
                  al_success := false;
                  al_resourceType := None;
                  al_resourceId := None;
                  al_serviceId := None;
                  al_message :=
                    Some "Authentication failed: missing_token";
                  al_metadata := None |} ])%list
    /\ issued w' = issued w
    /\ events_table w' = events_table w
    /\ api_tokens_table w' = api_tokens_table w.
Proof.
  intros Hfield Henv.
  unfold resolveCallerContext, bind, read_PEI_AUTH_TOKEN.
  rewrite Hfield, Henv. eexists. split; [reflexivity |].
  repeat split.
Qed.

Lemma resolveCallerContext_missing_token_witness :
  get_field "authToken" (extractMetadata (JObj [])) = JUndefined
  /\ PEI_AUTH_TOKEN Sample.world = None
  /\ fst (resolveCallerContext Sample.rt (JObj []) Sample.world)
     = Returned (zero_access "anonymous")
  /\ map (fun line => (al_action line, al_success line, al_message line))
       (stderr (snd (resolveCallerContext Sample.rt (JObj [])
                       Sample.world)))
     = [ ("authentication_failure", false,
          Some "Authentication failed: missing_token") ].
Proof.
  split; [reflexivity | split; [reflexivity |]].
  destruct (@resolveCallerContext_missing_token Sample.rt (JObj [])
              Sample.world eq_refl eq_refl) as [w' [Hrun [Hlog _]]].
  rewrite Hrun. cbn [fst snd]. rewrite Hlog. split; reflexivity.
Defined.

Lemma resolve_with_credential (rt : Runtime) (extra : Json) (w : World)
    (s : string) :
  js_or (get_field "authToken" (extractMetadata extra))
        (opt_str (PEI_AUTH_TOKEN w)) = JStr s ->
  s <> "" ->
  resolveCallerContext rt extra w
  = (let tokenHash := hashToken rt s in
     token <- select_api_token tokenHash ;;
     match token with
     | [] =>
         auditAuthFailure rt "unknown" invalid_token
           (Some (JObj [ ("tokenHash", JStr tokenHash) ])) ;;;
         ret (zero_access "invalid")
     | tokenRecord :: _ =>
         today <- read_clock ;;
         if match tk_expiresAt tokenRecord with
            | Some expiresAt => (expiresAt <? today)%Z
            | None => false
            end
         then
           auditAuthFailure rt (tk_id tokenRecord) expired_token
             (Some (JObj [ ("name", JStr (tk_name tokenRecord));
                           ("expiresAt",
                            opt_str (option_map (toISOString rt)
                                       (tk_expiresAt tokenRecord))) ])) ;;;
           ret (zero_access (tk_id tokenRecord))
         else
           update_lastUsedAt (tk_id tokenRecord) ;;;
           auditAuthSuccess rt (tk_id tokenRecord)
             (Some (tk_name tokenRecord))
             (Some (JObj [ ("authorizedServices",
                            JArr (map JStr
                                    (tk_authorizedServices tokenRecord))) ])) ;;;
           ret {| callerId := tk_id tokenRecord;
                  authorizedServices := tk_authorizedServices tokenRecord;
                  callerName := Some (tk_name tokenRecord);
                  callerType := CallerToken |}
     end) w.
Proof.
  intros Hcred Hs.
  unfold resolveCallerContext.
  unfold bind at 1. unfold read_PEI_AUTH_TOKEN at 1.
  rewrite Hcred.
  assert (Ht : truthy (JStr s) = true).
  { simpl. apply negb_true_iff. now apply String.eqb_neq. }
  rewrite Ht. reflexivity.
Qed.

(** C8. When the presented credential matches a stored record whose
    [expiresAt] lies strictly before the time of the call, the resolver
    returns a context with the record's own id as [callerId] and an
    empty [authorizedServices], so no tenant is authorized, whatever the
    record grants; it writes one audit line, an [authentication_failure]
    on that id whose message names [expired_token]; the only statement
    sent to the store is the lookup: [lastUsedAt] is not updated and no
    success is logged. *)
Theorem resolveCallerContext_expired_token
    (rt : Runtime) (extra : Json) (w : World) (s : string)
    (tokenRecord : ApiToken) (others : list ApiToken) (expiresAt : Z) :
  js_or (get_field "authToken" (extractMetadata extra))
        (opt_str (PEI_AUTH_TOKEN w)) = JStr s ->
  s <> "" ->
  filter (fun t => tk_tokenHash t =? hashToken rt s) (api_tokens_table w)
  = tokenRecord :: others ->
  tk_expiresAt tokenRecord = Some expiresAt ->
  (expiresAt < now w)%Z ->
  exists w',
    resolveCallerContext rt extra w
    = (Returned {| callerId := tk_id tokenRecord;
                   authorizedServices := [];
                   callerName := None;
                   callerType := CallerToken |}, w')
    /\ stderr w'
       = (stderr w
          ++ [ {| al_timestamp := toISOString rt (now w);
                  al_level := WARNING;
                  al_action := "authentication_failure";
                  al_callerId := tk_id tokenRecord;
                  al_callerName := None;
                  al_success := false;
                  al_resourceType := None;
                  al_resourceId := None;
                  al_serviceId := None;
                  al_message :=
                    Some "Authentication failed: expired_token";
                  al_metadata :=
                    Some (JObj [ ("name", JStr (tk_name tokenRecord));
                                 ("expiresAt",
                                  JStr (toISOString rt expiresAt)) ]) |} ])%list
    /\ issued w' = (issued w ++ [SelectApiToken (sha256_hex rt s)])%list
    /\ api_tokens_table w' = api_tokens_table w
    /\ events_table w' = events_table w
    /\ forall t : string,
         isAuthorizedForService
           {| callerId := tk_id tokenRecord;
              authorizedServices := [];
              callerName := None;
              callerType := CallerToken |} t = false.
Proof.
  intros Hcred Hs Hfound Hexp Hpast.
  rewrite (resolve_with_credential rt extra w Hcred Hs).
  cbv zeta. unfold bind at 1. unfold select_api_token at 1.
  rewrite Hfound. cbn [firstn].
  unfold bind at 1. unfold read_clock at 1. cbn [now record_statement].
  rewrite Hexp. apply Z.ltb_lt in Hpast. rewrite Hpast.
  eexists. split; [reflexivity |]. repeat split.
Qed.

Lemma resolveCallerContext_expired_token_witness :
  js_or (get_field "authToken"
           (extractMetadata (Sample.call_with_token "old-secret")))
        (opt_str (PEI_AUTH_TOKEN Sample.world)) = JStr "old-secret"
  /\ filter (fun t => tk_tokenHash t =? hashToken Sample.rt "old-secret")
       (api_tokens_table Sample.world) = [Sample.expired_record]
  /\ tk_expiresAt Sample.expired_record = Some 4000%Z
  /\ (4000 < now Sample.world)%Z
  /\ fst (resolveCallerContext Sample.rt
            (Sample.call_with_token "old-secret") Sample.world)
     = Returned (zero_access "tok-old")
  /\ map (fun line => (al_action line, al_callerId line, al_success line,
                       al_message line))
       (stderr (snd (resolveCallerContext Sample.rt
                       (Sample.call_with_token "old-secret")
                       Sample.world)))
     = [ ("authentication_failure", "tok-old", false,
          Some "Authentication failed: expired_token") ]
  /\ issued (snd (resolveCallerContext Sample.rt
                    (Sample.call_with_token "old-secret") Sample.world))
     = [SelectApiToken "sha256:old-secret"].
Proof.
  do 4 (split; [reflexivity |]).
  destruct (@resolveCallerContext_expired_token Sample.rt
              (Sample.call_with_token "old-secret") Sample.world
              "old-secret" Sample.expired_record [] 4000%Z)
    as [w' [Hrun [Hlog [Hissued _]]]].
  - reflexivity.
  - discriminate.
  - reflexivity.
  - reflexivity.
  - reflexivity.
  - rewrite Hrun. cbn [fst snd]. rewrite Hlog, Hissued.
    repeat split.
Defined.

(** C10. When the presented credential matches no stored record, the
    audit line of the failure carries [callerId: 'unknown'] and, as its
    whole metadata, the SHA-256 digest of the credential under
    [tokenHash]; no field of the line holds the credential itself. The
    context handed back carries [callerId: 'invalid'] and no
    entitlement: the line and the context name the same event with two
    different identifiers. *)
Theorem resolveCallerContext_invalid_token
    (rt : Runtime) (extra : Json) (w : World) (s : string) :
  js_or (get_field "authToken" (extractMetadata extra))
        (opt_str (PEI_AUTH_TOKEN w)) = JStr s ->
  s <> "" ->
  filter (fun t => tk_tokenHash t =? hashToken rt s) (api_tokens_table w)
  = [] ->
  exists (context : McpCallerContext) (line : AuditLogEntry) (w' : World),
    resolveCallerContext rt extra w = (Returned context, w')
    /\ stderr w' = (stderr w ++ [line])%list
    /\ issued w' = (issued w ++ [SelectApiToken (sha256_hex rt s)])%list
    /\ api_tokens_table w' = api_tokens_table w
    /\ events_table w' = events_table w
    /\ context = {| callerId := "invalid";
                    authorizedServices := [];
                    callerName := None;
                    callerType := CallerToken |}
    /\ line = {| al_timestamp := toISOString rt (now w);
                 al_level := WARNING;
                 al_action := "authentication_failure";
                 al_callerId := "unknown";
                 al_callerName := None;
                 al_success := false;
                 al_resourceType := None;
                 al_resourceId := None;
                 al_serviceId := None;
                 al_message := Some "Authentication failed: invalid_token";
                 al_metadata :=
                   Some (JObj [ ("tokenHash", JStr (sha256_hex rt s)) ]) |}
    /\ al_callerId line <> callerId context.
Proof.
  intros Hcred Hs Hnone.
  rewrite (resolve_with_credential rt extra w Hcred Hs).
  cbv zeta. unfold bind at 1. unfold select_api_token at 1.
  rewrite Hnone. cbn [firstn].
  eexists. eexists. eexists. split; [reflexivity |].
  repeat split. discriminate.
Qed.

Lemma resolveCallerContext_invalid_token_witness :
  js_or (get_field "authToken"
           (extractMetadata (Sample.call_with_token "invalid_token_12345")))
        (opt_str (PEI_AUTH_TOKEN Sample.world))
  = JStr "invalid_token_12345"
  /\ filter
       (fun t => tk_tokenHash t
                 =? hashToken Sample.rt "invalid_token_12345")
       (api_tokens_table Sample.world) = []
  /\ fst (resolveCallerContext Sample.rt
            (Sample.call_with_token "invalid_token_12345") Sample.world)
     = Returned (zero_access "invalid")
  /\ map (fun line => (al_action line, al_callerId line, al_success line,
                       al_metadata line))
       (stderr (snd (resolveCallerContext Sample.rt
                       (Sample.call_with_token "invalid_token_12345")
                       Sample.world)))
     = [ ("authentication_failure", "unknown", false,
          Some (JObj [ ("tokenHash",
                        JStr "sha256:invalid_token_12345") ])) ].
Proof.
  split; [reflexivity | split; [reflexivity |]].
  destruct (@resolveCallerContext_invalid_token Sample.rt
              (Sample.call_with_token "invalid_token_12345") Sample.world
              "invalid_token_12345")
    as [context [line [w' [Hrun [Hlog [_ [_ [_ [Hc [Hl _]]]]]]]]]].
  - reflexivity.
  - discriminate.
  - reflexivity.
  - rewrite Hrun. cbn [fst snd]. rewrite Hlog, Hc, Hl.
    split; reflexivity.
Defined.

(** ** Running computations *)

Lemma bind_returned {A B} (m : M A) (k : A -> M B) (w w' : World) (b : B) :
  bind m k w = (Returned b, w') ->
  exists a w1, m w = (Returned a, w1) /\ k a w1 = (Returned b, w').
Proof.
  unfold bind. destruct (m w) as [[a | e] w1]; [| discriminate].
  intros H. now exists a, w1.
Qed.

Lemma select_events_returned (rt : Runtime) (cs : list Condition)
    (o : Order) (limit : nat) (w w' : World) (rows : list EventRow) :
  select_events rt cs o limit w = (Returned rows, w') ->
  rows = run_select rt cs o limit (events_table w)
  /\ w' = record_statement (SelectEvents cs o limit) w.
Proof.
  unfold select_events.
  destruct (forallb parameter_ok cs); cbn [negb]; [| discriminate].
  destruct (forallb condition_ok cs); [| discriminate].
  intros H. injection H as <- <-. now split.
Qed.

(** A query that returns had only valid dates among its parameters. *)
Lemma select_events_parameters (rt : Runtime) (cs : list Condition)
    (o : Order) (limit : nat) (w w' : World) (rows : list EventRow) :
  select_events rt cs o limit w = (Returned rows, w') ->
  forallb parameter_ok cs = true.
Proof.
  unfold select_events.
  destruct (forallb parameter_ok cs); cbn [negb]; [reflexivity |].
  discriminate.
Qed.

Lemma select_events_run (rt : Runtime) (cs : list Condition)
    (o : Order) (limit : nat) (w : World) :
  forallb parameter_ok cs = true ->
  forallb condition_ok cs = true ->
  select_events rt cs o limit w
  = (Returned (run_select rt cs o limit (events_table w)),
     record_statement (SelectEvents cs o limit) w).
Proof. unfold select_events. now intros -> ->. Qed.

(** With an Invalid Date among its parameters a query throws before
    anything is sent. *)
Lemma select_events_invalid (rt : Runtime) (cs : list Condition)
    (o : Order) (limit : nat) (w : World) :
  forallb parameter_ok cs = false ->
  select_events rt cs o limit w
  = (Thrown invalid_time_value, w).
Proof. unfold select_events. now intros ->. Qed.

(** ** The store *)

Lemma insert_by_In {A} (ahead : A -> A -> bool) (x y : A) (l : list A) :
  In y (insert_by ahead x l) <-> y = x \/ In y l.
Proof.
  induction l as [| z l IH]; simpl.
  - intuition congruence.
  - destruct (ahead z x); simpl; rewrite ?IH; intuition congruence.
Qed.

Lemma sort_by_In {A} (ahead : A -> A -> bool) (y : A) (l : list A) :
  In y (sort_by ahead l) <-> In y l.
Proof.
  induction l as [| x l IH]; simpl.
  - reflexivity.
  - rewrite insert_by_In, IH. intuition congruence.
Qed.

Lemma order_rows_In (rt : Runtime) (o : Order) (r : EventRow)
    (rows : list EventRow) :
  In r (order_rows rt o rows) <-> In r rows.
Proof.
  destruct o; simpl; [reflexivity | apply sort_by_In | apply sort_by_In].
Qed.

Lemma firstn_In {A} (n : nat) (l : list A) (x : A) :
  In x (firstn n l) -> In x l.
Proof.
  revert l. induction n as [| n IH]; intros [| y l]; simpl; try tauto.
  intros [-> | H]; [now left | right; now apply IH].
Qed.

(** Every row a query returns is a row of the table that passes every
    condition of its [where] clause. *)
Lemma run_select_sound (rt : Runtime) (cs : list Condition) (o : Order)
    (limit : nat) (rows : list EventRow) (r : EventRow) :
  In r (run_select rt cs o limit rows) ->
  In r rows /\ holds_all rt cs r = true.
Proof.
  unfold run_select. intros H.
  apply firstn_In in H. apply order_rows_In in H.
  now apply filter_In in H.
Qed.

Lemma holds_all_prefix (rt : Runtime) (cs extra : list Condition)
    (r : EventRow) :
  holds_all rt (cs ++ extra) r = true -> holds_all rt cs r = true.
Proof.
  unfold holds_all. rewrite forallb_app.
  intros H. now apply andb_true_iff in H.
Qed.

Lemma push_if_extends (o : option string) (c : string -> Condition)
    (cs : list Condition) :
  exists extra, push_if o c cs = (cs ++ extra)%list.
Proof.
  unfold push_if, push. destruct o as [s |].
  - destruct (negb (s =? "")); [now exists [c s] | exists []].
    now rewrite app_nil_r.
  - exists []. now rewrite app_nil_r.
Qed.

Lemma push_optional_filters_extends (rt : Runtime)
    (input : SearchEventsInput) (cs : list Condition) :
  exists extra, push_optional_filters rt input cs = (cs ++ extra)%list.
Proof.
  unfold push_optional_filters.
  destruct (push_if_extends (in_serviceId input) EqServiceId cs)
    as [e1 ->].
  destruct (push_if_extends (in_eventType input) EqEventType (cs ++ e1))
    as [e2 ->].
  destruct (push_if_extends (in_severity input) EqSeverity
              ((cs ++ e1) ++ e2)) as [e3 ->].
  destruct (push_if_extends (in_startDate input)
              (fun s => GteOccurredAt (parse_date rt s))
              (((cs ++ e1) ++ e2) ++ e3)) as [e4 ->].
  destruct (push_if_extends (in_endDate input)
              (fun s => LteOccurredAt (parse_date rt s))
              ((((cs ++ e1) ++ e2) ++ e3) ++ e4)) as [e5 ->].
  exists (e1 ++ e2 ++ e3 ++ e4 ++ e5)%list.
  now rewrite <- !app_assoc.
Qed.

(** The conditions of a search that starts with the authorization block
    let through only rows of tenants the caller is authorized for. *)
Lemma authorized_conditions_sound (rt : Runtime)
    (input : SearchEventsInput) (context : McpCallerContext)
    (last : Condition) (r : EventRow) :
  holds_all rt
    (push last
       (push_optional_filters rt input
          (push_authorization_filter context []))) r = true ->
  isAuthorizedForService context (ev_serviceId r) = true.
Proof.
  intros H. unfold push in H. apply holds_all_prefix in H.
  destruct (push_optional_filters_extends rt input
              (push_authorization_filter context [])) as [extra E].
  rewrite E in H. apply holds_all_prefix in H.
  rewrite holds_all_authorization in H. exact H.
Qed.

(** ** Text matching *)

Lemma append_assoc (a b c : string) : (a ++ b) ++ c = a ++ (b ++ c).
Proof. induction a as [| x a IH]; simpl; [reflexivity | now rewrite IH]. Qed.

(** The three replacements do not disturb one another: together they
    rewrite the query character by character. *)
Lemma escapeLikePattern_cons (c : ascii) (s : string) :
  escapeLikePattern (String c s) = escaped c ++ escapeLikePattern s.
Proof.
  unfold escapeLikePattern, escaped. simpl.
  destruct (Ascii.eqb c "\") eqn:E1.
  - apply Ascii.eqb_eq in E1. subst c. reflexivity.
  - simpl. destruct (Ascii.eqb c "%") eqn:E2.
    + apply Ascii.eqb_eq in E2. subst c. reflexivity.
    + simpl. destruct (Ascii.eqb c "_") eqn:E3; reflexivity.
Qed.

Lemma like_tokens_escaped (c : ascii) (p : string) :
  like_tokens (escaped c ++ p)
  = option_map (cons (Exactly c)) (like_tokens p).
Proof.
  unfold escaped.
  destruct (Ascii.eqb c "\") eqn:E1.
  - apply Ascii.eqb_eq in E1. subst c. reflexivity.
  - destruct (Ascii.eqb c "%") eqn:E2.
    + apply Ascii.eqb_eq in E2. subst c. reflexivity.
    + destruct (Ascii.eqb c "_") eqn:E3.
      * apply Ascii.eqb_eq in E3. subst c. reflexivity.
      * simpl. now rewrite E1, E2, E3.
Qed.

(** An escaped query is a well-formed pattern in which every character
    of the query stands for itself. *)
Lemma like_tokens_escapeLikePattern (q p : string) :
  like_tokens (escapeLikePattern q ++ p)
  = option_map (app (map Exactly (list_ascii_of_string q)))
      (like_tokens p).
Proof.
  induction q as [| c q IH].
  - simpl. now destruct (like_tokens p).
  - rewrite escapeLikePattern_cons, append_assoc, like_tokens_escaped, IH.
    simpl. now destruct (like_tokens p).
Qed.

Lemma like_tokens_keyword_pattern (q : string) :
  like_tokens ("%" ++ escapeLikePattern q ++ "%")
  = Some (AnyRun :: map Exactly (list_ascii_of_string q) ++ [AnyRun]).
Proof.
  change (like_tokens ("%" ++ escapeLikePattern q ++ "%"))
    with (option_map (cons AnyRun)
            (like_tokens (escapeLikePattern q ++ "%"))).
  now rewrite like_tokens_escapeLikePattern.
Qed.

Lemma like_match_any_run (fold : ascii -> ascii) (ts : list LikeToken)
    (s : string) :
  like_match fold (AnyRun :: ts) s = anywhere (like_match fold ts) s.
Proof.
  induction s as [| x s IH]; simpl; [reflexivity |].
  f_equal. exact IH.
Qed.

Lemma anywhere_ext (p p' : string -> bool) (s : string) :
  (forall t, p t = p' t) -> anywhere p s = anywhere p' s.
Proof.
  intros H. induction s as [| x s IH]; simpl; now rewrite H, ?IH.
Qed.

Lemma like_match_trailing_run (fold : ascii -> ascii) (s : string) :
  like_match fold [AnyRun] s = true.
Proof.
  rewrite like_match_any_run.
  induction s as [| x s IH]; simpl; [reflexivity |]. exact IH.
Qed.

Lemma like_match_exact_prefix (fold : ascii -> ascii) (q : string)
    (s : string) :
  like_match fold (map Exactly (list_ascii_of_string q) ++ [AnyRun]) s
  = prefix_by fold q s.
Proof.
  revert s. induction q as [| c q IH]; intros s.
  - apply like_match_trailing_run.
  - cbn [list_ascii_of_string map app].
    destruct s as [| x s]; simpl; [reflexivity |].
    now rewrite IH.
Qed.

(** The pattern built from an escaped query matches exactly the texts
    that hold the query, characters compared after the case folding of
    the store. *)
Lemma ilike_keyword_pattern (fold : ascii -> ascii) (q text : string) :
  ilike fold text ("%" ++ escapeLikePattern q ++ "%")
  = Some (contains_ci fold q text).
Proof.
  unfold ilike. rewrite like_tokens_keyword_pattern. cbn [option_map].
  f_equal. rewrite like_match_any_run. unfold contains_ci.
  apply anywhere_ext. intros t. apply like_match_exact_prefix.
Qed.

Lemma prefix_by_spec (f : ascii -> ascii) (q s : string) :
  prefix_by f q s = true <->
  exists post, map_string f s = map_string f q ++ post.
Proof.
  revert s. induction q as [| c q IH]; intros s; simpl.
  - split; [intros _; now exists (map_string f s) | reflexivity].
  - destruct s as [| x s]; simpl.
    + split; [discriminate | intros [post H]; discriminate].
    + rewrite andb_true_iff, Ascii.eqb_eq, IH. split.
      * intros [-> [post ->]]. now exists post.
      * intros [post H]. injection H as -> H. split; [reflexivity |].
        now exists post.
Qed.

(** [anywhere (prefix_by f q)] is the substring relation on the texts
    mapped through [f]. *)
Lemma contains_by_spec (f : ascii -> ascii) (q s : string) :
  anywhere (prefix_by f q) s = true <->
  exists pre post, map_string f s = pre ++ map_string f q ++ post.
Proof.
  induction s as [| x s IH]; simpl.
  - rewrite orb_false_r, prefix_by_spec. split.
    + intros [post H]. now exists "", post.
    + intros [pre [post H]]. destruct pre; [| discriminate].
      now exists post.
  - rewrite orb_true_iff, IH, prefix_by_spec. split.
    + intros [[post H] | [pre [post H]]].
      * now exists "", post.
      * exists (String (f x) pre), post. simpl. now rewrite H.
    + intros [pre [post H]]. destruct pre as [| a pre].
      * left. now exists post.
      * right. injection H as _ H. now exists pre, post.
Qed.

Lemma map_string_id (s : string) : map_string (fun c => c) s = s.
Proof. induction s as [| x s IH]; simpl; [reflexivity | now rewrite IH]. Qed.

Lemma contains_ci_spec (fold : ascii -> ascii) (q s : string) :
  contains_ci fold q s = true <->
  exists pre post, map_string fold s = pre ++ map_string fold q ++ post.
Proof. apply contains_by_spec. Qed.

Lemma contains_spec (q s : string) :
  contains q s = true <-> exists pre post, s = pre ++ q ++ post.
Proof.
  unfold contains. rewrite contains_by_spec.
  now rewrite !map_string_id.
Qed.

(** ** Sorting keeps the rows *)

Lemma insert_by_Permutation {A} (ahead : A -> A -> bool) (x : A)
    (l : list A) :
  Permutation (x :: l) (insert_by ahead x l).
Proof.
  induction l as [| y l IH]; simpl; [apply Permutation_refl |].
  destruct (ahead y x); [| apply Permutation_refl].
  apply perm_trans with (y :: x :: l); [apply perm_swap |].
  now apply perm_skip.
Qed.

Lemma sort_by_Permutation {A} (ahead : A -> A -> bool) (l : list A) :
  Permutation l (sort_by ahead l).
Proof.
  induction l as [| x l IH]; simpl; [constructor |].
  apply perm_trans with (x :: sort_by ahead l);
    [now apply perm_skip | apply insert_by_Permutation].
Qed.

Lemma order_rows_Permutation (rt : Runtime) (o : Order)
    (rows : list EventRow) :
  Permutation rows (order_rows rt o rows).
Proof.
  destruct o; simpl;
    [apply Permutation_refl | apply sort_by_Permutation
     | apply sort_by_Permutation].
Qed.

(** A query returns as many rows as pass its conditions, up to the
    limit; when the limit does not cut, it returns those rows, each
    once. *)
Lemma run_select_count (rt : Runtime) (cs : list Condition) (o : Order)
    (limit : nat) (rows : list EventRow) :
  length (run_select rt cs o limit rows)
  = Nat.min limit (length (filter (holds_all rt cs) rows)).
Proof.
  unfold run_select. rewrite length_firstn. f_equal.
  symmetry. apply Permutation_length, order_rows_Permutation.
Qed.

Lemma run_select_complete (rt : Runtime) (cs : list Condition) (o : Order)
    (limit : nat) (rows : list EventRow) :
  length (filter (holds_all rt cs) rows) <= limit ->
  Permutation (run_select rt cs o limit rows)
    (filter (holds_all rt cs) rows).
Proof.
  intros Hfits. unfold run_select. rewrite firstn_all2.
  - apply Permutation_sym, order_rows_Permutation.
  - now rewrite <- (Permutation_length (order_rows_Permutation rt o _)).
Qed.

(** ** Keyword search *)

Lemma condition_ok_push_if (o : option string) (c : string -> Condition)
    (cs : list Condition) :
  (forall s, condition_ok (c s) = true) ->
  forallb condition_ok (push_if o c cs) = forallb condition_ok cs.
Proof.
  intros Hc. unfold push_if, push. destruct o as [s |]; [| reflexivity].
  destruct (negb (s =? "")); [| reflexivity].
  rewrite forallb_app. simpl. rewrite Hc. now rewrite !andb_true_r.
Qed.

Lemma condition_ok_optional_filters (rt : Runtime)
    (input : SearchEventsInput) (cs : list Condition) :
  forallb condition_ok (push_optional_filters rt input cs)
  = forallb condition_ok cs.
Proof.
  unfold push_optional_filters.
  now rewrite !condition_ok_push_if by reflexivity.
Qed.

Lemma condition_ok_authorization (context : McpCallerContext)
    (cs : list Condition) :
  forallb condition_ok (push_authorization_filter context cs)
  = forallb condition_ok cs.
Proof.
  unfold push_authorization_filter, push.
  destruct (getAuthorizedServiceFilter context); [reflexivity |].
  rewrite forallb_app. simpl. now rewrite andb_true_r.
Qed.

Lemma condition_ok_other_conditions (rt : Runtime)
    (input : SearchEventsInput) (context : McpCallerContext) :
  forallb condition_ok (other_conditions rt input context) = true.
Proof.
  unfold other_conditions.
  now rewrite condition_ok_optional_filters, condition_ok_authorization.
Qed.

(** The parameters of the optional filters: the two dates are the only
    ones the driver can fail to write. *)
Lemma parameter_ok_push_if (o : option string) (c : string -> Condition)
    (cs : list Condition) :
  (forall s, parameter_ok (c s) = true) ->
  forallb parameter_ok (push_if o c cs) = forallb parameter_ok cs.
Proof.
  intros Hc. unfold push_if, push. destruct o as [s |]; [| reflexivity].
  destruct (negb (s =? "")); [| reflexivity].
  rewrite forallb_app. simpl. rewrite Hc. now rewrite !andb_true_r.
Qed.

Lemma parameter_ok_push_if_date (rt : Runtime) (o : option string)
    (c : Date -> Condition) (cs : list Condition) :
  (forall t, parameter_ok (c (ValidDate t)) = true) ->
  parameter_ok (c InvalidDate) = false ->
  forallb parameter_ok (push_if o (fun s => c (parse_date rt s)) cs)
  = forallb parameter_ok cs && readable_date rt o.
Proof.
  intros Hvalid Hinvalid. unfold push_if, push, readable_date.
  destruct o as [s |]; [| now rewrite andb_true_r].
  destruct (negb (s =? "")); [| now rewrite andb_true_r].
  rewrite forallb_app. simpl.
  destruct (parse_date rt s); now rewrite ?Hvalid, ?Hinvalid.
Qed.

Lemma parameter_ok_optional_filters (rt : Runtime)
    (input : SearchEventsInput) (cs : list Condition) :
  forallb parameter_ok (push_optional_filters rt input cs)
  = forallb parameter_ok cs && readable_dates rt input.
Proof.
  unfold push_optional_filters, readable_dates.
  rewrite (parameter_ok_push_if_date rt (in_endDate input) LteOccurredAt)
    by reflexivity.
  rewrite (parameter_ok_push_if_date rt (in_startDate input) GteOccurredAt)
    by reflexivity.
  rewrite !parameter_ok_push_if by reflexivity.
  now rewrite andb_assoc.
Qed.

Lemma parameter_ok_authorization (context : McpCallerContext)
    (cs : list Condition) :
  forallb parameter_ok (push_authorization_filter context cs)
  = forallb parameter_ok cs.
Proof.
  unfold push_authorization_filter, push.
  destruct (getAuthorizedServiceFilter context); [reflexivity |].
  rewrite forallb_app. simpl. now rewrite andb_true_r.
Qed.

Lemma parameter_ok_other_conditions (rt : Runtime)
    (input : SearchEventsInput) (context : McpCallerContext) :
  forallb parameter_ok (other_conditions rt input context)
  = readable_dates rt input.
Proof.
  unfold other_conditions.
  now rewrite parameter_ok_optional_filters, parameter_ok_authorization.
Qed.

Lemma parameter_ok_push (c : Condition) (cs : list Condition) :
  parameter_ok c = true ->
  forallb parameter_ok (push c cs) = forallb parameter_ok cs.
Proof.
  intros Hc. unfold push. rewrite forallb_app. simpl.
  now rewrite Hc, !andb_true_r.
Qed.

Lemma holds_keyword_pattern (rt : Runtime) (q : string) (r : EventRow) :
  holds rt (IlikeTitleOrDescription ("%" ++ escapeLikePattern q ++ "%")) r
  = keyword_hit (fold_case rt) q (ev_title r) (ev_description r).
Proof.
  unfold holds, keyword_hit. rewrite ilike_keyword_pattern.
  destruct (ev_description r) as [d |].
  - rewrite ilike_keyword_pattern. simpl.
    now destruct (contains_ci (fold_case rt) q (ev_title r)),
                 (contains_ci (fold_case rt) q d).
  - simpl. now destruct (contains_ci (fold_case rt) q (ev_title r)).
Qed.

(** The [where] clause of the revised keyword search. *)
Lemma keyword_conditions_hold (rt : Runtime) (input : SearchEventsInput)
    (context : McpCallerContext) (r : EventRow) :
  holds_all rt
    (push (IlikeTitleOrDescription
             ("%" ++ escapeLikePattern (in_query input) ++ "%"))
       (other_conditions rt input context)) r
  = holds_all rt (other_conditions rt input context) r
    && keyword_hit (fold_case rt) (in_query input) (ev_title r)
         (ev_description r).
Proof. now rewrite holds_all_push, holds_keyword_pattern. Qed.

(** The revised keyword search, run: it throws on a date filter that
    [new Date] cannot read, and on nothing else. *)
Lemma keywordSearch_run
    (rt : Runtime) (input : SearchEventsInput) (context : McpCallerContext)
    (w : World) :
  let conditions :=
    push (IlikeTitleOrDescription
            ("%" ++ escapeLikePattern (in_query input) ++ "%"))
      (other_conditions rt input context) in
  Events.keywordSearch rt input context w
  = if readable_dates rt input
    then (Returned
            (map to_result
               (run_select rt conditions ByOccurredAtDesc (in_limit input)
                  (events_table w))),
          record_statement
            (SelectEvents conditions ByOccurredAtDesc (in_limit input)) w)
    else (Thrown invalid_time_value, w).
Proof.
  cbv zeta. unfold Events.keywordSearch. cbv zeta.
  fold (other_conditions rt input context).
  unfold bind.
  destruct (readable_dates rt input) eqn:Hdates.
  - rewrite select_events_run; [reflexivity | |].
    + rewrite parameter_ok_push by reflexivity.
      now rewrite parameter_ok_other_conditions.
    + unfold push. rewrite forallb_app, condition_ok_other_conditions.
      cbn [forallb condition_ok parameter_ok andb negb].
      now rewrite like_tokens_keyword_pattern.
  - rewrite select_events_invalid; [reflexivity |].
    rewrite parameter_ok_push by reflexivity.
    now rewrite parameter_ok_other_conditions.
Qed.

(** C3, as amended. Keyword search of the revised copy makes of every
    query a pattern in which each character of the query, a percent
    sign, an underscore, a backslash or a quote included, stands for
    itself between two [%], so that the store never rejects the pattern:
    the search returns whenever its date filters can be read. The rows
    it returns are rows that pass the other filters and whose title or
    description holds the query as a run of consecutive characters,
    compared without regard to case as [ILIKE] does; they are as many
    as there are such rows, up to the limit, and when the limit does
    not cut they are exactly those rows. *)
Theorem keywordSearch_matches_literally
    (rt : Runtime) (input : SearchEventsInput) (context : McpCallerContext)
    (w : World) :
  let matched r :=
    holds_all rt (other_conditions rt input context) r
    && keyword_hit (fold_case rt) (in_query input) (ev_title r)
         (ev_description r) in
  like_tokens ("%" ++ escapeLikePattern (in_query input) ++ "%")
  = Some (AnyRun
          :: map Exactly (list_ascii_of_string (in_query input))
             ++ [AnyRun])
  /\ (readable_dates rt input = true ->
      exists results w',
        Events.keywordSearch rt input context w = (Returned results, w'))
  /\ (forall results w',
         Events.keywordSearch rt input context w = (Returned results, w') ->
         exists rows,
           results = map to_result rows
           /\ (forall r, In r rows ->
                 In r (events_table w) /\ matched r = true)
           /\ length rows
              = Nat.min (in_limit input)
                  (length (filter matched (events_table w)))
           /\ (length (filter matched (events_table w)) <= in_limit input ->
               Permutation rows (filter matched (events_table w))))
  /\ (forall text,
         contains_ci (fold_case rt) (in_query input) text = true <->
         exists pre post,
           map_string (fold_case rt) text
           = pre ++ map_string (fold_case rt) (in_query input) ++ post).
Proof.
  cbv zeta. split; [apply like_tokens_keyword_pattern |].
  split; [| split].
  - intros Hdates. rewrite keywordSearch_run. cbv zeta. rewrite Hdates.
    eexists. eexists. reflexivity.
  - intros results w' Hrun. rewrite keywordSearch_run in Hrun.
    cbv zeta in Hrun.
    destruct (readable_dates rt input); [| discriminate Hrun].
    injection Hrun as <- _.
    rewrite <- (filter_ext _ _ (keyword_conditions_hold rt input context)).
    eexists. split; [reflexivity |]. split; [| split].
    + intros r Hr. apply run_select_sound in Hr.
      destruct Hr as [Hin Hall]. split; [exact Hin |].
      now rewrite <- keyword_conditions_hold.
    + apply run_select_count.
    + apply run_select_complete.
  - intros text. apply contains_ci_spec.
Qed.

Lemma keywordSearch_matches_literally_witness :
  exists rows,
    fst (Events.keywordSearch Sample.rt (Sample.search_for "DB O" false)
           Sample.context_admin Sample.world)
    = Returned (map to_result rows)
    /\ Permutation rows [Sample.event_a].
Proof.
  destruct (@keywordSearch_matches_literally Sample.rt
              (Sample.search_for "DB O" false) Sample.context_admin
              Sample.world) as [_ [_ [Hrows _]]].
  destruct (Hrows [to_result Sample.event_a]
              (snd (Events.keywordSearch Sample.rt
                      (Sample.search_for "DB O" false)
                      Sample.context_admin Sample.world))
              eq_refl) as [rows [Hmap [_ [_ Hall]]]].
  exists rows. split; [now rewrite <- Hmap |].
  apply Hall. vm_compute. lia.
Defined.

(** C3, as stated, fails: a search for [db] returns the events titled
    [DB outage] and [DB failover], while neither title and no
    description holds [db] character for character, so that matching on
    literal substrings would return nothing. *)
Lemma keywordSearch_ignores_case :
  fst (Events.keywordSearch Sample.rt (Sample.search_for "db" false)
         Sample.context_admin Sample.world)
  = Returned [to_result Sample.event_a; to_result Sample.event_b]
  /\ ~ (exists pre post, ev_title Sample.event_a = pre ++ "db" ++ post)
  /\ ~ (exists pre post,
          ev_description Sample.event_a = Some (pre ++ "db" ++ post))
  /\ ~ (exists pre post, ev_title Sample.event_b = pre ++ "db" ++ post)
  /\ ev_description Sample.event_b = None.
Proof.
  split; [reflexivity |]. split; [| split; [| split; [| reflexivity]]].
  - intros H. apply contains_spec in H. discriminate H.
  - intros [pre [post H]].
    assert (Hc : contains "db" "Primary database unavailable" = true).
    { apply contains_spec. exists pre, post.
      simpl in H. now injection H as H. }
    discriminate Hc.
  - intros H. apply contains_spec in H. discriminate H.
Qed.

(** The earlier copy embeds the query as it is: there a [%] in the
    query is a wildcard. *)
Lemma keywordSearch_v1_wildcard :
  fst (EventsV1.keywordSearch Sample.rt (Sample.search_for "%" false)
         Sample.context_admin Sample.world)
  = Returned [to_result Sample.event_a; to_result Sample.event_b]
  /\ fst (Events.keywordSearch Sample.rt (Sample.search_for "%" false)
            Sample.context_admin Sample.world)
     = Returned [].
Proof. split; reflexivity. Qed.


(** ** Search and the entitlement filter *)

Lemma no_member_nil {A} (l : list A) : (forall x, ~ In x l) -> l = [].
Proof.
  destruct l as [| x l]; [reflexivity |].
  intros H. exfalso. apply (H x). now left.
Qed.

(** Keyword search of either copy returns rows of authorized tenants
    only. *)
Lemma keywordSearch_authorized (rt : Runtime) (input : SearchEventsInput)
    (context : McpCallerContext) (w w' : World)
    (results : list SearchResult) :
  Events.keywordSearch rt input context w = (Returned results, w') \/
  EventsV1.keywordSearch rt input context w = (Returned results, w') ->
  forall r, In r results ->
            isAuthorizedForService context (sr_serviceId r) = true.
Proof.
  unfold Events.keywordSearch, EventsV1.keywordSearch. cbv zeta.
  intros [H | H] r Hr;
    apply bind_returned in H; destruct H as [rows [w1 [Hsel Hret]]];
    apply select_events_returned in Hsel; destruct Hsel as [-> _];
    unfold ret in Hret; injection Hret as <- _;
    apply in_map_iff in Hr; destruct Hr as [row [<- Hrow]];
    apply run_select_sound in Hrow; destruct Hrow as [_ Hall];
    now apply authorized_conditions_sound in Hall.
Qed.

(** Semantic search of the revised copy does the same. *)
Lemma semanticSearch_authorized (rt : Runtime) (input : SearchEventsInput)
    (context : McpCallerContext) (w w' : World)
    (results : list SearchResult) :
  Events.semanticSearch rt input context w = (Returned results, w') ->
  forall r, In r results ->
            isAuthorizedForService context (sr_serviceId r) = true.
Proof.
  unfold Events.semanticSearch. cbv zeta. intros H r Hr.
  apply bind_returned in H. destruct H as [v [w0 [_ H]]].
  apply bind_returned in H. destruct H as [rows [w1 [Hsel Hret]]].
  apply select_events_returned in Hsel. destruct Hsel as [-> _].
  unfold ret in Hret. injection Hret as <- _.
  apply in_map_iff in Hr. destruct Hr as [row [<- Hrow]].
  apply run_select_sound in Hrow. destruct Hrow as [_ Hall].
  now apply authorized_conditions_sound in Hall.
Qed.

(** Through the revised [searchEvents], in either mode, a caller whose
    entitlement set does not hold ['*'] receives only records of tenants
    in that set. *)
Lemma searchEvents_authorized (rt : Runtime) (input : SearchEventsInput)
    (context : McpCallerContext) (w w' : World)
    (results : list SearchResult) :
  Events.searchEvents rt input context w = (Returned results, w') ->
  includes (authorizedServices context) "*" = false ->
  forall r, In r results -> In (sr_serviceId r) (authorizedServices context).
Proof.
  intros H Hstar r Hr. unfold Events.searchEvents in H.
  apply bind_returned in H. destruct H as [rs [w1 [Hsearch Haudit]]].
  apply bind_returned in Haudit. destruct Haudit as [u [w2 [_ Hret]]].
  unfold ret in Hret. injection Hret as -> _.
  assert (Hauth : isAuthorizedForService context (sr_serviceId r) = true).
  { destruct (in_useSemanticSearch input).
    - exact (semanticSearch_authorized rt input context w Hsearch r Hr).
    - exact (keywordSearch_authorized rt input context w
               (or_introl Hsearch) r Hr). }
  unfold isAuthorizedForService in Hauth. rewrite Hstar in Hauth.
  now apply includes_In.
Qed.

(** C1. Similarity search is to return only records whose tenant is in
    the caller's entitlement set, as keyword search does. The revised
    copy of the events service does ([searchEvents_authorized] above).
    The earlier copy does not: its [semanticSearch] never reads its
    context, so its outcome is the same for every caller, and a caller
    entitled to [svc-a] alone receives the event of [svc-b]. *)
Theorem semanticSearch_v1_skips_entitlement :
  (forall (rt : Runtime) (input : SearchEventsInput)
          (c1 c2 : McpCallerContext) (w : World),
      EventsV1.semanticSearch rt input c1 w
      = EventsV1.semanticSearch rt input c2 w)
  /\ includes (authorizedServices Sample.context_a) "*" = false
  /\ exists results r,
       fst (EventsV1.searchEvents Sample.rt
              (Sample.search_for "incident" true)
              Sample.context_a Sample.world) = Returned results
       /\ In r results
       /\ sr_serviceId r = "svc-b"
       /\ ~ In (sr_serviceId r) (authorizedServices Sample.context_a).
Proof.
  split; [reflexivity | split; [reflexivity |]].
  eexists. exists (to_scored_result Sample.rt [1%Q; 0%Q] Sample.event_b).
  split; [reflexivity |].
  split; [right; left; reflexivity |].
  split; [reflexivity |].
  simpl. intros [H | []]. discriminate H.
Qed.

(** ** Callers without entitlement *)

(** The revised semantic search, run, once the embedding of the query
    is there: it throws on a date filter that [new Date] cannot read,
    and on nothing else. *)
Lemma semanticSearch_run
    (rt : Runtime) (input : SearchEventsInput) (context : McpCallerContext)
    (w : World) (v : Vector) :
  generateEmbedding rt (in_query input) = Some v ->
  let conditions :=
    push EmbeddingIsNotNull
      (push_optional_filters rt input
         (push_authorization_filter context [])) in
  Events.semanticSearch rt input context w
  = if readable_dates rt input
    then (Returned
            (map (to_scored_result rt v)
               (run_select rt conditions (ByDistanceTo v) (in_limit input)
                  (events_table w))),
          record_statement
            (SelectEvents conditions (ByDistanceTo v) (in_limit input)) w)
    else (Thrown invalid_time_value, w).
Proof.
  intros Hv. cbv zeta. unfold Events.semanticSearch. cbv zeta.
  unfold bind at 1. unfold embed. rewrite Hv. unfold ret at 1.
  unfold bind.
  assert (Hparams : forallb parameter_ok
                      (push EmbeddingIsNotNull
                         (push_optional_filters rt input
                            (push_authorization_filter context [])))
                    = readable_dates rt input).
  { rewrite parameter_ok_push by reflexivity.
    now rewrite parameter_ok_optional_filters, parameter_ok_authorization. }
  destruct (readable_dates rt input).
  - rewrite select_events_run; [reflexivity | exact Hparams |].
    unfold push. rewrite forallb_app.
    now rewrite condition_ok_optional_filters, condition_ok_authorization.
  - now rewrite select_events_invalid.
Qed.

(** The revised [searchEvents] gives a caller with an empty entitlement
    set no record; it throws only when the embedding service does or
    when a date filter cannot be read. *)
Lemma searchEvents_empty_context (rt : Runtime) (input : SearchEventsInput)
    (context : McpCallerContext) (w : World) :
  authorizedServices context = [] ->
  fst (Events.searchEvents rt input context w) = Returned []
  \/ (in_useSemanticSearch input = true
      /\ generateEmbedding rt (in_query input) = None)
  \/ readable_dates rt input = false.
Proof.
  intros Hempty.
  destruct (Events.searchEvents rt input context w) as [[results | e] w']
    eqn:Hrun.
  - left. simpl. f_equal. apply no_member_nil. intros r Hr.
    assert (Hstar : includes (authorizedServices context) "*" = false)
      by now rewrite Hempty.
    pose proof (searchEvents_authorized rt input context w Hrun Hstar r Hr)
      as Hin.
    now rewrite Hempty in Hin.
  - right. unfold Events.searchEvents, bind in Hrun.
    destruct (readable_dates rt input) eqn:Hdates; [left | now right].
    destruct (in_useSemanticSearch input).
    + split; [reflexivity |].
      destruct (generateEmbedding rt (in_query input)) as [v |] eqn:Hv;
        [| reflexivity].
      exfalso. rewrite (semanticSearch_run rt input context w Hv) in Hrun.
      cbv zeta in Hrun. rewrite Hdates in Hrun. discriminate Hrun.
    + exfalso. rewrite keywordSearch_run in Hrun. cbv zeta in Hrun.
      rewrite Hdates in Hrun. discriminate Hrun.
Qed.

(** C2. A caller with an empty entitlement set is authorized for no
    tenant and is to receive no record from any read operation. The
    revised copy serves none ([searchEvents_empty_context] above, and
    the lemmas on [getEventById] and [getServiceTimeline] below). In
    the earlier copy the semantic search hands both stored events to a
    caller entitled to nothing. *)
Theorem searchEvents_v1_serves_empty_context :
  authorizedServices Sample.context_none = []
  /\ (forall t, isAuthorizedForService Sample.context_none t = false)
  /\ exists results,
       fst (EventsV1.searchEvents Sample.rt
              (Sample.search_for "incident" true)
              Sample.context_none Sample.world) = Returned results
       /\ map sr_id results = ["e-a"; "e-b"].
Proof.
  split; [reflexivity | split; [reflexivity |]].
  eexists. split; reflexivity.
Qed.

(** ** Single-record lookup *)

Lemma select_by_id (rt : Runtime) (eventId : string) (w : World) :
  run_select rt [EqId eventId] Unordered 1 (events_table w)
  = match stored_event w eventId with
    | Some event => [event]
    | None => []
    end.
Proof.
  unfold run_select, stored_event, order_rows.
  rewrite (filter_ext (holds_all rt [EqId eventId])
             (fun r => ev_id r =? eventId)).
  - now destruct (filter (fun r => ev_id r =? eventId) (events_table w)).
  - intros r. unfold holds_all. simpl. apply andb_true_r.
Qed.

(** What [getEventById] returns, in either copy: the stored event when
    the caller is authorized for its tenant, and [null] otherwise. *)
Lemma getEventById_result (rt : Runtime) (eventId : string)
    (context : McpCallerContext) (w : World) :
  let visible :=
    match stored_event w eventId with
    | Some event =>
        if isAuthorizedForService context (ev_serviceId event)
        then Some (to_result event) else None
    | None => None
    end in
  fst (Events.getEventById rt eventId context w) = Returned visible
  /\ fst (EventsV1.getEventById rt eventId context w) = Returned visible.
Proof.
  unfold Events.getEventById, EventsV1.getEventById, bind, select_events.
  cbn [forallb condition_ok parameter_ok andb negb]. rewrite select_by_id.
  destruct (stored_event w eventId) as [event |]; cbv zeta.
  - rewrite denies_spec.
    destruct (isAuthorizedForService context (ev_serviceId event));
      split; reflexivity.
  - split; reflexivity.
Qed.

(** C4. [getEventById] answers [null] both for an identifier no event
    carries and for the identifier of an event whose tenant the caller
    is not authorized for: the two outcomes are the same value, in both
    copies of the service, and there is no third outcome that would
    signal a refusal. *)
Theorem getEventById_unauthorized_as_absent
    (rt : Runtime) (context : McpCallerContext)
    (absentId presentId : string) (w1 w2 : World) (event : EventRow) :
  stored_event w1 absentId = None ->
  stored_event w2 presentId = Some event ->
  isAuthorizedForService context (ev_serviceId event) = false ->
  fst (Events.getEventById rt absentId context w1) = Returned None
  /\ fst (Events.getEventById rt presentId context w2) = Returned None
  /\ fst (EventsV1.getEventById rt absentId context w1) = Returned None
  /\ fst (EventsV1.getEventById rt presentId context w2) = Returned None.
Proof.
  intros Habsent Hpresent Hdenied.
  destruct (getEventById_result rt absentId context w1) as [H1 H1'].
  destruct (getEventById_result rt presentId context w2) as [H2 H2'].
  rewrite Habsent in H1, H1'. rewrite Hpresent, Hdenied in H2, H2'.
  now repeat split.
Qed.

Lemma getEventById_unauthorized_as_absent_witness :
  stored_event Sample.world "missing" = None
  /\ stored_event Sample.world "e-b" = Some Sample.event_b
  /\ isAuthorizedForService Sample.context_a
       (ev_serviceId Sample.event_b) = false
  /\ fst (Events.getEventById Sample.rt "missing" Sample.context_a
            Sample.world)
     = fst (Events.getEventById Sample.rt "e-b" Sample.context_a
              Sample.world).
Proof.
  split; [reflexivity | split; [reflexivity | split; [reflexivity |]]].
  destruct (@getEventById_unauthorized_as_absent Sample.rt Sample.context_a
              "missing" "e-b" Sample.world Sample.world Sample.event_b
              eq_refl eq_refl eq_refl) as [H1 [H2 _]].
  now rewrite H1, H2.
Defined.

Lemma getEventById_empty_context (rt : Runtime) (eventId : string)
    (context : McpCallerContext) (w : World) :
  authorizedServices context = [] ->
  fst (Events.getEventById rt eventId context w) = Returned None
  /\ fst (EventsV1.getEventById rt eventId context w) = Returned None.
Proof.
  intros Hempty.
  destruct (getEventById_result rt eventId context w) as [H H'].
  rewrite H, H'.
  destruct (stored_event w eventId) as [event |]; [| now split].
  now rewrite (empty_context_unauthorized context _ Hempty).
Qed.

(** ** Timeline *)

Lemma valid_argument_date_argument (rt : Runtime) (o : option string) :
  valid_argument (date_argument rt o) = readable_date rt o.
Proof.
  unfold valid_argument, date_argument, readable_date.
  destruct o as [s |]; [| reflexivity].
  destruct (negb (s =? "")); [| reflexivity].
  now destruct (parse_date rt s).
Qed.

Lemma timeline_parameters (serviceId : string)
    (startDate endDate : option Date) :
  forallb parameter_ok
    (push_date endDate LteOccurredAt
       (push_date startDate GteOccurredAt [EqServiceId serviceId]))
  = valid_argument startDate && valid_argument endDate.
Proof.
  unfold push_date, push, valid_argument.
  destruct startDate as [[t1 |] |], endDate as [[t2 |] |]; reflexivity.
Qed.

Lemma timeline_conditions_ok (serviceId : string)
    (startDate endDate : option Date) :
  forallb condition_ok
    (push_date endDate LteOccurredAt
       (push_date startDate GteOccurredAt [EqServiceId serviceId]))
  = true.
Proof.
  unfold push_date, push. now destruct startDate, endDate.
Qed.

Lemma timeline_conditions_head (serviceId : string)
    (startDate endDate : option Date) :
  exists conditions,
    push_date endDate LteOccurredAt
      (push_date startDate GteOccurredAt [EqServiceId serviceId])
    = EqServiceId serviceId :: conditions.
Proof.
  unfold push_date, push. destruct startDate, endDate; simpl; eauto.
Qed.

Lemma optional_toISOString_run (rt : Runtime) (d : option Date)
    (w : World) :
  valid_argument d = true ->
  optional_toISOString rt d w = (Returned (argument_iso rt d), w).
Proof.
  unfold valid_argument, optional_toISOString, argument_iso.
  destruct d as [[t |] |]; [reflexivity | discriminate | reflexivity].
Qed.

(** The earlier copy, run: it writes no audit line in any case. *)
Lemma getServiceTimeline_v1_run (rt : Runtime) (serviceId : string)
    (startDate endDate : option Date) (limit : nat)
    (context : McpCallerContext) (w : World) :
  let conditions :=
    push_date endDate LteOccurredAt
      (push_date startDate GteOccurredAt [EqServiceId serviceId]) in
  EventsV1.getServiceTimeline rt serviceId startDate endDate limit
    context w
  = if isAuthorizedForService context serviceId
    then if valid_argument startDate && valid_argument endDate
         then (Returned
                 (map to_result
                    (run_select rt conditions ByOccurredAtDesc limit
                       (events_table w))),
               record_statement
                 (SelectEvents conditions ByOccurredAtDesc limit) w)
         else (Thrown invalid_time_value, w)
    else (Returned [], w).
Proof.
  cbv zeta. unfold EventsV1.getServiceTimeline. cbv zeta.
  rewrite denies_spec.
  destruct (isAuthorizedForService context serviceId); cbn [negb];
    [| reflexivity].
  unfold bind.
  destruct (valid_argument startDate && valid_argument endDate) eqn:Hdates.
  - rewrite select_events_run; [reflexivity | |].
    + now rewrite timeline_parameters.
    + apply timeline_conditions_ok.
  - rewrite select_events_invalid; [reflexivity |].
    now rewrite timeline_parameters.
Qed.

Lemma getServiceTimeline_v1_denied (rt : Runtime) (serviceId : string)
    (startDate endDate : option Date) (limit : nat)
    (context : McpCallerContext) (w : World) :
  isAuthorizedForService context serviceId = false ->
  EventsV1.getServiceTimeline rt serviceId startDate endDate limit
    context w = (Returned [], w).
Proof.
  intros Hdenied. rewrite getServiceTimeline_v1_run. cbv zeta.
  now rewrite Hdenied.
Qed.

(** The revised copy, run. On denial it writes its line and returns at
    once; otherwise it sends one statement and then writes its line,
    unless a date is an Invalid Date: then the driver throws before
    anything is sent or written. *)
Lemma getServiceTimeline_run (rt : Runtime) (serviceId : string)
    (startDate endDate : option Date) (limit : nat)
    (context : McpCallerContext) (w : World) :
  let conditions :=
    push_date endDate LteOccurredAt
      (push_date startDate GteOccurredAt [EqServiceId serviceId]) in
  let rows := run_select rt conditions ByOccurredAtDesc limit
                (events_table w) in
  Events.getServiceTimeline rt serviceId startDate endDate limit context w
  = if isAuthorizedForService context serviceId
    then if valid_argument startDate && valid_argument endDate
         then (Returned (map to_result rows),
               snd (auditEventAccess rt (callerId context)
                      (callerName context) get_timeline (length rows)
                      (Some serviceId)
                      (Some (JObj [ ("startDate",
                                     opt_str (argument_iso rt startDate));
                                    ("endDate",
                                     opt_str (argument_iso rt endDate));
                                    ("limit", JNum (Z.of_nat limit)) ]))
                      (record_statement
                         (SelectEvents conditions ByOccurredAtDesc limit)
                         w)))
         else (Thrown invalid_time_value, w)
    else (Returned [],
          snd (auditEventAccess rt (callerId context) (callerName context)
                 get_timeline 0 (Some serviceId)
                 (Some (JObj [ ("reason", JStr "unauthorized") ])) w)).
Proof.
  cbv zeta. unfold Events.getServiceTimeline. cbv zeta.
  rewrite denies_spec.
  destruct (isAuthorizedForService context serviceId); cbn [negb];
    [| reflexivity].
  unfold bind at 1.
  destruct (valid_argument startDate && valid_argument endDate) eqn:Hdates.
  - rewrite select_events_run;
      [| now rewrite timeline_parameters | apply timeline_conditions_ok].
    apply andb_true_iff in Hdates. destruct Hdates as [Hstart Hend].
    unfold bind at 1. rewrite (optional_toISOString_run rt _ _ Hstart).
    unfold bind at 1. rewrite (optional_toISOString_run rt _ _ Hend).
    unfold bind. reflexivity.
  - rewrite select_events_invalid; [reflexivity |].
    now rewrite timeline_parameters.
Qed.

(** On denial the revised copy returns the empty list, sends the store
    nothing and writes one line that reports 0 events for the tenant
    with the reason [unauthorized]; the dates play no part. *)
Lemma getServiceTimeline_denied (rt : Runtime) (serviceId : string)
    (startDate endDate : option Date) (limit : nat)
    (context : McpCallerContext) (w : World) :
  isAuthorizedForService context serviceId = false ->
  exists w',
    Events.getServiceTimeline rt serviceId startDate endDate limit
      context w = (Returned [], w')
    /\ stderr w'
       = (stderr w
          ++ [ {| al_timestamp := toISOString rt (now w);
                  al_level := INFO;
                  al_action := "event_access_get_timeline";
                  al_callerId := callerId context;
                  al_callerName := callerName context;
                  al_success := true;
                  al_resourceType := Some "event";
                  al_resourceId := None;
                  al_serviceId := Some serviceId;
                  al_message := Some "Accessed 0 event(s)";
                  al_metadata :=
                    Some (JObj [ ("reason", JStr "unauthorized") ]) |} ])%list
    /\ issued w' = issued w
    /\ events_table w' = events_table w
    /\ api_tokens_table w' = api_tokens_table w.
Proof.
  intros Hdenied. rewrite getServiceTimeline_run. cbv zeta.
  rewrite Hdenied. eexists. split; [reflexivity |].
  repeat split.
Qed.

(** When the check passes and the dates are valid, the revised copy
    sends the store exactly one statement, the [select] on the tenant's
    events; so does the earlier copy. *)
Lemma getServiceTimeline_authorized_reads (rt : Runtime)
    (serviceId : string) (startDate endDate : option Date) (limit : nat)
    (context : McpCallerContext) (w : World) :
  isAuthorizedForService context serviceId = true ->
  valid_argument startDate && valid_argument endDate = true ->
  exists conditions,
    issued (snd (Events.getServiceTimeline rt serviceId startDate endDate
                   limit context w))
    = (issued w
       ++ [SelectEvents (EqServiceId serviceId :: conditions)
             ByOccurredAtDesc limit])%list
    /\ issued (snd (EventsV1.getServiceTimeline rt serviceId startDate
                      endDate limit context w))
       = (issued w
          ++ [SelectEvents (EqServiceId serviceId :: conditions)
                ByOccurredAtDesc limit])%list.
Proof.
  intros Hcheck Hdates.
  rewrite getServiceTimeline_run, getServiceTimeline_v1_run. cbv zeta.
  rewrite Hcheck, Hdates.
  destruct (timeline_conditions_head serviceId startDate endDate)
    as [conditions ->].
  exists conditions. split; reflexivity.
Qed.

(** C6. On denial [getServiceTimeline] is to return the empty list
    without reading the store and to audit the denial. The revised copy
    does ([getServiceTimeline_denied] above). The earlier copy returns
    the empty list without reading the store, but writes nothing: for
    a caller entitled to [svc-a] who asks for the timeline of [svc-b],
    the audit trail is as empty after the call as before it, where the
    revised copy has written its line. *)
Theorem getServiceTimeline_v1_denial_unaudited :
  isAuthorizedForService Sample.context_a "svc-b" = false
  /\ fst (EventsV1.getServiceTimeline Sample.rt "svc-b" None None 10
            Sample.context_a Sample.world) = Returned []
  /\ issued (snd (EventsV1.getServiceTimeline Sample.rt "svc-b" None None
                    10 Sample.context_a Sample.world)) = []
  /\ stderr (snd (EventsV1.getServiceTimeline Sample.rt "svc-b" None None
                    10 Sample.context_a Sample.world)) = []
  /\ map (fun line => (al_action line, al_message line, al_metadata line))
       (stderr (snd (Events.getServiceTimeline Sample.rt "svc-b" None None
                       10 Sample.context_a Sample.world)))
     = [ ("event_access_get_timeline", Some "Accessed 0 event(s)",
          Some (JObj [ ("reason", JStr "unauthorized") ])) ]
  /\ (forall (rt : Runtime) (serviceId : string)
             (startDate endDate : option Date) (limit : nat)
             (context : McpCallerContext) (w : World),
         isAuthorizedForService context serviceId = false ->
         stderr (snd (EventsV1.getServiceTimeline rt serviceId startDate
                        endDate limit context w)) = stderr w).
Proof.
  repeat (split; [reflexivity |]).
  intros rt serviceId startDate endDate limit context w Hdenied.
  now rewrite getServiceTimeline_v1_denied.
Qed.

Lemma getServiceTimeline_empty_context (rt : Runtime) (serviceId : string)
    (startDate endDate : option Date) (limit : nat)
    (context : McpCallerContext) (w : World) :
  authorizedServices context = [] ->
  fst (Events.getServiceTimeline rt serviceId startDate endDate limit
         context w) = Returned []
  /\ fst (EventsV1.getServiceTimeline rt serviceId startDate endDate limit
            context w) = Returned [].
Proof.
  intros Hempty.
  pose proof (empty_context_unauthorized context serviceId Hempty) as Hd.
  rewrite getServiceTimeline_run, getServiceTimeline_v1_run. cbv zeta.
  now rewrite Hd.
Qed.


(** ** Audit lines of the read operations *)

(** Every line [auditEventAccess] writes is an [INFO] line with
    [success: true], whatever the count. *)
Lemma auditEventAccess_run (rt : Runtime) (id : string)
    (name : option string) (action : AccessAction) (resultCount : nat)
    (serviceId : option string) (metadata : option Json) (w : World) :
  auditEventAccess rt id name action resultCount serviceId metadata w
  = (Returned tt,
     append_stderr
       {| al_timestamp := toISOString rt (now w);
          al_level := INFO;
          al_action := "event_access_" ++ action_name action;
          al_callerId := id;
          al_callerName := name;
          al_success := true;
          al_resourceType := Some "event";
          al_resourceId := None;
          al_serviceId := serviceId;
          al_message :=
            Some ("Accessed " ++ decimal resultCount ++ " event(s)");
          al_metadata := metadata |} w).
Proof. reflexivity. Qed.

Lemma getEventById_one_line (rt : Runtime) (eventId : string)
    (context : McpCallerContext) (w : World) :
  exists line,
    stderr (snd (Events.getEventById rt eventId context w))
    = (stderr w ++ [line])%list
    /\ al_action line = "event_access_get_details"
    /\ al_success line = true.
Proof.
  unfold Events.getEventById, bind, select_events.
  cbn [forallb condition_ok parameter_ok andb negb].
  destruct (run_select rt [EqId eventId] Unordered 1 (events_table w))
    as [| event rest]; cbv zeta.
  - rewrite auditEventAccess_run. eexists. repeat split.
  - destruct (denies (getAuthorizedServiceFilter context)
                (ev_serviceId event));
      rewrite auditEventAccess_run; eexists; repeat split.
Qed.

Lemma getServiceTimeline_one_line (rt : Runtime) (serviceId : string)
    (startDate endDate : option Date) (limit : nat)
    (context : McpCallerContext) (w : World) :
  isAuthorizedForService context serviceId = false
  \/ valid_argument startDate && valid_argument endDate = true ->
  exists results line w1,
    Events.getServiceTimeline rt serviceId startDate endDate limit
      context w = (Returned results, append_stderr line w1)
    /\ stderr w1 = stderr w
    /\ now w1 = now w
    /\ al_action line = "event_access_get_timeline"
    /\ al_success line = true.
Proof.
  intros Hcase. rewrite getServiceTimeline_run. cbv zeta.
  rewrite !auditEventAccess_run.
  destruct (isAuthorizedForService context serviceId).
  - destruct Hcase as [Hdenied | Hdates]; [discriminate Hdenied |].
    rewrite Hdates. eexists. eexists. eexists. repeat split.
  - eexists. eexists. exists w. repeat split.
Qed.

Lemma searchEvents_one_line (rt : Runtime) (input : SearchEventsInput)
    (context : McpCallerContext) (w w' : World)
    (results : list SearchResult) :
  Events.searchEvents rt input context w = (Returned results, w') ->
  exists line,
    stderr w' = (stderr w ++ [line])%list
    /\ al_action line = "event_access_search"
    /\ al_success line = true.
Proof.
  unfold Events.searchEvents. intros H.
  apply bind_returned in H. destruct H as [rs [w1 [Hsearch H]]].
  apply bind_returned in H. destruct H as [u [w2 [Haudit Hret]]].
  unfold ret in Hret. injection Hret as _ Hw'.
  rewrite auditEventAccess_run in Haudit. injection Haudit as Hw2.
  subst w' w2.
  assert (Hsame : stderr w1 = stderr w).
  { destruct (in_useSemanticSearch input).
    - unfold Events.semanticSearch in Hsearch. cbv zeta in Hsearch.
      apply bind_returned in Hsearch.
      destruct Hsearch as [v [w0 [Hembed Hsearch]]].
      unfold embed in Hembed.
      destruct (generateEmbedding rt (in_query input));
        [| discriminate Hembed].
      unfold ret in Hembed. injection Hembed as _ <-.
      apply bind_returned in Hsearch.
      destruct Hsearch as [rows [w3 [Hsel Hret]]].
      apply select_events_returned in Hsel. destruct Hsel as [_ ->].
      unfold ret in Hret. now injection Hret as _ <-.
    - unfold Events.keywordSearch in Hsearch. cbv zeta in Hsearch.
      apply bind_returned in Hsearch.
      destruct Hsearch as [rows [w3 [Hsel Hret]]].
      apply select_events_returned in Hsel. destruct Hsel as [_ ->].
      unfold ret in Hret. now injection Hret as _ <-. }
  eexists. cbn [stderr append_stderr]. rewrite Hsame. repeat split.
Qed.

(** [generateImpactSummary] over the revised [getServiceTimeline] writes
    two lines for one call, the timeline's and its own, whenever the
    timeline returns: on denial, and otherwise when the dates can be
    read. *)
Lemma generateImpactSummary_two_lines (rt : Runtime)
    (input : GetImpactSummaryInput) (context : McpCallerContext)
    (w : World) :
  isAuthorizedForService context (gi_serviceId input) = false
  \/ readable_date rt (gi_startDate input)
     && readable_date rt (gi_endDate input) = true ->
  exists first second,
    stderr (snd (generateImpactSummary rt (Events.getServiceTimeline rt)
                   input context w))
    = (stderr w ++ [first; second])%list
    /\ al_action first = "event_access_get_timeline"
    /\ al_action second = "event_access_get_impact_summary"
    /\ al_success first = true
    /\ al_success second = true.
Proof.
  intros Hcase. rewrite <- !valid_argument_date_argument in Hcase.
  unfold generateImpactSummary.
  destruct (getServiceTimeline_one_line rt (gi_serviceId input)
              (date_argument rt (gi_startDate input))
              (date_argument rt (gi_endDate input))
              (gi_maxEvents input) context w Hcase)
    as [results [line [w1 [Hrun [Hsame [Hnow [Hact Hsucc]]]]]]].
  unfold bind at 1. rewrite Hrun.
  exists line. 
  destruct results as [| r results]; unfold bind;
    rewrite auditEventAccess_run; eexists; cbn [snd ret stderr append_stderr];
    rewrite Hsame, <- app_assoc; repeat split; assumption.
Qed.

(** C5. Each read operation is to write exactly one audit line whose
    [success] tells whether a record was returned. Each call of the
    revised [getEventById] does write exactly one line, but that line
    says [success: true] also when nothing is returned: looking up an
    identifier that no event carries returns [null] and logs a success,
    and so does looking up an event of a tenant the caller is not
    entitled to. One call of [generateImpactSummary] writes two
    lines. *)
Theorem read_audit_lines_report_success :
  (forall (rt : Runtime) (eventId : string) (context : McpCallerContext)
          (w : World),
      exists line,
        stderr (snd (Events.getEventById rt eventId context w))
        = (stderr w ++ [line])%list
        /\ al_success line = true)
  /\ fst (Events.getEventById Sample.rt "missing" Sample.context_a
            Sample.world) = Returned None
  /\ map al_success
       (stderr (snd (Events.getEventById Sample.rt "missing"
                       Sample.context_a Sample.world))) = [true]
  /\ fst (Events.getEventById Sample.rt "e-b" Sample.context_a
            Sample.world) = Returned None
  /\ map al_success
       (stderr (snd (Events.getEventById Sample.rt "e-b"
                       Sample.context_a Sample.world))) = [true]
  /\ map al_action
       (stderr (snd (generateImpactSummary Sample.rt
                       (Events.getServiceTimeline Sample.rt)
                       (Sample.summary_of "svc-a") Sample.context_a
                       Sample.world)))
     = ["event_access_get_timeline"; "event_access_get_impact_summary"].
Proof.
  split.
  - intros rt eventId context w.
    destruct (getEventById_one_line rt eventId context w)
      as [line [H [_ Hs]]].
    now exists line.
  - repeat split; reflexivity.
Qed.

(* ================================================================== *)
(** * Further properties *)

(** ** The resolver, case by case *)

Lemma resolve_by_credential (rt : Runtime) (extra extra' : Json)
    (w : World) :
  presented extra w = presented extra' w ->
  resolveCallerContext rt extra w = resolveCallerContext rt extra' w.
Proof.
  unfold presented, resolveCallerContext, bind, read_PEI_AUTH_TOKEN.
  intros H. cbv zeta. now rewrite H.
Qed.

Lemma resolve_without_credential (rt : Runtime) (extra : Json) (w : World) :
  truthy (presented extra w) = false ->
  resolveCallerContext rt extra w
  = (Returned (zero_access "anonymous"),
     append_stderr
       (stamp rt (now w)
          (unstamped WARNING "authentication_failure" "anonymous" None
             false None None
             (Some "Authentication failed: missing_token") None)) w).
Proof.
  unfold presented, resolveCallerContext, bind, read_PEI_AUTH_TOKEN.
  intros H. cbv zeta. now rewrite H.
Qed.

Lemma resolve_bad_credential (rt : Runtime) (extra : Json) (w : World) :
  truthy (presented extra w) = true ->
  (forall s, presented extra w <> JStr s) ->
  resolveCallerContext rt extra w
  = (Thrown "TypeError: the data argument must be of type string", w).
Proof.
  unfold presented, resolveCallerContext, bind, read_PEI_AUTH_TOKEN.
  intros Ht Hs. cbv zeta. rewrite Ht. cbn [negb].
  destruct (js_or (get_field "authToken" (extractMetadata extra))
              (opt_str (PEI_AUTH_TOKEN w))) eqn:E;
    try reflexivity.
  now elim (Hs s).
Qed.

(** What the resolver does with a credential that is a non-empty
    string. *)
Lemma resolve_credential_run (rt : Runtime) (extra : Json) (w : World)
    (s : string) :
  presented extra w = JStr s ->
  s <> "" ->
  let w1 := record_statement (SelectApiToken (hashToken rt s)) w in
  resolveCallerContext rt extra w
  = match matching rt s w with
    | [] =>
        (Returned (zero_access "invalid"),
         append_stderr
           (stamp rt (now w)
              (unstamped WARNING "authentication_failure" "unknown" None
                 false None None
                 (Some "Authentication failed: invalid_token")
                 (Some (JObj [ ("tokenHash", JStr (hashToken rt s)) ]))))
           w1)
    | tokenRecord :: _ =>
        if expired_at (now w) tokenRecord then
          (Returned (zero_access (tk_id tokenRecord)),
           append_stderr
             (stamp rt (now w)
                (unstamped WARNING "authentication_failure"
                   (tk_id tokenRecord) None false None None
                   (Some "Authentication failed: expired_token")
                   (Some (JObj [ ("name", JStr (tk_name tokenRecord));
                                 ("expiresAt",
                                  opt_str (option_map (toISOString rt)
                                             (tk_expiresAt
                                                tokenRecord))) ]))))
             w1)
        else
          (Returned {| callerId := tk_id tokenRecord;
                       authorizedServices :=
                         tk_authorizedServices tokenRecord;
                       callerName := Some (tk_name tokenRecord);
                       callerType := CallerToken |},
           append_stderr
             (stamp rt (now w)
                (unstamped INFO "authentication_success"
                   (tk_id tokenRecord) (Some (tk_name tokenRecord)) true
                   None None (Some "Authentication successful")
                   (Some (JObj [ ("authorizedServices",
                                  JArr (map JStr
                                          (tk_authorizedServices
                                             tokenRecord))) ]))))
             (snd (update_lastUsedAt (tk_id tokenRecord) w1)))
    end.
Proof.
  intros Hcred Hs w1.
  rewrite (resolve_with_credential rt extra w Hcred Hs).
  cbv zeta. unfold bind at 1. unfold select_api_token at 1.
  unfold matching.
  destruct (filter (fun t => tk_tokenHash t =? hashToken rt s)
              (api_tokens_table w)) as [| tokenRecord rest];
    cbn [firstn]; [reflexivity |].
  unfold bind at 1. unfold read_clock at 1. cbn [now record_statement].
  unfold expired_at.
  destruct (tk_expiresAt tokenRecord) as [e |]; [| reflexivity].
  destruct (e <? now w)%Z; reflexivity.
Qed.

(** The three shapes of a presented credential. *)
Lemma presented_cases (extra : Json) (w : World) :
  truthy (presented extra w) = false
  \/ (truthy (presented extra w) = true
      /\ forall s, presented extra w <> JStr s)
  \/ exists s, presented extra w = JStr s /\ s <> "".
Proof.
  destruct (presented extra w) as [| | b | n | s | l | fs] eqn:E;
    simpl; auto.
  - destruct b; auto. right. left. split; [reflexivity | discriminate].
  - destruct (n =? 0)%Z; auto. right. left.
    split; [reflexivity | discriminate].
  - destruct (String.eqb_spec s ""); auto.
    right. right. now exists s.
  - right. left. split; [reflexivity | discriminate].
  - right. left. split; [reflexivity | discriminate].
Qed.

(** ** The resolver: what it grants and what it leaves behind *)

(** X1. A credential that matches a stored record without expiry, or
    whose expiry is not before the time of the call, resolves to the
    record's id, name and exact set of services; the resolver sets
    [lastUsedAt] on that id and writes one [authentication_success]
    line that lists the services granted. *)
Theorem resolveCallerContext_valid_token
    (rt : Runtime) (extra : Json) (w : World) (s : string)
    (tokenRecord : ApiToken) (others : list ApiToken) :
  presented extra w = JStr s ->
  s <> "" ->
  matching rt s w = tokenRecord :: others ->
  expired_at (now w) tokenRecord = false ->
  exists w',
    resolveCallerContext rt extra w
    = (Returned {| callerId := tk_id tokenRecord;
                   authorizedServices := tk_authorizedServices tokenRecord;
                   callerName := Some (tk_name tokenRecord);
                   callerType := CallerToken |}, w')
    /\ stderr w'
       = (stderr w
          ++ [ {| al_timestamp := toISOString rt (now w);
                  al_level := INFO;
                  al_action := "authentication_success";
                  al_callerId := tk_id tokenRecord;
                  al_callerName := Some (tk_name tokenRecord);
                  al_success := true;
                  al_resourceType := None;
                  al_resourceId := None;
                  al_serviceId := None;
                  al_message := Some "Authentication successful";
                  al_metadata :=
                    Some (JObj [ ("authorizedServices",
                                  JArr (map JStr
                                          (tk_authorizedServices
                                             tokenRecord))) ]) |} ])%list
    /\ issued w'
       = (issued w
          ++ [SelectApiToken (sha256_hex rt s);
              UpdateLastUsedAt (tk_id tokenRecord) (now w)])%list
    /\ events_table w' = events_table w
    /\ api_tokens_table w'
       = map (fun t =>
                if tk_id t =? tk_id tokenRecord
                then {| tk_id := tk_id t;
                        tk_tokenHash := tk_tokenHash t;
                        tk_name := tk_name t;
                        tk_authorizedServices := tk_authorizedServices t;
                        tk_createdBy := tk_createdBy t;
                        tk_expiresAt := tk_expiresAt t;
                        tk_lastUsedAt := Some (now w);
                        tk_createdAt := tk_createdAt t |}
                else t)
           (api_tokens_table w).
Proof.
  intros Hcred Hs Hfound Hlive.
  rewrite (resolve_credential_run rt extra w Hcred Hs).
  cbv zeta. rewrite Hfound, Hlive.
  unfold update_lastUsedAt, record_statement, hashToken.
  cbn [snd events_table api_tokens_table PEI_AUTH_TOKEN now stderr issued].
  eexists. split; [reflexivity |].
  cbn [append_stderr stderr issued events_table api_tokens_table].
  rewrite <- app_assoc. repeat split.
Qed.

Lemma resolveCallerContext_valid_token_witness :
  presented (call_presenting "fresh-secret") Sample2.world
  = JStr "fresh-secret"
  /\ matching Sample.rt "fresh-secret" Sample2.world
     = [Sample2.valid_record]
  /\ expired_at (now Sample2.world) Sample2.valid_record = false
  /\ fst (resolveCallerContext Sample.rt (call_presenting "fresh-secret")
            Sample2.world)
     = Returned {| callerId := "tok-new";
                   authorizedServices := ["svc-a"; "svc-b"];
                   callerName := Some "Valid Token";
                   callerType := CallerToken |}
  /\ map (fun line => (al_action line, al_callerId line, al_success line,
                       al_metadata line))
       (stderr (snd (resolveCallerContext Sample.rt
                       (call_presenting "fresh-secret") Sample2.world)))
     = [ ("authentication_success", "tok-new", true,
          Some (JObj [ ("authorizedServices",
                        JArr [JStr "svc-a"; JStr "svc-b"]) ])) ]
  /\ map tk_lastUsedAt
       (api_tokens_table
          (snd (resolveCallerContext Sample.rt
                  (call_presenting "fresh-secret") Sample2.world)))
     = [None; Some 5000%Z].
Proof.
  do 3 (split; [reflexivity |]).
  destruct (@resolveCallerContext_valid_token Sample.rt
              (call_presenting "fresh-secret") Sample2.world "fresh-secret"
              Sample2.valid_record [])
    as [w' [Hrun [Hlog [_ [_ Htable]]]]].
  - reflexivity.
  - discriminate.
  - reflexivity.
  - reflexivity.
  - rewrite Hrun. cbn [fst snd]. rewrite Hlog, Htable.
    repeat split.
Defined.

Lemma matching_In (rt : Runtime) (s : string) (w : World)
    (t : ApiToken) (rest : list ApiToken) :
  matching rt s w = t :: rest ->
  In t (api_tokens_table w) /\ tk_tokenHash t = sha256_hex rt s.
Proof.
  unfold matching. intros H.
  assert (Hin : In t (filter (fun t => tk_tokenHash t =? hashToken rt s)
                        (api_tokens_table w)))
    by (rewrite H; now left).
  apply filter_In in Hin. destruct Hin as [Hin He].
  split; [exact Hin | now apply String.eqb_eq in He].
Qed.

(** X2. The resolver grants services only on the strength of a stored
    record: when the context it returns holds any service, the call
    presented a string whose digest is the [tokenHash] of a stored
    record that has not expired, and the context carries that record's
    id and services. *)
Theorem entitlement_requires_live_record
    (rt : Runtime) (extra : Json) (w w' : World)
    (context : McpCallerContext) :
  resolveCallerContext rt extra w = (Returned context, w') ->
  authorizedServices context <> [] ->
  exists (s : string) (tokenRecord : ApiToken),
    presented extra w = JStr s
    /\ In tokenRecord (api_tokens_table w)
    /\ tk_tokenHash tokenRecord = sha256_hex rt s
    /\ expired_at (now w) tokenRecord = false
    /\ callerId context = tk_id tokenRecord
    /\ authorizedServices context = tk_authorizedServices tokenRecord.
Proof.
  intros Hrun Hgranted.
  destruct (presented_cases extra w) as [Hnone | [[Ht Hbad] | [s [Hs Hne]]]].
  - rewrite (resolve_without_credential rt extra w Hnone) in Hrun.
    injection Hrun as <- _. now elim Hgranted.
  - rewrite (resolve_bad_credential rt extra w Ht Hbad) in Hrun.
    discriminate Hrun.
  - rewrite (resolve_credential_run rt extra w Hs Hne) in Hrun.
    cbv zeta in Hrun.
    destruct (matching rt s w) as [| tokenRecord rest] eqn:Hm.
    + injection Hrun as <- _. now elim Hgranted.
    + destruct (expired_at (now w) tokenRecord) eqn:He.
      * injection Hrun as <- _. now elim Hgranted.
      * injection Hrun as <- _.
        destruct (matching_In rt s w Hm) as [Hin Hhash].
        exists s, tokenRecord. repeat split; assumption.
Qed.

Lemma entitlement_requires_live_record_witness :
  exists (s : string) (tokenRecord : ApiToken),
    presented (call_presenting "fresh-secret") Sample2.world = JStr s
    /\ In tokenRecord (api_tokens_table Sample2.world)
    /\ tk_tokenHash tokenRecord = sha256_hex Sample.rt s
    /\ expired_at (now Sample2.world) tokenRecord = false
    /\ "tok-new" = tk_id tokenRecord
    /\ ["svc-a"; "svc-b"] = tk_authorizedServices tokenRecord.
Proof.
  exact (@entitlement_requires_live_record Sample.rt
           (call_presenting "fresh-secret") Sample2.world _
           {| callerId := "tok-new";
              authorizedServices := ["svc-a"; "svc-b"];
              callerName := Some "Valid Token";
              callerType := CallerToken |}
           eq_refl ltac:(discriminate)).
Defined.

(** X3. A non-empty [authToken] in the metadata decides the outcome
    whatever [PEI_AUTH_TOKEN] holds; when the metadata carries none, or
    an empty one, the call is resolved exactly as a call that presents
    [PEI_AUTH_TOKEN] in its metadata. *)
Theorem credential_precedence
    (rt : Runtime) (extra : Json) (w : World) :
  (forall s e,
      get_field "authToken" (extractMetadata extra) = JStr s ->
      s <> "" ->
      fst (resolveCallerContext rt extra (with_PEI_AUTH_TOKEN e w))
      = fst (resolveCallerContext rt extra w)
      /\ stderr (snd (resolveCallerContext rt extra
                        (with_PEI_AUTH_TOKEN e w)))
         = stderr (snd (resolveCallerContext rt extra w)))
  /\ (forall s,
         truthy (get_field "authToken" (extractMetadata extra)) = false ->
         PEI_AUTH_TOKEN w = Some s ->
         resolveCallerContext rt extra w
         = resolveCallerContext rt (call_presenting s) w).
Proof.
  split.
  - intros s e Hfield Hs.
    assert (Ht : truthy (JStr s) = true).
    { simpl. apply negb_true_iff. now apply String.eqb_neq. }
    assert (H1 : presented extra (with_PEI_AUTH_TOKEN e w) = JStr s).
    { unfold presented, js_or. now rewrite Hfield, Ht. }
    assert (H2 : presented extra w = JStr s).
    { unfold presented, js_or. now rewrite Hfield, Ht. }
    rewrite (resolve_credential_run rt extra _ H1 Hs).
    rewrite (resolve_credential_run rt extra _ H2 Hs).
    cbv zeta.
    change (matching rt s (with_PEI_AUTH_TOKEN e w)) with (matching rt s w).
    change (now (with_PEI_AUTH_TOKEN e w)) with (now w).
    destruct (matching rt s w) as [| tokenRecord rest];
      [split; reflexivity |].
    destruct (expired_at (now w) tokenRecord); split; reflexivity.
  - intros s Hfield Henv. apply resolve_by_credential.
    unfold presented, js_or. rewrite Hfield, Henv.
    simpl. now destruct (s =? "").
Qed.

Lemma credential_precedence_witness :
  fst (resolveCallerContext Sample.rt (call_presenting "old-secret")
         (with_PEI_AUTH_TOKEN (Some "fresh-secret") Sample2.world))
  = fst (resolveCallerContext Sample.rt (call_presenting "old-secret")
           Sample2.world)
  /\ resolveCallerContext Sample.rt (JObj []) Sample2.world
     = resolveCallerContext Sample.rt (call_presenting "fresh-secret")
         Sample2.world.
Proof.
  destruct (@credential_precedence Sample.rt (call_presenting "old-secret")
              Sample2.world) as [Hfirst _].
  destruct (@credential_precedence Sample.rt (JObj []) Sample2.world)
    as [_ Hsecond].
  split.
  - apply (Hfirst "old-secret" (Some "fresh-secret"));
      [reflexivity | discriminate].
  - apply Hsecond; reflexivity.
Defined.

(** X4. Whenever the resolver returns, it has written exactly one audit
    line, which names the caller of the returned context unless the
    credential was unknown. The line reports a success exactly when the
    context carries a caller name, which only a live record gives; a
    failure line is a [WARNING] and goes with an empty set of services.
    When the resolver throws, it has written nothing and sent nothing
    to the store. *)
Theorem resolveCallerContext_audits_once
    (rt : Runtime) (extra : Json) (w : World) :
  match resolveCallerContext rt extra w with
  | (Returned context, w') =>
      exists line,
        stderr w' = (stderr w ++ [line])%list
        /\ (al_success line = true <-> callerName context <> None)
        /\ (al_success line = true ->
            al_action line = "authentication_success"
            /\ al_level line = INFO
            /\ al_callerId line = callerId context)
        /\ (al_success line = false ->
            al_action line = "authentication_failure"
            /\ al_level line = WARNING
            /\ authorizedServices context = []
            /\ (al_callerId line = callerId context
                \/ (al_callerId line = "unknown"
                    /\ callerId context = "invalid")))
  | (Thrown _, w') => w' = w
  end.
Proof.
  destruct (presented_cases extra w) as [Hnone | [[Ht Hbad] | [s [Hs Hne]]]].
  - rewrite (resolve_without_credential rt extra w Hnone).
    eexists. split; [reflexivity |]. simpl.
    repeat split; try discriminate; try tauto; auto.
  - now rewrite (resolve_bad_credential rt extra w Ht Hbad).
  - rewrite (resolve_credential_run rt extra w Hs Hne). cbv zeta.
    destruct (matching rt s w) as [| tokenRecord rest].
    + eexists. split; [reflexivity |]. simpl.
      repeat split; try discriminate; try tauto; auto.
    + destruct (expired_at (now w) tokenRecord).
      * eexists. split; [reflexivity |]. simpl.
        repeat split; try discriminate; try tauto; auto.
      * eexists. split; [reflexivity |]. simpl.
        repeat split; try discriminate; try tauto; auto.
Qed.

Lemma grant_of_touch (today : Z) (t : ApiToken) :
  grant_of (touch today t) = grant_of t.
Proof. reflexivity. Qed.

Lemma grants_after_touch (today : Z) (id : string) (l : list ApiToken) :
  map grant_of (map (fun t => if tk_id t =? id then touch today t else t) l)
  = map grant_of l.
Proof.
  rewrite map_map. apply map_ext. intros t.
  now destruct (tk_id t =? id).
Qed.

(** X5. Resolving a credential never changes what the store grants:
    the events are untouched and every stored credential keeps its id,
    digest, name, services, creator, expiry and creation time; only
    [lastUsedAt] may change, and only on records that carry the id of
    the record that matched. *)
Theorem resolveCallerContext_keeps_grants
    (rt : Runtime) (extra : Json) (w : World) :
  let w' := snd (resolveCallerContext rt extra w) in
  events_table w' = events_table w
  /\ map grant_of (api_tokens_table w') = map grant_of (api_tokens_table w)
  /\ (api_tokens_table w' = api_tokens_table w
      \/ exists s tokenRecord rest,
           presented extra w = JStr s
           /\ matching rt s w = tokenRecord :: rest
           /\ api_tokens_table w'
              = map (fun t => if tk_id t =? tk_id tokenRecord
                              then touch (now w) t else t)
                  (api_tokens_table w)).
Proof.
  cbv zeta.
  destruct (presented_cases extra w) as [Hnone | [[Ht Hbad] | [s [Hs Hne]]]].
  - rewrite (resolve_without_credential rt extra w Hnone). simpl. auto.
  - rewrite (resolve_bad_credential rt extra w Ht Hbad). simpl. auto.
  - rewrite (resolve_credential_run rt extra w Hs Hne). cbv zeta.
    destruct (matching rt s w) as [| tokenRecord rest] eqn:Hm.
    + simpl. auto.
    + destruct (expired_at (now w) tokenRecord).
      * simpl. auto.
      * cbn [snd append_stderr update_lastUsedAt record_statement
               events_table api_tokens_table now].
        split; [reflexivity |]. split; [apply grants_after_touch |].
        right. exists s, tokenRecord, rest. auto.
Qed.

(** X6. A credential that is truthy but not a string (a number, [true],
    an array, an object) makes the resolver throw when it hashes it:
    no context is returned, no audit line is written and the store is
    not consulted. *)
Theorem resolveCallerContext_rejects_non_string
    (rt : Runtime) (extra : Json) (w : World) :
  truthy (presented extra w) = true ->
  (forall s, presented extra w <> JStr s) ->
  exists message, resolveCallerContext rt extra w = (Thrown message, w).
Proof.
  intros Ht Hbad. eexists. now apply resolve_bad_credential.
Qed.

Lemma resolveCallerContext_rejects_non_string_witness :
  truthy (presented
            (JObj [ ("metadata", JObj [ ("authToken", JNum 12345) ]) ])
            Sample.world) = true
  /\ exists message,
       resolveCallerContext Sample.rt
         (JObj [ ("metadata", JObj [ ("authToken", JNum 12345) ]) ])
         Sample.world = (Thrown message, Sample.world).
Proof.
  split; [reflexivity |].
  apply (@resolveCallerContext_rejects_non_string Sample.rt
           (JObj [ ("metadata", JObj [ ("authToken", JNum 12345) ]) ])
           Sample.world); [reflexivity | discriminate].
Defined.

(** ** Issuing credentials *)

Lemma append_nil_r (s : string) : s ++ "" = s.
Proof. induction s as [| c s IH]; simpl; [reflexivity | now rewrite IH]. Qed.

Lemma concat_empty_cons (x : string) (l : list string) :
  String.concat "" (x :: l) = x ++ String.concat "" l.
Proof.
  destruct l as [| y l]; simpl; [now rewrite append_nil_r | reflexivity].
Qed.

(** Every byte becomes two lower-case hexadecimal digits that spell
    it. *)
Lemma byte_hex_shape (b : Byte.byte) :
  exists hi lo,
    padStart 2 "0" (toString16 b) = String hi (String lo EmptyString)
    /\ is_lower_hex hi = true
    /\ is_lower_hex lo = true
    /\ byte_of_hex hi lo = Some b.
Proof.
  destruct b; eexists; eexists; repeat split; reflexivity.
Qed.

Lemma generateSecureToken_cons (b : Byte.byte) (bytes : list Byte.byte) :
  generateSecureToken (b :: bytes)
  = padStart 2 "0" (toString16 b) ++ generateSecureToken bytes.
Proof. unfold generateSecureToken. simpl map. apply concat_empty_cons. Qed.

(** X7. The token [generateSecureToken] makes of the random bytes has
    two characters per byte, 64 for the 32 bytes the code draws, all of
    them among [0123456789abcdef]: a byte below 16 is padded to two
    digits. *)
Theorem generateSecureToken_format (bytes : list Byte.byte) :
  String.length (generateSecureToken bytes) = 2 * length bytes
  /\ all_chars is_lower_hex (generateSecureToken bytes) = true
  /\ (length bytes = 32 -> String.length (generateSecureToken bytes) = 64).
Proof.
  assert (H : String.length (generateSecureToken bytes) = 2 * length bytes
              /\ all_chars is_lower_hex (generateSecureToken bytes) = true).
  { induction bytes as [| b bytes [IHlen IHhex]]; [split; reflexivity |].
    rewrite generateSecureToken_cons.
    destruct (byte_hex_shape b) as [hi [lo [-> [Hhi [Hlo _]]]]].
    cbn [append String.length all_chars length].
    rewrite IHlen, IHhex, Hhi, Hlo. split; [lia | reflexivity]. }
  destruct H as [Hlen Hhex]. repeat split; try assumption.
  intros H32. rewrite Hlen, H32. reflexivity.
Qed.

(** X8. Different random bytes give different tokens: the bytes can be
    read back from the token, two digits at a time. *)
Theorem generateSecureToken_injective (bytes bytes' : list Byte.byte) :
  generateSecureToken bytes = generateSecureToken bytes' ->
  bytes = bytes'.
Proof.
  revert bytes'.
  induction bytes as [| b bytes IH]; intros [| b' bytes'] H.
  - reflexivity.
  - rewrite generateSecureToken_cons in H.
    destruct (byte_hex_shape b') as [hi [lo [E _]]]. rewrite E in H.
    discriminate H.
  - rewrite generateSecureToken_cons in H.
    destruct (byte_hex_shape b) as [hi [lo [E _]]]. rewrite E in H.
    discriminate H.
  - rewrite !generateSecureToken_cons in H.
    destruct (byte_hex_shape b) as [hi [lo [E [_ [_ Hb]]]]].
    destruct (byte_hex_shape b') as [hi' [lo' [E' [_ [_ Hb']]]]].
    rewrite E, E' in H. cbn [append] in H.
    injection H as -> -> Hrest.
    rewrite Hb in Hb'. injection Hb' as ->.
    f_equal. now apply IH.
Qed.

Lemma generateSecureToken_injective_witness :
  generateSecureToken Sample2.random = "000fa5ff"
  /\ Sample2.random = [Byte.x00; Byte.x0f; Byte.xa5; Byte.xff].
Proof.
  split; [reflexivity |].
  apply (@generateSecureToken_injective Sample2.random
           [Byte.x00; Byte.x0f; Byte.xa5; Byte.xff]).
  reflexivity.
Defined.

Lemma generateSecureToken_nonempty (bytes : list Byte.byte) :
  bytes <> [] -> generateSecureToken bytes <> "".
Proof.
  destruct bytes as [| b bytes]; [congruence |]. intros _.
  rewrite generateSecureToken_cons.
  destruct (byte_hex_shape b) as [hi [lo [-> _]]]. discriminate.
Qed.

Lemma presented_call (s : string) (w : World) :
  s <> "" -> presented (call_presenting s) w = JStr s.
Proof.
  intros Hs. unfold presented, call_presenting, js_or. simpl.
  apply String.eqb_neq in Hs. now rewrite Hs.
Qed.

(** What [createApiToken] leaves in the store when it returns. *)
Lemma createApiToken_returned (rt : Runtime) (random : list Byte.byte)
    (id name : string) (services : list string) (createdBy : string)
    (expiresInDays : option Z) (w w' : World) (token id' : string) :
  createApiToken rt random id name services createdBy expiresInDays w
  = (Returned (token, id'), w') ->
  token = generateSecureToken random
  /\ id' = id
  /\ existsb (fun t => (tk_id t =? id)
                       || (tk_tokenHash t =? hashToken rt token))
       (api_tokens_table w) = false
  /\ api_tokens_table w'
     = (api_tokens_table w
        ++ [{| tk_id := id;
               tk_tokenHash := hashToken rt token;
               tk_name := name;
               tk_authorizedServices := services;
               tk_createdBy := createdBy;
               tk_expiresAt := expiry_of (now w) expiresInDays;
               tk_lastUsedAt := None;
               tk_createdAt := now w |}])%list
  /\ events_table w' = events_table w
  /\ stderr w' = stderr w.
Proof.
  unfold createApiToken, bind, read_clock, insert_api_token.
  cbv zeta. cbn [tk_id tk_tokenHash].
  destruct (existsb _ (api_tokens_table w)) eqn:E; [discriminate |].
  unfold ret. intros H. injection H as <- <- <-.
  repeat split. exact E.
Qed.

Lemma matching_new_record (rt : Runtime) (s : string) (w2 : World)
    (table : list ApiToken) (row : ApiToken) :
  api_tokens_table w2 = (table ++ [row])%list ->
  tk_tokenHash row = hashToken rt s ->
  existsb (fun t => (tk_id t =? tk_id row)
                    || (tk_tokenHash t =? hashToken rt s)) table = false ->
  matching rt s w2 = [row].
Proof.
  intros Htable Hrow Hfresh. unfold matching.
  rewrite Htable, filter_app. simpl. rewrite Hrow, String.eqb_refl.
  assert (Hnil : filter (fun t => tk_tokenHash t =? hashToken rt s) table
                 = []).
  { clear Htable. induction table as [| t table IH]; [reflexivity |].
    simpl in Hfresh. apply orb_false_iff in Hfresh.
    destruct Hfresh as [Ht Hrest]. apply orb_false_iff in Ht.
    destruct Ht as [_ Hhash]. simpl. rewrite Hhash. now apply IH. }
  now rewrite Hnil.
Qed.

(** X9. A token that [createApiToken] has issued resolves to what was
    registered: presented in any later state of the world in which the
    credentials table is the one the creation left, it yields the id,
    name and services given at creation, provided it was created
    without expiry, or with [expiresInDays] 0 (which sets no expiry),
    or the clock has not passed the creation time plus that many
    days. *)
Theorem created_token_resolves
    (rt : Runtime) (random : list Byte.byte) (id name : string)
    (services : list string) (createdBy : string)
    (expiresInDays : option Z) (w w' w2 : World) (token id' : string) :
  createApiToken rt random id name services createdBy expiresInDays w
  = (Returned (token, id'), w') ->
  random <> [] ->
  api_tokens_table w2 = api_tokens_table w' ->
  (expiresInDays = None
   \/ expiresInDays = Some 0%Z
   \/ exists d, expiresInDays = Some d
                /\ (now w2 <= now w + d * 24 * 60 * 60 * 1000)%Z) ->
  fst (resolveCallerContext rt (call_presenting token) w2)
  = Returned {| callerId := id';
                authorizedServices := services;
                callerName := Some name;
                callerType := CallerToken |}.
Proof.
  intros Hcreate Hrandom Htable Hlive.
  destruct (createApiToken_returned _ _ _ _ _ _ _ _ Hcreate)
    as [Htoken [-> [Hfresh [Hrows _]]]].
  assert (Hne : token <> "")
    by (rewrite Htoken; now apply generateSecureToken_nonempty).
  rewrite (resolve_credential_run rt _ w2 (presented_call w2 Hne) Hne).
  cbv zeta. rewrite Hrows in Htable.
  rewrite (matching_new_record rt token w2 _ _ Htable eq_refl Hfresh).
  assert (Hnot : expired_at (now w2)
                   {| tk_id := id;
                      tk_tokenHash := hashToken rt token;
                      tk_name := name;
                      tk_authorizedServices := services;
                      tk_createdBy := createdBy;
                      tk_expiresAt := expiry_of (now w) expiresInDays;
                      tk_lastUsedAt := None;
                      tk_createdAt := now w |} = false).
  { unfold expired_at, expiry_of. cbn [tk_expiresAt].
    destruct Hlive as [-> | [-> | [d [-> Hd]]]]; try reflexivity.
    destruct (d =? 0)%Z; [reflexivity |]. apply Z.ltb_ge. exact Hd. }
  rewrite Hnot. reflexivity.
Qed.

Lemma created_token_resolves_witness :
  fst (createApiToken Sample.rt Sample2.random "tok-9" "Nine" ["svc-b"]
         "admin" (Some 1%Z) Sample.world)
  = Returned ("000fa5ff", "tok-9")
  /\ fst (resolveCallerContext Sample.rt (call_presenting "000fa5ff")
            (snd (createApiToken Sample.rt Sample2.random "tok-9" "Nine"
                    ["svc-b"] "admin" (Some 1%Z) Sample.world)))
     = Returned {| callerId := "tok-9";
                   authorizedServices := ["svc-b"];
                   callerName := Some "Nine";
                   callerType := CallerToken |}.
Proof.
  split; [reflexivity |].
  apply (@created_token_resolves Sample.rt Sample2.random "tok-9" "Nine"
           ["svc-b"] "admin" (Some 1%Z) Sample.world
           (snd (createApiToken Sample.rt Sample2.random "tok-9" "Nine"
                   ["svc-b"] "admin" (Some 1%Z) Sample.world))).
  - reflexivity.
  - discriminate.
  - reflexivity.
  - right. right. exists 1%Z. split; [reflexivity |].
    vm_compute. discriminate.
Defined.

(** X10. A token created with a negative [expiresInDays] is expired
    from the start: presented at the creation time or later, it yields
    the new record's id with no service, the outcome of an expired
    credential. *)
Theorem created_token_with_past_expiry
    (rt : Runtime) (random : list Byte.byte) (id name : string)
    (services : list string) (createdBy : string) (d : Z)
    (w w' w2 : World) (token id' : string) :
  createApiToken rt random id name services createdBy (Some d) w
  = (Returned (token, id'), w') ->
  random <> [] ->
  api_tokens_table w2 = api_tokens_table w' ->
  (d < 0)%Z ->
  (now w <= now w2)%Z ->
  fst (resolveCallerContext rt (call_presenting token) w2)
  = Returned {| callerId := id';
                authorizedServices := [];
                callerName := None;
                callerType := CallerToken |}.
Proof.
  intros Hcreate Hrandom Htable Hd Hlater.
  destruct (createApiToken_returned _ _ _ _ _ _ _ _ Hcreate)
    as [Htoken [-> [Hfresh [Hrows _]]]].
  assert (Hne : token <> "")
    by (rewrite Htoken; now apply generateSecureToken_nonempty).
  rewrite (resolve_credential_run rt _ w2 (presented_call w2 Hne) Hne).
  cbv zeta. rewrite Hrows in Htable.
  rewrite (matching_new_record rt token w2 _ _ Htable eq_refl Hfresh).
  unfold expired_at, expiry_of. cbn [tk_expiresAt].
  replace (d =? 0)%Z with false by (symmetry; apply Z.eqb_neq; lia).
  replace (now w + d * 24 * 60 * 60 * 1000 <? now w2)%Z with true
    by (symmetry; apply Z.ltb_lt; lia).
  reflexivity.
Qed.

Lemma created_token_with_past_expiry_witness :
  fst (resolveCallerContext Sample.rt (call_presenting "000fa5ff")
         (snd (createApiToken Sample.rt Sample2.random "tok-9" "Nine"
                 ["svc-b"] "admin" (Some (-1)%Z) Sample.world)))
  = Returned (zero_access "tok-9").
Proof.
  apply (@created_token_with_past_expiry Sample.rt Sample2.random "tok-9"
           "Nine" ["svc-b"] "admin" (-1)%Z Sample.world
           (snd (createApiToken Sample.rt Sample2.random "tok-9" "Nine"
                   ["svc-b"] "admin" (Some (-1)%Z) Sample.world))
           _ "000fa5ff" "tok-9").
  - reflexivity.
  - discriminate.
  - reflexivity.
  - reflexivity.
  - discriminate.
Defined.

(** ** What a search returns *)

Lemma keywordSearch_returned (rt : Runtime) (input : SearchEventsInput)
    (context : McpCallerContext) (w w' : World)
    (results : list SearchResult) :
  Events.keywordSearch rt input context w = (Returned results, w') \/
  EventsV1.keywordSearch rt input context w = (Returned results, w') ->
  exists pattern,
    let cs := push (IlikeTitleOrDescription pattern)
                (other_conditions rt input context) in
    results = map to_result
                (run_select rt cs ByOccurredAtDesc (in_limit input)
                   (events_table w))
    /\ w' = record_statement
              (SelectEvents cs ByOccurredAtDesc (in_limit input)) w.
Proof.
  unfold Events.keywordSearch, EventsV1.keywordSearch. cbv zeta.
  fold (other_conditions rt input context).
  intros [H | H];
    apply bind_returned in H; destruct H as [rows [w1 [Hsel Hret]]];
    apply select_events_returned in Hsel; destruct Hsel as [-> ->];
    unfold ret in Hret; injection Hret as <- <-;
    eexists; split; reflexivity.
Qed.

Lemma semanticSearch_returned (rt : Runtime) (input : SearchEventsInput)
    (context : McpCallerContext) (w w' : World)
    (results : list SearchResult) :
  Events.semanticSearch rt input context w = (Returned results, w') \/
  EventsV1.semanticSearch rt input context w = (Returned results, w') ->
  exists queryEmbedding base,
    let cs := push EmbeddingIsNotNull
                (push_optional_filters rt input base) in
    generateEmbedding rt (in_query input) = Some queryEmbedding
    /\ results = map (to_scored_result rt queryEmbedding)
                   (run_select rt cs (ByDistanceTo queryEmbedding)
                      (in_limit input) (events_table w))
    /\ w' = record_statement
              (SelectEvents cs (ByDistanceTo queryEmbedding)
                 (in_limit input)) w.
Proof.
  unfold Events.semanticSearch, EventsV1.semanticSearch. cbv zeta.
  intros [H | H];
    apply bind_returned in H; destruct H as [v [w0 [Hembed H]]];
    unfold embed in Hembed;
    destruct (generateEmbedding rt (in_query input)) as [v' |];
      try discriminate Hembed;
    unfold ret in Hembed; injection Hembed as -> <-;
    apply bind_returned in H; destruct H as [rows [w1 [Hsel Hret]]];
    apply select_events_returned in Hsel; destruct Hsel as [-> ->];
    unfold ret in Hret; injection Hret as <- <-;
    eexists; eexists; repeat split; reflexivity.
Qed.

(** What either copy of [searchEvents] returns is what the search
    function of the chosen mode returns. *)
Lemma searchEvents_returned (rt : Runtime) (input : SearchEventsInput)
    (context : McpCallerContext) (w w' : World)
    (results : list SearchResult) :
  Events.searchEvents rt input context w = (Returned results, w') \/
  EventsV1.searchEvents rt input context w = (Returned results, w') ->
  exists w1,
    if in_useSemanticSearch input
    then Events.semanticSearch rt input context w = (Returned results, w1)
         \/ EventsV1.semanticSearch rt input context w
            = (Returned results, w1)
    else Events.keywordSearch rt input context w = (Returned results, w1)
         \/ EventsV1.keywordSearch rt input context w
            = (Returned results, w1).
Proof.
  intros [H | H].
  - unfold Events.searchEvents in H.
    apply bind_returned in H. destruct H as [rs [w1 [Hsearch H]]].
    apply bind_returned in H. destruct H as [u [w2 [_ Hret]]].
    unfold ret in Hret. injection Hret as -> _.
    exists w1. destruct (in_useSemanticSearch input); now left.
  - unfold EventsV1.searchEvents in H.
    exists w'. destruct (in_useSemanticSearch input); now right.
Qed.

Lemma run_select_length (rt : Runtime) (cs : list Condition) (o : Order)
    (limit : nat) (rows : list EventRow) :
  length (run_select rt cs o limit rows) <= limit.
Proof. unfold run_select. apply firstn_le_length. Qed.

(** X11. A search never returns more records than [limit], in either
    mode and in either copy of the service. *)
Theorem searchEvents_at_most_limit
    (rt : Runtime) (input : SearchEventsInput) (context : McpCallerContext)
    (w w' : World) (results : list SearchResult) :
  Events.searchEvents rt input context w = (Returned results, w') \/
  EventsV1.searchEvents rt input context w = (Returned results, w') ->
  length results <= in_limit input.
Proof.
  intros H. apply searchEvents_returned in H. destruct H as [w1 H].
  destruct (in_useSemanticSearch input).
  - apply semanticSearch_returned in H.
    destruct H as [v [base [_ [-> _]]]].
    rewrite length_map. apply run_select_length.
  - apply keywordSearch_returned in H.
    destruct H as [pattern [-> _]].
    rewrite length_map. apply run_select_length.
Qed.

Lemma searchEvents_at_most_limit_witness :
  exists results w',
    Events.searchEvents Sample.rt (Sample.search_for "db" false)
      Sample.context_admin Sample.world = (Returned results, w')
    /\ length results <= 10.
Proof.
  eexists. eexists. split; [reflexivity |].
  apply (@searchEvents_at_most_limit Sample.rt
           (Sample.search_for "db" false) Sample.context_admin
           Sample.world _ _ (or_introl eq_refl)).
Defined.

(** ** Order of the results *)

Section Sorting.
Variable A : Type.
Variable ahead : A -> A -> bool.
(** [may_precede a b]: [a] may stand before [b]. *)
Variable may_precede : A -> A -> Prop.
Hypothesis ahead_precedes :
  forall y x, ahead y x = true -> may_precede y x.
Hypothesis behind_follows :
  forall y x, ahead y x = false -> may_precede x y.

Lemma insert_by_HdRel (x a : A) (l : list A) :
  may_precede a x -> HdRel may_precede a l ->
  HdRel may_precede a (insert_by ahead x l).
Proof.
  intros Hax Hal. destruct l as [| y l]; simpl.
  - now constructor.
  - destruct (ahead y x); constructor; [now inversion Hal | exact Hax].
Qed.

Lemma insert_by_Sorted (x : A) (l : list A) :
  Sorted may_precede l -> Sorted may_precede (insert_by ahead x l).
Proof.
  induction 1 as [| y l Hs IH Hd]; simpl.
  - repeat constructor.
  - destruct (ahead y x) eqn:E.
    + constructor; [exact IH |].
      apply insert_by_HdRel; [| exact Hd].
      now apply ahead_precedes.
    + constructor; [now constructor |]. constructor.
      now apply behind_follows.
Qed.

Lemma sort_by_Sorted (l : list A) : Sorted may_precede (sort_by ahead l).
Proof.
  induction l as [| x l IH]; simpl; [constructor |].
  now apply insert_by_Sorted.
Qed.

End Sorting.

Lemma firstn_Sorted {A} (R : A -> A -> Prop) (n : nat) (l : list A) :
  Sorted R l -> Sorted R (firstn n l).
Proof.
  revert l. induction n as [| n IH]; intros l Hs; [constructor |].
  destruct l as [| x l]; [constructor |].
  inversion Hs as [| ? ? Hs' Hd]; subst. cbn [firstn].
  constructor; [now apply IH |].
  destruct l as [| y l]; [destruct n; constructor |].
  destruct n; [constructor |].
  cbn [firstn]. constructor. now inversion Hd.
Qed.

Lemma map_Sorted_In {A B} (R : A -> A -> Prop) (R' : B -> B -> Prop)
    (f : A -> B) (l : list A) :
  (forall a b, In a l -> In b l -> R a b -> R' (f a) (f b)) ->
  Sorted R l -> Sorted R' (map f l).
Proof.
  induction l as [| x l IH]; intros Hf Hs; [constructor |].
  inversion Hs as [| ? ? Hs' Hd]; subst. cbn [map]. constructor.
  - apply IH; [| exact Hs']. intros a b Ha Hb. apply Hf; now right.
  - destruct l as [| y l]; [constructor |]. cbn [map]. constructor.
    apply Hf; [now left | right; now left | now inversion Hd].
Qed.

Lemma recent_first_Sorted (rt : Runtime) (cs : list Condition)
    (limit : nat) (rows : list EventRow) :
  Sorted not_older
    (map to_result (run_select rt cs ByOccurredAtDesc limit rows)).
Proof.
  unfold run_select, order_rows.
  apply map_Sorted_In
    with (R := fun a b => (ev_occurredAt a <? ev_occurredAt b)%Z = false).
  - intros a b _ _ H. unfold not_older. cbn [to_result sr_occurredAt].
    now apply Z.ltb_ge in H.
  - apply firstn_Sorted.
    apply sort_by_Sorted; intros y x H; unfold more_recent in H.
    + apply Z.ltb_ge. apply orb_true_iff in H.
      destruct H as [H | H]; [apply Z.ltb_lt in H; lia |].
      apply andb_true_iff in H. destruct H as [H _].
      apply Z.eqb_eq in H. lia.
    + apply orb_false_iff in H. now destruct H as [H _].
Qed.

(** X12. Keyword search returns its records most recent first, in
    either copy of the service. *)
Theorem keywordSearch_recent_first
    (rt : Runtime) (input : SearchEventsInput) (context : McpCallerContext)
    (w w' : World) (results : list SearchResult) :
  Events.keywordSearch rt input context w = (Returned results, w') \/
  EventsV1.keywordSearch rt input context w = (Returned results, w') ->
  Sorted not_older results.
Proof.
  intros H. apply keywordSearch_returned in H.
  destruct H as [pattern [-> _]]. apply recent_first_Sorted.
Qed.

Lemma keywordSearch_recent_first_witness :
  exists results w',
    Events.keywordSearch Sample.rt (Sample.search_for "db" false)
      Sample.context_admin Sample.world = (Returned results, w')
    /\ map sr_occurredAt results = [2000%Z; 1000%Z]
    /\ Sorted not_older results.
Proof.
  eexists. eexists. split; [reflexivity |]. split; [reflexivity |].
  apply (@keywordSearch_recent_first Sample.rt
           (Sample.search_for "db" false) Sample.context_admin
           Sample.world _ _ (or_introl eq_refl)).
Defined.

Lemma nearer_asym (rt : Runtime) (q : Vector) (x y : EventRow) :
  nearer rt q y x = true -> nearer rt q x y = false.
Proof.
  unfold nearer.
  destruct (distance_to rt q y) as [a |], (distance_to rt q x) as [b |];
    try reflexivity; try discriminate.
  intros H. apply negb_true_iff in H. apply negb_false_iff.
  apply Qle_bool_iff.
  destruct (Qlt_le_dec a b) as [Hlt | Hle]; [now apply Qlt_le_weak |].
  apply Qle_bool_iff in Hle. congruence.
Qed.

Lemma holds_all_In (rt : Runtime) (cs : list Condition) (c : Condition)
    (r : EventRow) :
  holds_all rt cs r = true -> In c cs -> holds rt c r = true.
Proof.
  unfold holds_all. intros H Hin.
  rewrite forallb_forall in H. now apply H.
Qed.

(** X13. Semantic search returns only events that have an embedding,
    each with the score 1 minus the distance of its embedding to that of
    the query, and in order of decreasing score, in either copy of the
    service. *)
Theorem semanticSearch_scored_and_ranked
    (rt : Runtime) (input : SearchEventsInput) (context : McpCallerContext)
    (w w' : World) (results : list SearchResult) :
  Events.semanticSearch rt input context w = (Returned results, w') \/
  EventsV1.semanticSearch rt input context w = (Returned results, w') ->
  exists queryEmbedding,
    generateEmbedding rt (in_query input) = Some queryEmbedding
    /\ (forall r, In r results ->
          exists row embedding,
            In row (events_table w)
            /\ ev_embedding row = Some embedding
            /\ sr_id r = ev_id row
            /\ sr_score r
               = Some (1 - cosine_distance rt embedding queryEmbedding)%Q)
    /\ Sorted not_less_similar results.
Proof.
  intros H. apply semanticSearch_returned in H.
  destruct H as [v [base [Hv [-> _]]]]. exists v.
  split; [exact Hv |]. cbv zeta.
  set (cs := push EmbeddingIsNotNull (push_optional_filters rt input base)).
  assert (Hemb : forall row,
             In row (run_select rt cs (ByDistanceTo v) (in_limit input)
                       (events_table w)) ->
             In row (events_table w)
             /\ exists e, ev_embedding row = Some e).
  { intros row Hrow. apply run_select_sound in Hrow.
    destruct Hrow as [Hin Hall]. split; [exact Hin |].
    assert (Hc : holds rt EmbeddingIsNotNull row = true).
    { eapply holds_all_In; [exact Hall |].
      unfold cs, push. apply in_or_app. right. now left. }
    simpl in Hc. destruct (ev_embedding row) as [e |]; [| discriminate].
    now exists e. }
  split.
  - intros r Hr. apply in_map_iff in Hr. destruct Hr as [row [<- Hrow]].
    destruct (Hemb row Hrow) as [Hin [e He]].
    exists row, e. repeat split; try assumption.
    unfold to_scored_result, distance_to. cbn [sr_score].
    now rewrite He.
  - apply map_Sorted_In with (R := fun a b => nearer rt v b a = false).
    + intros a b Ha Hb Hab.
      destruct (Hemb a Ha) as [_ [ea Hea]].
      destruct (Hemb b Hb) as [_ [eb Heb]].
      unfold not_less_similar, to_scored_result, distance_to.
      cbn [sr_score]. rewrite Hea, Heb. cbn [option_map].
      unfold nearer, distance_to in Hab. rewrite Hea, Heb in Hab.
      cbn [option_map] in Hab. apply negb_false_iff in Hab.
      apply Qle_bool_iff in Hab.
      unfold Qminus. apply Qplus_le_r. now apply Qopp_le_compat.
    + unfold run_select, order_rows. apply firstn_Sorted.
      apply sort_by_Sorted; intros y x H; unfold closer in H.
      * apply orb_true_iff in H. destruct H as [H | H].
        -- now apply nearer_asym.
        -- apply andb_true_iff in H. destruct H as [H _].
           now apply negb_true_iff in H.
      * apply orb_false_iff in H. now destruct H as [H _].
Qed.

Lemma semanticSearch_scored_and_ranked_witness :
  let results :=
    map (to_scored_result Sample.rt [1%Q; 0%Q])
      [Sample.event_a; Sample.event_b] in
  fst (Events.semanticSearch Sample.rt (Sample.search_for "incident" true)
         Sample.context_admin Sample.world) = Returned results
  /\ Sorted not_less_similar results.
Proof.
  cbv zeta. split; [reflexivity |].
  destruct (@semanticSearch_scored_and_ranked Sample.rt
              (Sample.search_for "incident" true) Sample.context_admin
              Sample.world
              (snd (Events.semanticSearch Sample.rt
                      (Sample.search_for "incident" true)
                      Sample.context_admin Sample.world))
              (map (to_scored_result Sample.rt [1%Q; 0%Q])
                 [Sample.event_a; Sample.event_b])
              (or_introl eq_refl))
    as [v [_ [_ Hsorted]]].
  exact Hsorted.
Defined.

(** ** Optional filters *)






(** ** Timeline *)

Lemma timeline_conditions (rt : Runtime) (serviceId : string)
    (startDate endDate : option Date) (row : EventRow) :
  holds_all rt
    (push_date endDate LteOccurredAt
       (push_date startDate GteOccurredAt [EqServiceId serviceId])) row
  = true ->
  ev_serviceId row = serviceId
  /\ (forall d, startDate = Some d ->
                exists t, d = ValidDate t /\ (t <= ev_occurredAt row)%Z)
  /\ (forall d, endDate = Some d ->
                exists t, d = ValidDate t /\ (ev_occurredAt row <= t)%Z).
Proof.
  intros Hall.
  assert (Hservice : In (EqServiceId serviceId)
                       (push_date endDate LteOccurredAt
                          (push_date startDate GteOccurredAt
                             [EqServiceId serviceId]))).
  { unfold push_date, push. destruct startDate, endDate; simpl; auto. }
  assert (Hstart : forall d, startDate = Some d ->
                     In (GteOccurredAt d)
                       (push_date endDate LteOccurredAt
                          (push_date startDate GteOccurredAt
                             [EqServiceId serviceId]))).
  { intros d ->. unfold push_date, push. destruct endDate; simpl; auto. }
  assert (Hend : forall d, endDate = Some d ->
                   In (LteOccurredAt d)
                     (push_date endDate LteOccurredAt
                        (push_date startDate GteOccurredAt
                           [EqServiceId serviceId]))).
  { intros d ->. unfold push_date at 1. unfold push.
    apply in_or_app. right. now left. }
  split; [| split].
  - apply String.eqb_eq.
    exact (holds_all_In rt _ _ row Hall Hservice).
  - intros d E.
    pose proof (holds_all_In rt _ _ row Hall (Hstart d E)) as Hd.
    destruct d as [t |]; [| discriminate Hd].
    exists t. split; [reflexivity | now apply Z.leb_le].
  - intros d E.
    pose proof (holds_all_In rt _ _ row Hall (Hend d E)) as Hd.
    destruct d as [t |]; [| discriminate Hd].
    exists t. split; [reflexivity | now apply Z.leb_le].
Qed.

(** X15. [getServiceTimeline] returns a list on denial and whenever the
    dates it is given are valid; for an authorized caller and an
    Invalid Date it throws, with nothing sent to the store and nothing
    written. Both copies agree on the outcome. A list it returns holds
    only events of the service asked for, within the dates given, at
    most [limit] of them and most recent first, and is empty when the
    caller is not authorized for that service. *)
Theorem getServiceTimeline_scope
    (rt : Runtime) (serviceId : string) (startDate endDate : option Date)
    (limit : nat) (context : McpCallerContext) (w : World) :
  (isAuthorizedForService context serviceId = false
   \/ valid_argument startDate && valid_argument endDate = true ->
   exists results,
     fst (Events.getServiceTimeline rt serviceId startDate endDate limit
            context w) = Returned results)
  /\ (isAuthorizedForService context serviceId = true ->
      valid_argument startDate && valid_argument endDate = false ->
      exists message,
        Events.getServiceTimeline rt serviceId startDate endDate limit
          context w = (Thrown message, w)
        /\ EventsV1.getServiceTimeline rt serviceId startDate endDate
             limit context w = (Thrown message, w))
  /\ fst (Events.getServiceTimeline rt serviceId startDate endDate limit
            context w)
     = fst (EventsV1.getServiceTimeline rt serviceId startDate endDate
              limit context w)
  /\ forall results,
       fst (Events.getServiceTimeline rt serviceId startDate endDate limit
              context w) = Returned results ->
       length results <= limit
       /\ Sorted not_older results
       /\ (isAuthorizedForService context serviceId = false ->
           results = [])
       /\ forall r, In r results ->
            sr_serviceId r = serviceId
            /\ (forall d, startDate = Some d ->
                  exists t, d = ValidDate t /\ (t <= sr_occurredAt r)%Z)
            /\ (forall d, endDate = Some d ->
                  exists t, d = ValidDate t /\ (sr_occurredAt r <= t)%Z).
Proof.
  rewrite getServiceTimeline_run, getServiceTimeline_v1_run. cbv zeta.
  destruct (isAuthorizedForService context serviceId);
    destruct (valid_argument startDate && valid_argument endDate);
    cbn [fst].
  - split; [intros _; eexists; reflexivity |].
    split; [discriminate |]. split; [reflexivity |].
    intros results H. injection H as <-.
    split; [rewrite length_map; apply run_select_length |].
    split; [apply recent_first_Sorted |].
    split; [discriminate |].
    intros r Hr. apply in_map_iff in Hr. destruct Hr as [row [<- Hrow]].
    apply run_select_sound in Hrow. destruct Hrow as [_ Hall].
    now apply timeline_conditions in Hall.
  - split; [intros [H | H]; discriminate H |].
    split; [intros _ _; eexists; split; reflexivity |].
    split; [reflexivity |]. intros results H. discriminate H.
  - split; [intros _; eexists; reflexivity |].
    split; [discriminate |]. split; [reflexivity |].
    intros results H. injection H as <-.
    split; [simpl; lia |]. split; [constructor |].
    split; [reflexivity |]. intros r [].
  - split; [intros _; eexists; reflexivity |].
    split; [discriminate |]. split; [reflexivity |].
    intros results H. injection H as <-.
    split; [simpl; lia |]. split; [constructor |].
    split; [reflexivity |]. intros r [].
Qed.

Lemma getServiceTimeline_scope_witness :
  fst (Events.getServiceTimeline Sample.rt "svc-a" None None 20
         Sample.context_a Sample2.busy_world)
  = Returned
      (map to_result [Sample2.event_c; Sample2.event_d; Sample.event_a])
  /\ Sorted not_older
       (map to_result [Sample2.event_c; Sample2.event_d; Sample.event_a])
  /\ exists message,
       Events.getServiceTimeline Sample.rt "svc-a"
         (Some InvalidDate) None 20 Sample.context_a Sample2.busy_world
       = (Thrown message, Sample2.busy_world).
Proof.
  destruct (@getServiceTimeline_scope Sample.rt "svc-a" None None 20
              Sample.context_a Sample2.busy_world)
    as [_ [_ [_ Hlist]]].
  destruct (@getServiceTimeline_scope Sample.rt "svc-a"
              (Some InvalidDate) None 20 Sample.context_a
              Sample2.busy_world)
    as [_ [Hthrows _]].
  split; [reflexivity |]. split.
  - apply (Hlist _ eq_refl).
  - destruct (Hthrows eq_refl eq_refl) as [message [Hrun _]].
    now exists message.
Defined.


(** ** Single-record lookup *)

(** X16. [getEventById] returns a record only when an event with the
    requested id is stored and the caller is authorized for its
    service, and then it returns that event, without a score; in both
    copies of the service. *)
Theorem getEventById_exact
    (rt : Runtime) (eventId : string) (context : McpCallerContext)
    (w : World) (r : SearchResult) :
  (fst (Events.getEventById rt eventId context w) = Returned (Some r)
   <-> exists event,
         stored_event w eventId = Some event
         /\ isAuthorizedForService context (ev_serviceId event) = true
         /\ r = to_result event)
  /\ (fst (Events.getEventById rt eventId context w)
      = fst (EventsV1.getEventById rt eventId context w))
  /\ (fst (Events.getEventById rt eventId context w) = Returned (Some r) ->
      sr_id r = eventId
      /\ isAuthorizedForService context (sr_serviceId r) = true
      /\ sr_score r = None).
Proof.
  destruct (getEventById_result rt eventId context w) as [H1 H2].
  cbv zeta in H1, H2.
  assert (Hiff : fst (Events.getEventById rt eventId context w)
                 = Returned (Some r)
                 <-> exists event,
                       stored_event w eventId = Some event
                       /\ isAuthorizedForService context
                            (ev_serviceId event) = true
                       /\ r = to_result event).
  { rewrite H1. destruct (stored_event w eventId) as [event |].
    - destruct (isAuthorizedForService context (ev_serviceId event)) eqn:Ha.
      + split.
        * intros H. injection H as <-. now exists event.
        * intros [event' [E [_ ->]]]. now injection E as <-.
      + split; [discriminate |].
        intros [event' [E [Ha' _]]]. injection E as <-. congruence.
    - split; [discriminate | intros [event' [E _]]; discriminate]. }
  split; [exact Hiff |]. split; [now rewrite H1, H2 |].
  intros H. apply Hiff in H. destruct H as [event [Hstored [Ha ->]]].
  repeat split; try assumption.
  unfold stored_event in Hstored.
  destruct (filter (fun r => ev_id r =? eventId) (events_table w))
    as [| e rest] eqn:Hf; [discriminate |].
  injection Hstored as ->.
  assert (Hin : In event (filter (fun r => ev_id r =? eventId)
                            (events_table w)))
    by (rewrite Hf; now left).
  apply filter_In in Hin. destruct Hin as [_ He].
  now apply String.eqb_eq in He.
Qed.

Lemma getEventById_exact_witness :
  fst (Events.getEventById Sample.rt "e-a" Sample.context_a Sample.world)
  = Returned (Some (to_result Sample.event_a))
  /\ sr_id (to_result Sample.event_a) = "e-a".
Proof.
  split; [reflexivity |].
  exact (proj1 (proj2 (proj2 (@getEventById_exact Sample.rt "e-a"
                                Sample.context_a Sample.world
                                (to_result Sample.event_a)))
                  eq_refl)).
Defined.

(** ** What the audit lines of the read operations say *)

Lemma search_keeps_stderr (rt : Runtime) (input : SearchEventsInput)
    (context : McpCallerContext) (w w1 : World)
    (results : list SearchResult) :
  (if in_useSemanticSearch input
   then Events.semanticSearch rt input context
   else Events.keywordSearch rt input context) w = (Returned results, w1) ->
  stderr w1 = stderr w /\ now w1 = now w.
Proof.
  intros H. destruct (in_useSemanticSearch input).
  - destruct (semanticSearch_returned rt input context w (or_introl H))
      as [v [base [_ [_ ->]]]]. now split.
  - destruct (keywordSearch_returned rt input context w (or_introl H))
      as [pattern [_ ->]]. now split.
Qed.

(** X17. The audit line of a read operation tells the truth about the
    count: the line [searchEvents] writes when it returns reports the
    number of records it returns, names the caller and carries the
    query, the search mode and the filters; the line
    [getServiceTimeline] writes, on denial and whenever its dates are
    valid, reports the number of records it returns for the service
    asked for, and for an authorized caller and an Invalid Date it
    throws and writes no line; the line [getEventById] writes reports 1
    when it returns a record and 0 when it returns [null]. *)
Theorem read_audit_lines_count
    (rt : Runtime) (context : McpCallerContext) (w : World) :
  (forall input results w',
      Events.searchEvents rt input context w = (Returned results, w') ->
      exists line,
        stderr w' = (stderr w ++ [line])%list
        /\ al_message line
           = Some ("Accessed " ++ decimal (length results) ++ " event(s)")
        /\ al_callerId line = callerId context
        /\ al_callerName line = callerName context
        /\ al_serviceId line = in_serviceId input
        /\ al_metadata line = Some (Events.search_metadata input)
        /\ al_timestamp line = toISOString rt (now w))
  /\ (forall serviceId startDate endDate limit,
         isAuthorizedForService context serviceId = false
         \/ valid_argument startDate && valid_argument endDate = true ->
         exists results line,
           fst (Events.getServiceTimeline rt serviceId startDate endDate
                  limit context w) = Returned results
           /\ stderr (snd (Events.getServiceTimeline rt serviceId startDate
                             endDate limit context w))
              = (stderr w ++ [line])%list
           /\ al_message line
              = Some ("Accessed " ++ decimal (length results)
                      ++ " event(s)")
           /\ al_callerId line = callerId context
           /\ al_serviceId line = Some serviceId)
  /\ (forall serviceId startDate endDate limit,
         isAuthorizedForService context serviceId = true ->
         valid_argument startDate && valid_argument endDate = false ->
         (forall results,
             fst (Events.getServiceTimeline rt serviceId startDate endDate
                    limit context w) <> Returned results)
         /\ stderr (snd (Events.getServiceTimeline rt serviceId startDate
                           endDate limit context w)) = stderr w)
  /\ (forall eventId,
         exists result line,
           fst (Events.getEventById rt eventId context w) = Returned result
           /\ stderr (snd (Events.getEventById rt eventId context w))
              = (stderr w ++ [line])%list
           /\ al_message line
              = Some ("Accessed "
                      ++ decimal (match result with
                                  | Some _ => 1
                                  | None => 0
                                  end)
                      ++ " event(s)")
           /\ al_callerId line = callerId context).
Proof.
  split; [| split; [| split]].
  - intros input results w' H. unfold Events.searchEvents in H.
    apply bind_returned in H. destruct H as [rs [w1 [Hsearch H]]].
    apply bind_returned in H. destruct H as [u [w2 [Haudit Hret]]].
    unfold ret in Hret. injection Hret as Hrs Hw'.
    rewrite auditEventAccess_run in Haudit. injection Haudit as Hw2.
    subst rs w' w2.
    destruct (search_keeps_stderr rt input context w Hsearch)
      as [Hsame Hnow].
    eexists. cbn [stderr append_stderr]. rewrite Hsame, Hnow.
    repeat split.
  - intros serviceId startDate endDate limit Hcase.
    rewrite getServiceTimeline_run. cbv zeta.
    rewrite !auditEventAccess_run.
    destruct (isAuthorizedForService context serviceId).
    + destruct Hcase as [Hdenied | Hdates]; [discriminate Hdenied |].
      rewrite Hdates. eexists. eexists.
      cbn [fst snd stderr append_stderr record_statement].
      rewrite length_map. repeat split.
    + eexists. eexists. repeat split.
  - intros serviceId startDate endDate limit Hcheck Hdates.
    rewrite getServiceTimeline_run. cbv zeta. rewrite Hcheck, Hdates.
    split; [intros results H; discriminate H | reflexivity].
  - intros eventId.
    unfold Events.getEventById, bind, select_events.
    cbn [forallb condition_ok parameter_ok andb negb].
    destruct (run_select rt [EqId eventId] Unordered 1 (events_table w))
      as [| event rest]; cbv zeta.
    + rewrite auditEventAccess_run. eexists. eexists. repeat split.
    + destruct (denies (getAuthorizedServiceFilter context)
                  (ev_serviceId event));
        rewrite auditEventAccess_run; eexists; eexists; repeat split.
Qed.

Lemma read_audit_lines_count_witness :
  Events.searchEvents Sample.rt (Sample.search_for "db" false)
    Sample.context_admin Sample.world
  = (Returned [to_result Sample.event_a; to_result Sample.event_b],
     snd (Events.searchEvents Sample.rt (Sample.search_for "db" false)
            Sample.context_admin Sample.world))
  /\ exists line,
       stderr (snd (Events.searchEvents Sample.rt
                      (Sample.search_for "db" false) Sample.context_admin
                      Sample.world)) = [line]
       /\ al_message line = Some "Accessed 2 event(s)".
Proof.
  split; [reflexivity |].
  destruct (proj1 (@read_audit_lines_count Sample.rt Sample.context_admin
                     Sample.world)
              (Sample.search_for "db" false)
              [to_result Sample.event_a; to_result Sample.event_b]
              (snd (Events.searchEvents Sample.rt
                      (Sample.search_for "db" false) Sample.context_admin
                      Sample.world))
              eq_refl) as [line [Hlog [Hmsg _]]].
  exists line. split; [exact Hlog | exact Hmsg].
Defined.

(** ** What the read operations leave alone *)

Lemma reads_only_refl (w : World) : reads_only w w.
Proof.
  unfold reads_only. repeat split.
  - exists []. now rewrite app_nil_r.
  - exists []. now rewrite app_nil_r.
Qed.

Lemma reads_only_trans (w1 w2 w3 : World) :
  reads_only w1 w2 -> reads_only w2 w3 -> reads_only w1 w3.
Proof.
  intros (E1 & T1 & P1 & N1 & [l1 L1] & [s1 [S1 F1]])
         (E2 & T2 & P2 & N2 & [l2 L2] & [s2 [S2 F2]]).
  unfold reads_only. repeat split; try congruence.
  - exists (l1 ++ l2)%list. now rewrite L2, L1, app_assoc.
  - exists (s1 ++ s2)%list. rewrite S2, S1, app_assoc, forallb_app, F1, F2.
    now split.
Qed.

Lemma bind_reads_only {A B} (m : M A) (k : A -> M B) :
  (forall w, reads_only w (snd (m w))) ->
  (forall a w, reads_only w (snd (k a w))) ->
  forall w, reads_only w (snd (bind m k w)).
Proof.
  intros Hm Hk w. unfold bind. specialize (Hm w).
  destruct (m w) as [[a | e] w1]; cbn [snd] in *.
  - apply reads_only_trans with w1; [exact Hm | apply Hk].
  - exact Hm.
Qed.

Lemma ret_reads_only {A} (a : A) (w : World) : reads_only w (snd (ret a w)).
Proof. apply reads_only_refl. Qed.

Lemma select_events_reads_only (rt : Runtime) (cs : list Condition)
    (o : Order) (limit : nat) (w : World) :
  reads_only w (snd (select_events rt cs o limit w)).
Proof.
  unfold select_events.
  assert (H : reads_only w (record_statement (SelectEvents cs o limit) w)).
  { unfold reads_only, record_statement. cbn. repeat split.
    - exists []. now rewrite app_nil_r.
    - now exists [SelectEvents cs o limit]. }
  destruct (negb (forallb parameter_ok cs)); [apply reads_only_refl |].
  now destruct (forallb condition_ok cs).
Qed.

Lemma optional_toISOString_reads_only (rt : Runtime) (d : option Date)
    (w : World) :
  reads_only w (snd (optional_toISOString rt d w)).
Proof.
  unfold optional_toISOString.
  destruct d as [[t |] |]; apply reads_only_refl.
Qed.

Lemma auditEventAccess_reads_only (rt : Runtime) (id : string)
    (name : option string) (action : AccessAction) (n : nat)
    (serviceId : option string) (metadata : option Json) (w : World) :
  reads_only w
    (snd (auditEventAccess rt id name action n serviceId metadata w)).
Proof.
  rewrite auditEventAccess_run. unfold reads_only, append_stderr. cbn.
  repeat split.
  - eexists. reflexivity.
  - exists []. now rewrite app_nil_r.
Qed.

Lemma embed_reads_only (rt : Runtime) (text : string) (w : World) :
  reads_only w (snd (embed rt text w)).
Proof.
  unfold embed. destruct (generateEmbedding rt text); apply reads_only_refl.
Qed.

Create HintDb frame.
#[local] Hint Resolve ret_reads_only select_events_reads_only
  auditEventAccess_reads_only embed_reads_only
  optional_toISOString_reads_only reads_only_refl : frame.

Ltac frame :=
  repeat first
    [ apply bind_reads_only; [intros ? | intros ? ?]
    | progress auto with frame
    | match goal with
      | |- reads_only _ (snd ((if ?b then _ else _) _)) => destruct b
      | |- reads_only _ (snd ((match ?x with _ => _ end) _)) => destruct x
      end ].

Lemma searchEvents_reads_only (rt : Runtime) (input : SearchEventsInput)
    (context : McpCallerContext) (w : World) :
  reads_only w (snd (Events.searchEvents rt input context w))
  /\ reads_only w (snd (EventsV1.searchEvents rt input context w)).
Proof.
  split.
  - unfold Events.searchEvents, Events.semanticSearch,
      Events.keywordSearch. cbv zeta. revert w. frame.
  - unfold EventsV1.searchEvents, EventsV1.semanticSearch,
      EventsV1.keywordSearch. cbv zeta. revert w.
    destruct (in_useSemanticSearch input); frame.
Qed.

Lemma getEventById_reads_only (rt : Runtime) (eventId : string)
    (context : McpCallerContext) (w : World) :
  reads_only w (snd (Events.getEventById rt eventId context w))
  /\ reads_only w (snd (EventsV1.getEventById rt eventId context w)).
Proof.
  split.
  - unfold Events.getEventById. cbv zeta. revert w. frame.
  - unfold EventsV1.getEventById. cbv zeta. revert w. frame.
Qed.

Lemma getServiceTimeline_reads_only (rt : Runtime) (serviceId : string)
    (startDate endDate : option Date) (limit : nat)
    (context : McpCallerContext) (w : World) :
  reads_only w
    (snd (Events.getServiceTimeline rt serviceId startDate endDate limit
            context w))
  /\ reads_only w
       (snd (EventsV1.getServiceTimeline rt serviceId startDate endDate
               limit context w)).
Proof.
  split.
  - unfold Events.getServiceTimeline. cbv zeta. revert w.
    destruct (denies (getAuthorizedServiceFilter context) serviceId); frame.
  - unfold EventsV1.getServiceTimeline. cbv zeta. revert w.
    destruct (denies (getAuthorizedServiceFilter context) serviceId); frame.
Qed.

Lemma generateImpactSummary_reads_only (rt : Runtime)
    (input : GetImpactSummaryInput) (context : McpCallerContext)
    (w : World) :
  reads_only w
    (snd (generateImpactSummary rt (Events.getServiceTimeline rt) input
            context w)).
Proof.
  unfold generateImpactSummary. revert w.
  apply bind_reads_only.
  - intros w. apply getServiceTimeline_reads_only.
  - intros events w. destruct events; revert w; frame.
Qed.

(** X18. The read operations only read: whatever the input, the caller
    and the outcome, [searchEvents], [getEventById] and
    [getServiceTimeline] of both copies and [generateImpactSummary]
    leave the events and the credentials as they were, add lines to
    the audit trail without touching those already written, and send
    the store nothing but selections on the events. *)
Theorem read_operations_read_only
    (rt : Runtime) (context : McpCallerContext) (w : World) :
  (forall input,
      reads_only w (snd (Events.searchEvents rt input context w))
      /\ reads_only w (snd (EventsV1.searchEvents rt input context w)))
  /\ (forall eventId,
         reads_only w (snd (Events.getEventById rt eventId context w))
         /\ reads_only w (snd (EventsV1.getEventById rt eventId context w)))
  /\ (forall serviceId startDate endDate limit,
         reads_only w
           (snd (Events.getServiceTimeline rt serviceId startDate endDate
                   limit context w))
         /\ reads_only w
              (snd (EventsV1.getServiceTimeline rt serviceId startDate
                      endDate limit context w)))
  /\ (forall input,
         reads_only w
           (snd (generateImpactSummary rt (Events.getServiceTimeline rt)
                   input context w))).
Proof.
  split; [| split; [| split]].
  - intros input. apply searchEvents_reads_only.
  - intros eventId. apply getEventById_reads_only.
  - intros. apply getServiceTimeline_reads_only.
  - intros input. apply generateImpactSummary_reads_only.
Qed.

(** ** Impact summary *)

Lemma compare_priority_asym (x y : SearchResult) :
  (compare_priority y x <? 0)%Z = true ->
  (compare_priority x y <? 0)%Z = false.
Proof.
  unfold compare_priority.
  destruct (SEVERITY_PRIORITY (sr_severity x)) as [px |],
           (SEVERITY_PRIORITY (sr_severity y)) as [py |];
    try discriminate.
  cbv zeta. intros H. apply Z.ltb_lt in H. apply Z.ltb_ge.
  destruct (Z.eqb_spec (px - py) 0), (Z.eqb_spec (py - px) 0);
    cbn [negb] in *; lia.
Qed.

Lemma may_precede_urgent (a b : SearchResult) :
  SEVERITY_PRIORITY (sr_severity a) <> None ->
  SEVERITY_PRIORITY (sr_severity b) <> None ->
  (compare_priority b a <? 0)%Z = false ->
  not_less_urgent a b.
Proof.
  unfold compare_priority, not_less_urgent, priority_rank.
  destruct (SEVERITY_PRIORITY (sr_severity a)) as [pa |],
           (SEVERITY_PRIORITY (sr_severity b)) as [pb |];
    try congruence.
  intros _ _ H. cbv zeta in H. apply Z.ltb_ge in H.
  destruct (Z.eqb_spec (pa - pb) 0); cbn [negb] in H; lia.
Qed.

Lemma not_less_urgent_trans (a b c : SearchResult) :
  not_less_urgent a b -> not_less_urgent b c -> not_less_urgent a c.
Proof. unfold not_less_urgent. lia. Qed.

(** The list the comparator of [generateImpactSummary] produces, for
    severities of the table. *)
Lemma prioritized_events (events : list SearchResult) :
  Forall (fun r => SEVERITY_PRIORITY (sr_severity r) <> None) events ->
  Permutation events
    (sort_by (fun y x => (compare_priority y x <? 0)%Z) events)
  /\ StronglySorted not_less_urgent
       (sort_by (fun y x => (compare_priority y x <? 0)%Z) events).
Proof.
  intros Htable. split; [apply sort_by_Permutation |].
  apply Sorted_StronglySorted.
  - intros a b c. apply not_less_urgent_trans.
  - rewrite <- (map_id (sort_by _ events)).
    apply map_Sorted_In
      with (R := fun a b => (compare_priority b a <? 0)%Z = false).
    + rewrite Forall_forall in Htable.
      intros a b Ha Hb. apply sort_by_In in Ha, Hb.
      apply may_precede_urgent; now apply Htable.
    + apply sort_by_Sorted.
      * intros y x. apply compare_priority_asym.
      * intros y x H. exact H.
Qed.

(** X19. When the timeline holds events and their severities are those
    of the priority table, [generateImpactSummary] returns what the
    summarizer makes of all of them, each once, ordered by severity
    (critical, error, warning, info) and, within one severity, most
    recent first. *)
Theorem generateImpactSummary_prioritizes
    (rt : Runtime) (input : GetImpactSummaryInput)
    (context : McpCallerContext) (w w1 : World)
    (events : list SearchResult) :
  Events.getServiceTimeline rt (gi_serviceId input)
    (date_argument rt (gi_startDate input))
    (date_argument rt (gi_endDate input))
    (gi_maxEvents input) context w = (Returned events, w1) ->
  events <> [] ->
  Forall (fun r => SEVERITY_PRIORITY (sr_severity r) <> None) events ->
  exists prioritized,
    Permutation events prioritized
    /\ StronglySorted not_less_urgent prioritized
    /\ fst (generateImpactSummary rt (Events.getServiceTimeline rt) input
              context w)
       = Returned
           (generateSummaryWithLLM rt (gi_serviceId input) prioritized).
Proof.
  intros Hrun Hsome Htable.
  destruct (prioritized_events Htable) as [Hperm Hsorted].
  exists (sort_by (fun y x => (compare_priority y x <? 0)%Z) events).
  split; [exact Hperm |]. split; [exact Hsorted |].
  unfold generateImpactSummary, bind. rewrite Hrun.
  destruct events as [| e events]; [now elim Hsome |].
  cbv zeta. now rewrite auditEventAccess_run.
Qed.

Lemma generateImpactSummary_prioritizes_witness :
  exists prioritized,
    Permutation
      (map to_result [Sample2.event_c; Sample2.event_d; Sample.event_a])
      prioritized
    /\ StronglySorted not_less_urgent prioritized
    /\ fst (generateImpactSummary Sample.rt
              (Events.getServiceTimeline Sample.rt)
              (Sample.summary_of "svc-a") Sample.context_a
              Sample2.busy_world)
       = Returned
           (generateSummaryWithLLM Sample.rt "svc-a" prioritized).
Proof.
  apply (@generateImpactSummary_prioritizes Sample.rt
           (Sample.summary_of "svc-a") Sample.context_a Sample2.busy_world
           (snd (Events.getServiceTimeline Sample.rt "svc-a" None None 20
                   Sample.context_a Sample2.busy_world))
           (map to_result
              [Sample2.event_c; Sample2.event_d; Sample.event_a])).
  - reflexivity.
  - discriminate.
  - repeat constructor; discriminate.
Defined.

Lemma getServiceTimeline_denied_run (rt : Runtime) (serviceId : string)
    (startDate endDate : option Date) (limit : nat)
    (context : McpCallerContext) (w : World) :
  isAuthorizedForService context serviceId = false ->
  Events.getServiceTimeline rt serviceId startDate endDate limit context w
  = (Returned [],
     snd (auditEventAccess rt (callerId context) (callerName context)
            get_timeline 0 (Some serviceId)
            (Some (JObj [ ("reason", JStr "unauthorized") ])) w)).
Proof.
  intros Hdenied. rewrite getServiceTimeline_run. cbv zeta.
  now rewrite Hdenied.
Qed.

(** X20. For a service the caller is not authorized for,
    [generateImpactSummary] answers with the sentence it has for a
    service without events in the time range, so that the answer does
    not tell the two apart; it sends the store no statement and leaves
    two audit lines of 0 events, the first with the reason
    [unauthorized] and the second with the reason [no_events]. *)
Theorem generateImpactSummary_denied_as_empty
    (rt : Runtime) (input : GetImpactSummaryInput)
    (context : McpCallerContext) (w : World) :
  isAuthorizedForService context (gi_serviceId input) = false ->
  let no_events :=
    "No significant events found for service " ++ double_quote
    ++ gi_serviceId input ++ double_quote
    ++ " in the specified time range." in
  let run :=
    generateImpactSummary rt (Events.getServiceTimeline rt) input
      context w in
  fst run = Returned no_events
  /\ issued (snd run) = issued w
  /\ (exists first second,
         stderr (snd run) = (stderr w ++ [first; second])%list
         /\ al_message first = Some "Accessed 0 event(s)"
         /\ al_metadata first
            = Some (JObj [ ("reason", JStr "unauthorized") ])
         /\ al_message second = Some "Accessed 0 event(s)"
         /\ al_metadata second
            = Some (JObj [ ("reason", JStr "no_events") ]))
  /\ (forall context0 w0 w1,
         Events.getServiceTimeline rt (gi_serviceId input)
           (date_argument rt (gi_startDate input))
           (date_argument rt (gi_endDate input))
           (gi_maxEvents input) context0 w0 = (Returned [], w1) ->
         fst (generateImpactSummary rt (Events.getServiceTimeline rt)
                input context0 w0) = Returned no_events).
Proof.
  intros Hdenied no_events run.
  assert (Hrun : run
                 = (Returned no_events,
                    snd (auditEventAccess rt (callerId context)
                           (callerName context) get_impact_summary 0
                           (Some (gi_serviceId input))
                           (Some (JObj [ ("reason", JStr "no_events") ]))
                           (snd (auditEventAccess rt (callerId context)
                                   (callerName context) get_timeline 0
                                   (Some (gi_serviceId input))
                                   (Some (JObj [ ("reason",
                                                  JStr "unauthorized") ]))
                                   w))))).
  { subst run. unfold generateImpactSummary, bind.
    rewrite (getServiceTimeline_denied_run rt _ _ _ _ _ w Hdenied).
    now rewrite !auditEventAccess_run. }
  rewrite Hrun. rewrite !auditEventAccess_run.
  cbn [fst snd issued stderr append_stderr].
  split; [reflexivity |]. split; [reflexivity |]. split.
  - eexists. eexists. rewrite <- app_assoc. cbn [app].
    repeat split.
  - intros context0 w0 w1 Hempty. unfold generateImpactSummary, bind.
    rewrite Hempty. now rewrite auditEventAccess_run.
Qed.

Lemma generateImpactSummary_denied_as_empty_witness :
  fst (generateImpactSummary Sample.rt
         (Events.getServiceTimeline Sample.rt) (Sample.summary_of "svc-b")
         Sample.context_a Sample.world)
  = fst (generateImpactSummary Sample.rt
           (Events.getServiceTimeline Sample.rt)
           (Sample.summary_of "svc-b") Sample.context_admin
           {| events_table := [Sample.event_a];
              api_tokens_table := [];
              PEI_AUTH_TOKEN := None;
              now := 5000;
              stderr := [];
              issued := [] |}).
Proof.
  destruct (@generateImpactSummary_denied_as_empty Sample.rt
              (Sample.summary_of "svc-b") Sample.context_a Sample.world
              eq_refl) as [Hdenied [_ [_ Hempty]]].
  rewrite Hdenied. symmetry.
  apply (Hempty Sample.context_admin
           {| events_table := [Sample.event_a];
              api_tokens_table := [];
              PEI_AUTH_TOKEN := None;
              now := 5000;
              stderr := [];
              issued := [] |}
           (snd (Events.getServiceTimeline Sample.rt "svc-b" None None 20
                   Sample.context_admin
                   {| events_table := [Sample.event_a];
                      api_tokens_table := [];
                      PEI_AUTH_TOKEN := None;
                      now := 5000;
                      stderr := [];
                      issued := [] |}))).
  reflexivity.
Defined.

(** ** The tool handlers *)

Lemma resolve_keeps_events (rt : Runtime) (extra : Json) (w : World) :
  events_table (snd (resolveCallerContext rt extra w)) = events_table w.
Proof.
  destruct (presented_cases extra w) as [Hnone | [[Ht Hbad] | [s [Hs Hne]]]].
  - now rewrite (resolve_without_credential rt extra w Hnone).
  - now rewrite (resolve_bad_credential rt extra w Ht Hbad).
  - rewrite (resolve_credential_run rt extra w Hs Hne). cbv zeta.
    destruct (matching rt s w) as [| tokenRecord rest]; [reflexivity |].
    destruct (expired_at (now w) tokenRecord); reflexivity.
Qed.

(** A context that grants anything was built from a stored record that
    has not expired. *)
Lemma resolve_grants_from_record (rt : Runtime) (extra : Json)
    (w w' : World) (context : McpCallerContext) :
  resolveCallerContext rt extra w = (Returned context, w') ->
  authorizedServices context <> [] ->
  exists (s : string) (tokenRecord : ApiToken),
    presented extra w = JStr s
    /\ In tokenRecord (api_tokens_table w)
    /\ tk_tokenHash tokenRecord = sha256_hex rt s
    /\ expired_at (now w) tokenRecord = false
    /\ authorizedServices context = tk_authorizedServices tokenRecord.
Proof.
  intros Hrun Hgranted.
  destruct (presented_cases extra w) as [Hnone | [[Ht Hbad] | [s [Hs Hne]]]].
  - rewrite (resolve_without_credential rt extra w Hnone) in Hrun.
    injection Hrun as <- _. now elim Hgranted.
  - rewrite (resolve_bad_credential rt extra w Ht Hbad) in Hrun.
    discriminate Hrun.
  - rewrite (resolve_credential_run rt extra w Hs Hne) in Hrun.
    cbv zeta in Hrun.
    destruct (matching rt s w) as [| tokenRecord rest] eqn:Hm.
    + injection Hrun as <- _. now elim Hgranted.
    + destruct (expired_at (now w) tokenRecord) eqn:He.
      * injection Hrun as <- _. now elim Hgranted.
      * injection Hrun as <- _.
        destruct (matching_In rt s w Hm) as [Hin Hhash].
        exists s, tokenRecord. repeat split; assumption.
Qed.

Lemma stored_event_same_table (w w1 : World) (eventId : string) :
  events_table w1 = events_table w ->
  stored_event w1 eventId = stored_event w eventId.
Proof. unfold stored_event. now intros ->. Qed.

Lemma searchEvents_empty_context_results (rt : Runtime)
    (input : SearchEventsInput) (context : McpCallerContext)
    (w w' : World) (results : list SearchResult) :
  authorizedServices context = [] ->
  Events.searchEvents rt input context w = (Returned results, w') ->
  results = [].
Proof.
  intros Hempty Hrun. apply no_member_nil. intros r Hr.
  assert (Hstar : includes (authorizedServices context) "*" = false)
    by now rewrite Hempty.
  pose proof (searchEvents_authorized rt input context w Hrun Hstar r Hr)
    as Hin.
  now rewrite Hempty in Hin.
Qed.

(** X21. A call whose credential resolves to no service (none
    presented, none stored under its digest, or an expired one) learns
    nothing from the tools: [get_event_details] answers "Event not
    found" for every identifier, [get_service_timeline] an empty
    timeline with [eventCount] 0, [get_impact_summary] the sentence for
    a service without events; and whenever [search_events] answers, it
    answers an empty result with [resultCount] 0, which it does when
    the date filters can be read and the embedding of a semantic query
    succeeds. *)
Theorem tools_without_entitlement
    (rt : Runtime) (toFixed3 : Q -> string) (extra : Json) (w w1 : World)
    (context : McpCallerContext) :
  resolveCallerContext rt extra w = (Returned context, w1) ->
  authorizedServices context = [] ->
  (forall eventId,
      fst (Server.get_event_details rt eventId extra w)
      = Returned (JObj [ ("error", JStr "Event not found") ]))
  /\ (forall input,
         fst (Server.get_service_timeline rt input extra w)
         = Returned (JObj [ ("service", JStr (Server.gt_serviceId input));
                            ("eventCount", JNum 0);
                            ("timeline", JArr []) ]))
  /\ (forall input,
         get_field "summary"
           match fst (Server.get_impact_summary rt input extra w) with
           | Returned answer => answer
           | Thrown _ => JUndefined
           end
         = JStr ("No significant events found for service "
                 ++ double_quote ++ gi_serviceId input ++ double_quote
                 ++ " in the specified time range."))
  /\ (forall input answer,
         fst (Server.search_events rt toFixed3 input extra w)
         = Returned answer ->
         answer = JObj [ ("query", JStr (in_query input));
                         ("resultCount", JNum 0);
                         ("searchType",
                          JStr (if in_useSemanticSearch input
                                then "semantic" else "keyword"));
                         ("results", JArr []) ])
  /\ (forall input,
         readable_dates rt input = true ->
         (in_useSemanticSearch input = true ->
          generateEmbedding rt (in_query input) <> None) ->
         fst (Server.search_events rt toFixed3 input extra w)
         = Returned (JObj [ ("query", JStr (in_query input));
                            ("resultCount", JNum 0);
                            ("searchType",
                             JStr (if in_useSemanticSearch input
                                   then "semantic" else "keyword"));
                            ("results", JArr []) ])).
Proof.
  intros Hresolve Hempty. split; [| split; [| split; [| split]]].
  - intros eventId. unfold Server.get_event_details. unfold bind at 1.
    rewrite Hresolve. unfold bind.
    destruct (getEventById_empty_context rt eventId context w1 Hempty)
      as [H _].
    destruct (Events.getEventById rt eventId context w1) as [o w2].
    cbn [fst] in H. now subst o.
  - intros input. unfold Server.get_service_timeline. unfold bind at 1.
    rewrite Hresolve. unfold bind.
    destruct (getServiceTimeline_empty_context rt
                (Server.gt_serviceId input)
                (date_argument rt (Server.gt_startDate input))
                (date_argument rt (Server.gt_endDate input))
                (Server.gt_limit input) context w1 Hempty) as [H _].
    destruct (Events.getServiceTimeline rt _ _ _ _ context w1) as [o w2].
    cbn [fst] in H. now subst o.
  - intros input. unfold Server.get_impact_summary. unfold bind at 1.
    rewrite Hresolve.
    unfold generateImpactSummary, bind.
    rewrite (getServiceTimeline_denied_run rt _ _ _ _ _ w1
               (empty_context_unauthorized context _ Hempty)).
    now rewrite auditEventAccess_run.
  - intros input answer. unfold Server.search_events. unfold bind at 1.
    rewrite Hresolve. unfold bind.
    destruct (Events.searchEvents rt input context w1)
      as [[results | e] w2] eqn:Hrun; [| discriminate].
    rewrite (searchEvents_empty_context_results rt input context w1
               Hempty Hrun).
    unfold ret. cbn [fst]. intros H. now injection H as <-.
  - intros input Hdates Hembed. unfold Server.search_events.
    unfold bind at 1. rewrite Hresolve. unfold bind.
    destruct (searchEvents_empty_context rt input context w1 Hempty)
      as [H | [[Hsem Hnone] | H]].
    + destruct (Events.searchEvents rt input context w1) as [o w2].
      cbn [fst] in H. now subst o.
    + now elim (Hembed Hsem).
    + rewrite Hdates in H. discriminate H.
Qed.

Lemma tools_without_entitlement_witness :
  fst (Server.get_event_details Sample.rt "e-a"
         (Sample.call_with_token "old-secret") Sample.world)
  = Returned (JObj [ ("error", JStr "Event not found") ])
  /\ fst (Server.get_service_timeline Sample.rt
            (Sample2.timeline_of "svc-a")
            (Sample.call_with_token "old-secret") Sample.world)
     = Returned (JObj [ ("service", JStr "svc-a");
                        ("eventCount", JNum 0);
                        ("timeline", JArr []) ]).
Proof.
  destruct (@tools_without_entitlement Sample.rt (fun _ => "0.000")
              (Sample.call_with_token "old-secret") Sample.world
              (snd (resolveCallerContext Sample.rt
                      (Sample.call_with_token "old-secret")
                      Sample.world))
              (zero_access "tok-old") eq_refl eq_refl)
    as [Hdetails [Htimeline _]].
  split; [apply Hdetails | apply (Htimeline (Sample2.timeline_of "svc-a"))].
Defined.

(** X22. Whenever [get_event_details] answers, the answer is either
    "Event not found" or the details of the stored event with the
    identifier asked for, and the latter only for a call that presents
    the secret of a stored record that has not expired and that lists
    the event's service or [*]. *)
Theorem get_event_details_discloses
    (rt : Runtime) (eventId : string) (extra : Json) (w : World)
    (answer : Json) :
  fst (Server.get_event_details rt eventId extra w) = Returned answer ->
  answer = JObj [ ("error", JStr "Event not found") ]
  \/ exists (s : string) (tokenRecord : ApiToken) (event : EventRow),
       presented extra w = JStr s
       /\ In tokenRecord (api_tokens_table w)
       /\ tk_tokenHash tokenRecord = sha256_hex rt s
       /\ expired_at (now w) tokenRecord = false
       /\ stored_event w eventId = Some event
       /\ (In "*" (tk_authorizedServices tokenRecord)
           \/ In (ev_serviceId event) (tk_authorizedServices tokenRecord))
       /\ answer
          = JObj [ ("id", JStr (ev_id event));
                   ("service", JStr (ev_serviceId event));
                   ("type", JStr (ev_eventType event));
                   ("severity", JStr (ev_severity event));
                   ("title", JStr (ev_title event));
                   ("description", Server.nullable (ev_description event));
                   ("occurredAt",
                    JStr (toISOString rt (ev_occurredAt event))) ].
Proof.
  intros Hrun.
  destruct (Server.get_event_details rt eventId extra w) as [o w'] eqn:E.
  cbn [fst] in Hrun. subst o. unfold Server.get_event_details in E.
  apply bind_returned in E. destruct E as [context [w1 [Hresolve E]]].
  apply bind_returned in E. destruct E as [found [w2 [Hget Hret]]].
  pose proof (resolve_keeps_events rt extra w) as Hevents.
  rewrite Hresolve in Hevents. cbn [snd] in Hevents.
  destruct (getEventById_result rt eventId context w1) as [Hvisible _].
  rewrite Hget in Hvisible. cbn [fst] in Hvisible.
  injection Hvisible as ->.
  rewrite (stored_event_same_table w w1 eventId Hevents) in Hret.
  destruct (stored_event w eventId) as [event |] eqn:Hstored;
    [| left; unfold ret in Hret; now injection Hret as <-].
  destruct (isAuthorizedForService context (ev_serviceId event)) eqn:Hauth;
    [| left; unfold ret in Hret; now injection Hret as <-].
  right. unfold ret in Hret. injection Hret as <- _.
  assert (Hgranted : authorizedServices context <> []).
  { intros Hempty.
    rewrite (empty_context_unauthorized context _ Hempty) in Hauth.
    discriminate Hauth. }
  destruct (resolve_grants_from_record rt extra w Hresolve Hgranted)
    as [s [tokenRecord [Hs [Hin [Hhash [Hlive Hservices]]]]]].
  exists s, tokenRecord, event. repeat split; try assumption.
  unfold isAuthorizedForService in Hauth. rewrite Hservices in Hauth.
  destruct (includes (tk_authorizedServices tokenRecord) "*") eqn:Hstar.
  - left. now apply includes_In.
  - right. now apply includes_In.
Qed.

Lemma get_event_details_discloses_witness :
  JObj [ ("id", JStr "e-a"); ("service", JStr "svc-a");
         ("type", JStr "incident"); ("severity", JStr "critical");
         ("title", JStr "DB outage");
         ("description", JStr "Primary database unavailable");
         ("occurredAt", JStr "2026-01-21T00:02:10.127Z") ]
  = JObj [ ("error", JStr "Event not found") ]
  \/ exists (s : string) (tokenRecord : ApiToken) (event : EventRow),
       presented JNull Sample2.world = JStr s
       /\ In tokenRecord (api_tokens_table Sample2.world)
       /\ tk_tokenHash tokenRecord = sha256_hex Sample.rt s
       /\ expired_at (now Sample2.world) tokenRecord = false
       /\ stored_event Sample2.world "e-a" = Some event
       /\ (In "*" (tk_authorizedServices tokenRecord)
           \/ In (ev_serviceId event) (tk_authorizedServices tokenRecord))
       /\ JObj [ ("id", JStr "e-a"); ("service", JStr "svc-a");
                 ("type", JStr "incident"); ("severity", JStr "critical");
                 ("title", JStr "DB outage");
                 ("description", JStr "Primary database unavailable");
                 ("occurredAt", JStr "2026-01-21T00:02:10.127Z") ]
          = JObj [ ("id", JStr (ev_id event));
                   ("service", JStr (ev_serviceId event));
                   ("type", JStr (ev_eventType event));
                   ("severity", JStr (ev_severity event));
                   ("title", JStr (ev_title event));
                   ("description", Server.nullable (ev_description event));
                   ("occurredAt",
                    JStr (toISOString Sample.rt (ev_occurredAt event))) ].
Proof.
  apply (@get_event_details_discloses Sample.rt "e-a" JNull Sample2.world).
  reflexivity.
Defined.

Lemma search_scores (rt : Runtime) (input : SearchEventsInput)
    (context : McpCallerContext) (w w' : World)
    (results : list SearchResult) (r : SearchResult) :
  Events.searchEvents rt input context w = (Returned results, w') ->
  In r results ->
  match sr_score r with Some _ => true | None => false end
  = in_useSemanticSearch input.
Proof.
  intros Hrun Hr.
  destruct (searchEvents_returned rt input context w (or_introl Hrun))
    as [w1 H].
  destruct (in_useSemanticSearch input).
  - apply semanticSearch_returned in H.
    destruct H as [v [base [_ [-> _]]]].
    apply in_map_iff in Hr. destruct Hr as [row [<- Hrow]].
    apply run_select_sound in Hrow. destruct Hrow as [_ Hall].
    assert (Hc : holds rt EmbeddingIsNotNull row = true).
    { eapply holds_all_In; [exact Hall |]. unfold push.
      apply in_or_app. right. now left. }
    simpl in Hc. unfold to_scored_result, distance_to. cbn [sr_score].
    now destruct (ev_embedding row).
  - apply keywordSearch_returned in H.
    destruct H as [pattern [-> _]].
    apply in_map_iff in Hr. now destruct Hr as [row [<- _]].
Qed.

(** X23. In the answer of [search_events], [resultCount] is the number
    of entries of [results], which is at most the [limit] asked for,
    and an entry carries a [relevanceScore] exactly when the search was
    semantic. *)
Theorem search_events_answer
    (rt : Runtime) (toFixed3 : Q -> string) (input : SearchEventsInput)
    (extra : Json) (w : World) (answer : Json) :
  fst (Server.search_events rt toFixed3 input extra w) = Returned answer ->
  exists entries,
    get_field "results" answer = JArr entries
    /\ get_field "resultCount" answer = JNum (Z.of_nat (length entries))
    /\ length entries <= in_limit input
    /\ Forall (fun entry =>
                 has_key "relevanceScore" entry
                 = in_useSemanticSearch input) entries.
Proof.
  intros Hrun.
  destruct (Server.search_events rt toFixed3 input extra w) as [o w'] eqn:E.
  cbn [fst] in Hrun. subst o. unfold Server.search_events in E.
  apply bind_returned in E. destruct E as [context [w1 [_ E]]].
  apply bind_returned in E. destruct E as [results [w2 [Hsearch Hret]]].
  unfold ret in Hret. injection Hret as <- _.
  eexists. split; [reflexivity |]. cbn [get_field assoc String.eqb].
  rewrite length_map. split; [reflexivity |]. split.
  - destruct (searchEvents_returned rt input context w1
                (or_introl Hsearch)) as [w3 H].
    destruct (in_useSemanticSearch input).
    + apply semanticSearch_returned in H.
      destruct H as [v [base [_ [-> _]]]].
      rewrite length_map. apply run_select_length.
    + apply keywordSearch_returned in H.
      destruct H as [pattern [-> _]].
      rewrite length_map. apply run_select_length.
  - apply Forall_forall. intros entry Hentry.
    apply in_map_iff in Hentry. destruct Hentry as [r [<- Hr]].
    rewrite <- (search_scores rt input context w1 r Hsearch Hr).
    unfold Server.relevance. now destruct (sr_score r).
Qed.

Lemma search_events_answer_witness :
  exists entries,
    get_field "results"
      match fst (Server.search_events Sample.rt (fun _ => "1.000")
                   (Sample.search_for "db" true) JNull Sample2.world) with
      | Returned answer => answer
      | Thrown _ => JUndefined
      end = JArr entries
    /\ length entries = 2
    /\ Forall (fun entry => has_key "relevanceScore" entry = true) entries.
Proof.
  destruct (@search_events_answer Sample.rt (fun _ => "1.000")
              (Sample.search_for "db" true) JNull Sample2.world _ eq_refl)
    as [entries [Hresults [_ [_ Hscored]]]].
  exists entries. split; [exact Hresults |]. split; [| exact Hscored].
  vm_compute in Hresults. injection Hresults as <-. reflexivity.
Defined.

(** ** src/utils/index.ts *)

Lemma string_length_append (a b : string) :
  String.length (a ++ b) = String.length a + String.length b.
Proof. induction a as [| c a IH]; simpl; [reflexivity | now rewrite IH]. Qed.

Lemma substring_0_length (n : nat) (s : string) :
  String.length (substring 0 n s) = Nat.min n (String.length s).
Proof.
  revert s. induction n as [| n IH]; intros [| c s]; simpl; try reflexivity.
  now rewrite IH.
Qed.

Lemma substring_0_prefix (n : nat) (s : string) :
  prefix (substring 0 n s) s = true.
Proof.
  revert s. induction n as [| n IH]; intros [| c s]; simpl; try reflexivity.
  destruct (ascii_dec c c) as [_ | Hne]; [apply IH | now elim Hne].
Qed.

Lemma truncate_fits (s : string) (maxLength : Z) :
  (Z.of_nat (String.length s) <= maxLength)%Z ->
  truncate (Some s) maxLength = s.
Proof.
  intros Hfits. unfold truncate.
  destruct (String.eqb_spec s ""); [now subst |].
  apply Z.leb_le in Hfits. now rewrite Hfits.
Qed.

Lemma truncate_length_le (str : option string) (maxLength : Z) :
  (Z.of_nat (String.length (truncate str maxLength))
   <= Z.max maxLength 3)%Z.
Proof.
  unfold truncate. destruct str as [s |]; [| simpl; lia].
  destruct (s =? ""); [simpl; lia |].
  destruct (Z.leb_spec (Z.of_nat (String.length s)) maxLength); [lia |].
  rewrite string_length_append, substring_0_length. simpl. lia.
Qed.

(** X24. For an integer [maxLength], [truncate] returns at most the
    larger of [maxLength] and 3 characters: it returns either the
    string itself or, when the string is longer than [maxLength], its
    first [maxLength - 3] characters (none when [maxLength] is below 3)
    followed by three dots; applied to its own result with a
    [maxLength] of 3 or more it changes nothing. *)
Theorem truncate_length
    (str : option string) (maxLength : Z) :
  (Z.of_nat (String.length (truncate str maxLength))
   <= Z.max maxLength 3)%Z
  /\ (forall s,
         str = Some s ->
         truncate str maxLength = s
         \/ exists kept,
              truncate str maxLength = kept ++ "..."
              /\ prefix kept s = true
              /\ String.length kept = Z.to_nat (maxLength - 3)
              /\ (maxLength < Z.of_nat (String.length s))%Z)
  /\ ((3 <= maxLength)%Z ->
      truncate (Some (truncate str maxLength)) maxLength
      = truncate str maxLength).
Proof.
  split; [apply truncate_length_le |]. split.
  - intros s ->. unfold truncate.
    destruct (String.eqb_spec s ""); [left; now subst |].
    destruct (Z.leb_spec (Z.of_nat (String.length s)) maxLength);
      [now left | right].
    exists (substring 0 (Z.to_nat (maxLength - 3)) s).
    split; [reflexivity |]. split; [apply substring_0_prefix |].
    split; [| assumption].
    rewrite substring_0_length. lia.
  - intros Hthree. apply truncate_fits.
    pose proof (truncate_length_le str maxLength). lia.
Qed.

Lemma truncate_length_witness :
  truncate (Some "Primary database unavailable") 10 = "Primary..."
  /\ truncate (Some "Primary database unavailable") 2 = "..."
  /\ truncate (Some (truncate (Some "Primary database unavailable") 10)) 10
     = truncate (Some "Primary database unavailable") 10.
Proof.
  split; [reflexivity |]. split; [reflexivity |].
  apply (proj2 (proj2 (@truncate_length
                         (Some "Primary database unavailable") 10))).
  lia.
Defined.

Lemma retry_loop_success {T} (fn : nat -> Outcome T) (baseDelayMs : Z)
    (v : T) (k : nat) :
  forall remaining attempt lastError,
    (forall i, i < k -> exists e, fn (attempt + i) = Thrown e) ->
    fn (attempt + k) = Returned v ->
    k < remaining ->
    retry_loop fn baseDelayMs remaining attempt lastError
    = (Resolved v,
       map (fun i => (baseDelayMs * 2 ^ Z.of_nat i)%Z) (seq attempt k)).
Proof.
  induction k as [| k IH]; intros remaining attempt lastError Hfail Hok Hlt;
    destruct remaining as [| remaining]; try lia; cbn [retry_loop].
  - rewrite Nat.add_0_r in Hok. now rewrite Hok.
  - destruct (Hfail 0 ltac:(lia)) as [e He].
    rewrite Nat.add_0_r in He. rewrite He.
    rewrite (IH remaining (S attempt) (Some e)).
    + destruct remaining; [lia | reflexivity].
    + intros i Hi. destruct (Hfail (S i) ltac:(lia)) as [e' He'].
      exists e'. now rewrite <- Nat.add_succ_comm in He'.
    + now rewrite <- Nat.add_succ_comm in Hok.
    + lia.
Qed.

Lemma retry_loop_exhausted {T} (fn : nat -> Outcome T) (baseDelayMs : Z)
    (last : string) (r : nat) :
  forall attempt lastError,
    (forall i, i < r -> exists e, fn (attempt + i) = Thrown e) ->
    fn (attempt + r) = Thrown last ->
    retry_loop fn baseDelayMs (S r) attempt lastError
    = (Rejected (Some last),
       map (fun i => (baseDelayMs * 2 ^ Z.of_nat i)%Z) (seq attempt r)).
Proof.
  induction r as [| r IH]; intros attempt lastError Hfail Hlast.
  - rewrite Nat.add_0_r in Hlast. cbn [retry_loop]. now rewrite Hlast.
  - destruct (Hfail 0 ltac:(lia)) as [e He].
    rewrite Nat.add_0_r in He.
    change (retry_loop fn baseDelayMs (S (S r)) attempt lastError)
      with (match fn attempt with
            | Returned v => (Resolved v, [])
            | Thrown e0 =>
                (fst (retry_loop fn baseDelayMs (S r) (S attempt)
                        (Some e0)),
                 (baseDelayMs * 2 ^ Z.of_nat attempt)%Z
                 :: snd (retry_loop fn baseDelayMs (S r) (S attempt)
                           (Some e0)))
            end).
    rewrite He. rewrite (IH (S attempt) (Some e)); [reflexivity | |].
    + intros i Hi. destruct (Hfail (S i) ltac:(lia)) as [e' He'].
      exists e'. now rewrite <- Nat.add_succ_comm in He'.
    + now rewrite <- Nat.add_succ_comm in Hlast.
Qed.

(** X25. When the first [k] calls of the function fail and the next one
    answers, with [k] below [maxRetries], [retry] resolves to that
    answer after exactly [k] sleeps, of [baseDelayMs], twice that, four
    times that and so on. *)
Theorem retry_resolves_after_failures
    (T : Type) (fn : nat -> Outcome T) (maxRetries : nat) (baseDelayMs : Z)
    (v : T) (k : nat) :
  (forall i, i < k -> exists e, fn i = Thrown e) ->
  fn k = Returned v ->
  k < maxRetries ->
  retry fn maxRetries baseDelayMs
  = (Resolved v,
     map (fun i => (baseDelayMs * 2 ^ Z.of_nat i)%Z) (seq 0 k)).
Proof.
  intros Hfail Hok Hlt. unfold retry.
  now apply retry_loop_success.
Qed.

Lemma retry_resolves_after_failures_witness :
  retry Sample2.flaky 3 100 = (Resolved 7, [100; 200]%Z).
Proof.
  apply (@retry_resolves_after_failures nat Sample2.flaky 3 100 7 2).
  - intros [| [| i]] Hi; [now exists "first" | now exists "second" | lia].
  - reflexivity.
  - lia.
Defined.

(** X26. When every one of the [maxRetries] calls fails, [retry] rejects
    with the error of the last call, having slept [maxRetries - 1]
    times and not after the last failure; with [maxRetries] 0 it never
    calls the function and rejects with [undefined]. *)
Theorem retry_rejects_with_last_error
    (T : Type) (fn : nat -> Outcome T) (baseDelayMs : Z) :
  retry fn 0 baseDelayMs = (Rejected None, [])
  /\ forall (r : nat) (last : string),
       (forall i, i < r -> exists e, fn i = Thrown e) ->
       fn r = Thrown last ->
       retry fn (S r) baseDelayMs
       = (Rejected (Some last),
          map (fun i => (baseDelayMs * 2 ^ Z.of_nat i)%Z) (seq 0 r)).
Proof.
  split; [reflexivity |].
  intros r last Hfail Hlast. unfold retry.
  now apply retry_loop_exhausted.
Qed.

Lemma retry_rejects_with_last_error_witness :
  retry Sample2.flaky 2 100 = (Rejected (Some "second"), [100]%Z).
Proof.
  apply (proj2 (@retry_rejects_with_last_error nat Sample2.flaky 100) 1
           "second").
  - intros [| i] Hi; [now exists "first" | lia].
  - reflexivity.
Defined.

(** ** Where the two copies of the service agree *)

Lemma replace_all_absent (c : ascii) (by_ : string) (s : string) :
  (forall x, In x (list_ascii_of_string s) -> x <> c) ->
  replace_all c by_ s = s.
Proof.
  induction s as [| x s IH]; intros Habsent; simpl; [reflexivity |].
  destruct (Ascii.eqb_spec x c) as [-> | _].
  - now elim (Habsent c (or_introl eq_refl)).
  - rewrite IH; [reflexivity |]. intros y Hy. apply Habsent. now right.
Qed.

Lemma escapeLikePattern_plain (q : string) :
  (forall x, In x (list_ascii_of_string q) ->
             x <> "%"%char /\ x <> "_"%char /\ x <> "\"%char) ->
  escapeLikePattern q = q.
Proof.
  intros Hplain. unfold escapeLikePattern.
  rewrite (@replace_all_absent "\" "\\" q)
    by (intros x Hx; apply Hplain, Hx).
  rewrite (@replace_all_absent "%" "\%" q)
    by (intros x Hx; apply Hplain, Hx).
  apply replace_all_absent. intros x Hx. apply Hplain, Hx.
Qed.

(** X27. The two copies of [searchEvents] return the same records and
    send the store the same statement for a keyword query that holds
    none of the characters [%], [_] and backslash, and for a semantic
    query of a caller who holds [*]: the revision changes the outcome
    of a search only through the escaping of those characters and the
    entitlement filter of the semantic search. *)
Theorem searchEvents_copies_agree
    (rt : Runtime) (input : SearchEventsInput) (context : McpCallerContext)
    (w : World) :
  (in_useSemanticSearch input = false ->
   forall x, In x (list_ascii_of_string (in_query input)) ->
             x <> "%"%char /\ x <> "_"%char /\ x <> "\"%char) ->
  (in_useSemanticSearch input = true ->
   includes (authorizedServices context) "*" = true) ->
  fst (Events.searchEvents rt input context w)
  = fst (EventsV1.searchEvents rt input context w)
  /\ issued (snd (Events.searchEvents rt input context w))
     = issued (snd (EventsV1.searchEvents rt input context w)).
Proof.
  intros Hplain Hstar.
  assert (Hsame : (if in_useSemanticSearch input
                   then Events.semanticSearch rt input context
                   else Events.keywordSearch rt input context) w
                  = EventsV1.searchEvents rt input context w).
  { unfold EventsV1.searchEvents.
    destruct (in_useSemanticSearch input).
    - unfold Events.semanticSearch, EventsV1.semanticSearch,
        push_authorization_filter, getAuthorizedServiceFilter.
      now rewrite (Hstar eq_refl).
    - unfold Events.keywordSearch, EventsV1.keywordSearch. cbv zeta.
      now rewrite (@escapeLikePattern_plain _ (Hplain eq_refl)). }
  unfold Events.searchEvents, bind. rewrite Hsame.
  destruct (EventsV1.searchEvents rt input context w) as [[results | e] w1];
    [| now split].
  rewrite auditEventAccess_run. now split.
Qed.

Lemma searchEvents_copies_agree_witness :
  fst (Events.searchEvents Sample.rt (Sample.search_for "db" false)
         Sample.context_a Sample.world)
  = fst (EventsV1.searchEvents Sample.rt (Sample.search_for "db" false)
           Sample.context_a Sample.world).
Proof.
  apply (@searchEvents_copies_agree Sample.rt (Sample.search_for "db" false)
           Sample.context_a Sample.world).
  - intros _ x [<- | [<- | []]]; repeat split; discriminate.
  - discriminate.
Defined.
